(** * PgGo: the in-memory cache, the condition builder and the table operations

    A shallow embedding of the Go package [modules] of PgGo
    (MemCache.go, Cache.go, Conditions.go, the where-clause builder and the
    Fetch/Insert/Update/Delete/CreateTable/DropTable operations), with the
    properties of its specification stated and proved over the embedding.

    Conventions of the embedding:
    - Go's [int], [int64] and [time.Duration] are 64-bit two's complement
      integers: values are [Z] and every addition the code performs goes
      through [wrap64];
    - [time.Now().UnixNano()] is an input [now : Z] of each cache operation;
    - a [map[string]interface{}] that the code only looks keys up in or
      ranges over is an association list, in the order the runtime's
      [range] yields its entries;
    - the mutex of [MemoryCache] makes its four operations atomic, so a run
      of a cache is a sequence of operations. *)

From Stdlib Require Import ZArith Lia Ascii DecimalString.
From stdpp Require Import gmap strings list sorting.

#[local] Set Warnings "-register-all,-clear-no-such-hyp".

(** ** Machine integers *)

Definition min_int64 : Z := (- 2 ^ 63)%Z.
Definition max_int64 : Z := (2 ^ 63 - 1)%Z.

(** The value a 64-bit signed addition or increment leaves. *)
Definition wrap64 (z : Z) : Z := ((z + 2 ^ 63) `mod` 2 ^ 64 - 2 ^ 63)%Z.

Definition in_int64 (z : Z) : Prop := (min_int64 ≤ z ≤ max_int64)%Z.

(** ** MemCache.go *)

Module MemCache.

(** [CacheItem]: one item of the cache. *)
Record CacheItem := mkCacheItem {
  Key : string;
  Value : list Byte.byte;
  Expiration : Z
}.

(** [MemoryCache].  An element of [evictList] is named by the key under which
    [items] holds it: [items] maps a key to the [*CacheItem] its element
    carries, and [evictList] is the sequence of the elements, front first.
    [mu] is not modelled: every operation below is one critical section. *)
Record MemoryCache := mkMemoryCache {
  items : gmap string CacheItem;
  evictList : list string;
  maxSize : Z
}.

Definition NewMemoryCache (maxSize : Z) : MemoryCache :=
  {| items := ∅; evictList := []; maxSize := maxSize |}.

(** *** container/list, for the three calls the cache makes *)

(** [l.Remove(e)]: takes [e] out of the list if it is an element of it. *)
Definition Remove (e : string) (l : list string) : list string :=
  filter (λ x, x ≠ e) l.

(** [l.MoveToFront(e)]: no change if [e] is not an element of the list. *)
Definition MoveToFront (e : string) (l : list string) : list string :=
  if decide (e ∈ l) then e :: Remove e l else l.

(** [l.PushFront(v)]. *)
Definition PushFront (e : string) (l : list string) : list string := e :: l.

(** [l.Back()]. *)
Definition Back (l : list string) : option string := last l.

(** [l.Len()]. *)
Definition Len (l : list string) : Z := Z.of_nat (length l).

(** *** The cache operations *)

(** [removeElement(e)], [kv] being the item [e] carries. *)
Definition removeElement (e : string) (kv : CacheItem) (c : MemoryCache)
  : MemoryCache :=
  {| items := delete (Key kv) (items c);
     evictList := Remove e (evictList c);
     maxSize := maxSize c |}.

(** [removeOldest()].  The item the back element carries is the one [items]
    holds under the name of the element. *)
Definition removeOldest (c : MemoryCache) : MemoryCache :=
  match Back (evictList c) with
  | Some ent =>
      match items c !! ent with
      | Some kv => removeElement ent kv c
      | None => c
      end
  | None => c
  end.

(** [Set(key, value, ttl)] at the instant [now].  The expiration is
    [time.Now().Add(ttl).UnixNano()]: the sum of the two counts of
    nanoseconds, as the [int64] that [UnixNano] returns, which has wrapped
    around when the instant is past the year 2262. *)
Definition Set_ (now : Z) (key : string) (value : list Byte.byte) (ttl : Z)
    (c : MemoryCache) : MemoryCache :=
  let expiration := wrap64 (now + ttl) in
  match items c !! key with
  | Some ent =>
      {| items := <[key := {| Key := Key ent; Value := value;
                              Expiration := expiration |}]> (items c);
         evictList := MoveToFront key (evictList c);
         maxSize := maxSize c |}
  | None =>
      let ent := {| Key := key; Value := value; Expiration := expiration |} in
      let c1 := {| items := <[key := ent]> (items c);
                   evictList := PushFront key (evictList c);
                   maxSize := maxSize c |} in
      if bool_decide (0 < maxSize c1)%Z
         && bool_decide (maxSize c1 < Len (evictList c1))%Z
      then removeOldest c1
      else c1
  end.

(** [Get(key)] at the instant [now]: [Some v] stands for [(v, true)] and
    [None] for [(nil, false)]. *)
Definition Get (now : Z) (key : string) (c : MemoryCache)
  : option (list Byte.byte) * MemoryCache :=
  match items c !! key with
  | Some ent =>
      if bool_decide (Expiration ent < now)%Z
      then (None, removeElement key ent c)
      else (Some (Value ent),
            {| items := items c;
               evictList := MoveToFront key (evictList c);
               maxSize := maxSize c |})
  | None => (None, c)
  end.

(** [Delete(key)]. *)
Definition Delete (key : string) (c : MemoryCache) : MemoryCache :=
  match items c !! key with
  | Some ent => removeElement key ent c
  | None => c
  end.

(** [Clear()]. *)
Definition Clear (c : MemoryCache) : MemoryCache :=
  {| items := ∅; evictList := []; maxSize := maxSize c |}.

(** *** Runs of a cache *)

Inductive CacheOp :=
| OpSet (now : Z) (key : string) (value : list Byte.byte) (ttl : Z)
| OpGet (now : Z) (key : string)
| OpDelete (key : string)
| OpClear.

Definition step (op : CacheOp) (c : MemoryCache) : MemoryCache :=
  match op with
  | OpSet now key value ttl => Set_ now key value ttl c
  | OpGet now key => (Get now key c).2
  | OpDelete key => Delete key c
  | OpClear => Clear c
  end.

Definition run (ops : list CacheOp) (c : MemoryCache) : MemoryCache :=
  foldl (λ c op, step op c) c ops.

(** The key an operation touches: the subject of a [Set], or of a [Get] that
    finds an entry that has not expired. *)
Definition touches (op : CacheOp) (c : MemoryCache) : option string :=
  match op with
  | OpSet _ key _ _ => Some key
  | OpGet now key =>
      match (Get now key c).1 with Some _ => Some key | None => None end
  | _ => None
  end.

(** A run observed from outside: the cache, the number of the next operation
    and, for each key, the number of the last operation that touched it
    (0 when none did). *)
Record Traced := mkTraced {
  cache : MemoryCache;
  clock : nat;
  touched : string → nat
}.

Definition tstep (op : CacheOp) (s : Traced) : Traced :=
  {| cache := step op (cache s);
     clock := S (clock s);
     touched := match touches op (cache s) with
                | Some k => λ k', if decide (k' = k) then clock s else touched s k'
                | None => touched s
                end |}.

Definition trun (ops : list CacheOp) (s : Traced) : Traced :=
  foldl (λ s op, tstep op s) s ops.

Definition tinit (m : Z) : Traced :=
  {| cache := NewMemoryCache m; clock := 1; touched := λ _, 0 |}.

(** *** Vocabulary of the properties *)

(** The two structures of a cache describe the same entries: no element
    occurs twice in the list, the list holds exactly the keys of the map,
    and an item is filed under its own key. *)
Definition WF (c : MemoryCache) : Prop :=
  NoDup (evictList c) ∧
  (∀ k, k ∈ evictList c ↔ is_Some (items c !! k)) ∧
  (∀ k it, items c !! k = Some it → Key it = k).

(** The list is in order of last touch, the most recent in front. *)
Definition recency_ordered (s : Traced) : Prop :=
  StronglySorted (λ a b, touched s b < touched s a) (evictList (cache s)) ∧
  Forall (λ k, touched s k < clock s) (evictList (cache s)).

(** The capacity bound of a cache whose maximum is positive. *)
Definition within_capacity (c : MemoryCache) : Prop :=
  (Len (evictList c) ≤ maxSize c)%Z.

(** An operation that affects the entry of [k] in the cache [c] it runs on:
    a [Set] of [k], a [Set] of another key that evicts [k], a [Delete] of
    [k], or a [Clear]. *)
Definition affects (k : string) (op : CacheOp) (c : MemoryCache) : bool :=
  match op with
  | OpSet _ key _ _ =>
      bool_decide (key = k) ||
      (bool_decide (is_Some (items c !! k)) &&
       negb (bool_decide (is_Some (items (step op c) !! k))))
  | OpGet _ _ => false
  | OpDelete key => bool_decide (key = k)
  | OpClear => true
  end.

(** No operation of the run [ops], started on [c], affects [k]. *)
Fixpoint unaffected (k : string) (ops : list CacheOp) (c : MemoryCache) : bool :=
  match ops with
  | [] => true
  | op :: ops' => negb (affects k op c) && unaffected k ops' (step op c)
  end.

(** Every [Get] of the run is performed no later than the instant [t]. *)
Definition gets_by (t : Z) (ops : list CacheOp) : bool :=
  forallb (λ op, match op with
                 | OpGet now _ => bool_decide (now ≤ t)%Z
                 | _ => true
                 end) ops.

(** The run contains no [Set] of [k]. *)
Definition no_Set_of (k : string) (ops : list CacheOp) : bool :=
  forallb (λ op, match op with
                 | OpSet _ key _ _ => bool_decide (key ≠ k)
                 | _ => true
                 end) ops.

End MemCache.

(** ** Values, strings and errors *)

(** A value of type [interface{}], as far as the package inspects it: the nil
    interface, scalars, a value of slice kind, a [map[string]interface{}]
    (its entries in the order [range] yields them), a [Condition] (its
    [Type] and [Values]), or a value of any other type, of which the package
    only asks whether it is one of the former. *)
Inductive GoValue :=
| VNil
| VBool (b : bool)
| VInt (n : Z)
| VStr (s : string)
| VSlice (elems : list GoValue)
| VMap (entries : list (string * GoValue))
| VCond (type : string) (values : list GoValue)
| VOther (descr : string).

(** A row, or a data argument: [map[string]interface{}]. *)
Abbreviation Row := (list (string * GoValue)).

(** [m[key]] with the comma-ok form, on a map given by its entries. *)
Fixpoint map_lookup (key : string) (m : Row) : option GoValue :=
  match m with
  | [] => None
  | (k, v) :: m' => if decide (k = key) then Some v else map_lookup key m'
  end.

(** A call that returns [(T, error)]; the error by its message. *)
Inductive result (A : Type) :=
| Ok (a : A)
| Err (msg : string).
Arguments Ok {A} a.
Arguments Err {A} msg.

(** [fmt.Sprintf("%d", n)]. *)
Definition itoa (n : Z) : string :=
  DecimalString.NilZero.string_of_int (Z.to_int n).

(** [strings.Join(elems, sep)]. *)
Definition Join (elems : list string) (sep : string) : string :=
  String.concat sep elems.

Definition dquote : ascii := "034"%char.

(** [strings.ReplaceAll] of one double quote by two. *)
Fixpoint double_quotes (s : string) : string :=
  match s with
  | EmptyString => EmptyString
  | String a s' =>
      if decide (a = dquote)
      then String dquote (String dquote (double_quotes s'))
      else String a (double_quotes s')
  end.

(** [QuoteIdentifier(ident)]. *)
Definition QuoteIdentifier (ident : string) : string :=
  String dquote (double_quotes ident +:+ String dquote EmptyString).

(** ** Conditions.go *)

Module Conditions.

(** [ConditionType] is a string type. *)
Definition ConditionIn : string := "IN".
Definition ConditionBetween : string := "BETWEEN".
Definition ConditionIsNull : string := "IS NULL".
Definition ConditionIsNotNull : string := "IS NOT NULL".
Definition ConditionLike : string := "LIKE".
Definition ConditionGt : string := ">".
Definition ConditionLt : string := "<".
Definition ConditionGte : string := ">=".
Definition ConditionLte : string := "<=".
Definition ConditionNeq : string := "!=".

(** [Condition]; the field [Type] is [Type_] here. *)
Record Condition := mkCondition {
  Type_ : string;
  Values : list GoValue
}.

(** The loop of the [IN] case over the elements of the slice. *)
Fixpoint in_loop (elems : list GoValue) (argIndex : Z)
  : list string * list GoValue * Z :=
  match elems with
  | [] => ([], [], argIndex)
  | v :: elems' =>
      let '(inArgs, args, argIndex') := in_loop elems' (wrap64 (argIndex + 1)) in
      (("$" +:+ itoa argIndex) :: inArgs, v :: args, argIndex')
  end.

(** [c.ToSQL(col, &argIndex)]: the fragment, the arguments and the value
    left in [argIndex]; [None] when an index into [c.Values] is out of range
    and the call panics. *)
Definition ToSQL (c : Condition) (col : string) (argIndex : Z)
  : option (string * list GoValue * Z) :=
  let unary (op : string) :=
    match Values c with
    | v0 :: _ =>
        Some (col +:+ op +:+ itoa argIndex, [v0], wrap64 (argIndex + 1))
    | [] => None
    end in
  if String.eqb (Type_ c) ConditionIn then
    match Values c with
    | VSlice elems :: _ =>
        match elems with
        | [] => Some ("1=0", [], argIndex)
        | _ =>
            let '(inArgs, args, argIndex') := in_loop elems argIndex in
            Some (col +:+ " IN (" +:+ Join inArgs ", " +:+ ")", args, argIndex')
        end
    | valSlice :: _ =>
        Some (col +:+ " IN (" +:+ Join ["$" +:+ itoa argIndex] ", " +:+ ")",
              [valSlice], wrap64 (argIndex + 1))
    | [] => None
    end
  else if String.eqb (Type_ c) ConditionBetween then
    match Values c with
    | v0 :: v1 :: _ =>
        Some (col +:+ " BETWEEN $" +:+ itoa argIndex +:+ " AND $"
                  +:+ itoa (wrap64 (argIndex + 1)),
              [v0; v1], wrap64 (argIndex + 2))
    | _ => None
    end
  else if String.eqb (Type_ c) ConditionIsNull then
    Some (col +:+ " IS NULL", [], argIndex)
  else if String.eqb (Type_ c) ConditionIsNotNull then
    Some (col +:+ " IS NOT NULL", [], argIndex)
  else if String.eqb (Type_ c) ConditionLike then unary " ILIKE $"
  else if String.eqb (Type_ c) ConditionGt then unary " > $"
  else if String.eqb (Type_ c) ConditionLt then unary " < $"
  else if String.eqb (Type_ c) ConditionGte then unary " >= $"
  else if String.eqb (Type_ c) ConditionLte then unary " <= $"
  else if String.eqb (Type_ c) ConditionNeq then unary " != $"
  else Some (EmptyString, [], argIndex).

Definition In (values : GoValue) : Condition :=
  {| Type_ := ConditionIn; Values := [values] |}.

Definition Between (from to : GoValue) : Condition :=
  match from, to with
  | VNil, VNil => {| Type_ := EmptyString; Values := [] |}
  | VNil, _ => {| Type_ := ConditionLte; Values := [to] |}
  | _, VNil => {| Type_ := ConditionGte; Values := [from] |}
  | _, _ => {| Type_ := ConditionBetween; Values := [from; to] |}
  end.

Definition IsNull : Condition := {| Type_ := ConditionIsNull; Values := [] |}.
Definition IsNotNull : Condition :=
  {| Type_ := ConditionIsNotNull; Values := [] |}.
Definition Like (pattern : string) : Condition :=
  {| Type_ := ConditionLike; Values := [VStr pattern] |}.
Definition Gt (value : GoValue) : Condition :=
  {| Type_ := ConditionGt; Values := [value] |}.
Definition Lt (value : GoValue) : Condition :=
  {| Type_ := ConditionLt; Values := [value] |}.
Definition Gte (value : GoValue) : Condition :=
  {| Type_ := ConditionGte; Values := [value] |}.
Definition Lte (value : GoValue) : Condition :=
  {| Type_ := ConditionLte; Values := [value] |}.
Definition Neq (value : GoValue) : Condition :=
  {| Type_ := ConditionNeq; Values := [value] |}.

(** *** Vocabulary of the properties *)

Definition is_digit (a : ascii) : bool :=
  (48 <=? nat_of_ascii a) && (nat_of_ascii a <=? 57).

(** The longest prefix of digits. *)
Fixpoint digits_prefix (s : string) : string :=
  match s with
  | EmptyString => EmptyString
  | String a s' =>
      if is_digit a then String a (digits_prefix s') else EmptyString
  end.

(** The parameter placeholders of a text, in order: at each dollar sign, the
    digits that follow it. *)
Fixpoint placeholders (s : string) : list string :=
  match s with
  | EmptyString => []
  | String a s' =>
      if Ascii.eqb a "$"
      then digits_prefix s' :: placeholders s'
      else placeholders s'
  end.

(** The texts of [k] consecutive numbers from [n] on. *)
Fixpoint numerals (n : Z) (k : nat) : list string :=
  match k with
  | 0 => []
  | S k' => itoa n :: numerals (n + 1) k'
  end.

(** A text without a dollar sign. *)
Fixpoint dollar_free (s : string) : bool :=
  match s with
  | EmptyString => true
  | String a s' => negb (Ascii.eqb a "$") && dollar_free s'
  end.

(** The number of entries of [Values] the [Type] of a condition makes
    [ToSQL] read. *)
Definition values_read (c : Condition) : nat :=
  if String.eqb (Type_ c) ConditionBetween then 2
  else if existsb (String.eqb (Type_ c))
            [ConditionIn; ConditionLike; ConditionGt; ConditionLt;
             ConditionGte; ConditionLte; ConditionNeq] then 1
  else 0.

(** The number of parameters of a condition. *)
Definition parameters (c : Condition) : nat :=
  if String.eqb (Type_ c) ConditionIn then
    match Values c with
    | VSlice elems :: _ => length elems
    | _ => 1
    end
  else values_read c.

End Conditions.

(** ** Tables: DataType.go, Table.go, Cache.go, the where-clause builder
       and the operations *)

Module Tables.

Import MemCache Conditions.

(** [ColumnDef] (DataType.go). *)
Record ColumnDef := mkColumnDef {
  Type_ : string;
  Length : option Z;
  Precision : option Z;
  Scale : option Z;
  isNotNull : bool;
  isUnique : bool;
  isPrimaryKey : bool;
  Default : option string;
  Check_ : option string
}.

(** [cd.String()]. *)
Definition ColumnDef_String (cd : ColumnDef) : string :=
  let base :=
    match Length cd, Precision cd, Scale cd with
    | Some l, _, _ => Type_ cd +:+ "(" +:+ itoa l +:+ ")"
    | None, Some p, Some sc =>
        Type_ cd +:+ "(" +:+ itoa p +:+ "," +:+ itoa sc +:+ ")"
    | None, Some p, None => Type_ cd +:+ "(" +:+ itoa p +:+ ")"
    | None, None, _ => Type_ cd
    end in
  Join ([base]
        ++ (if isNotNull cd then ["NOT NULL"] else [])
        ++ (if isUnique cd then ["UNIQUE"] else [])
        ++ (if isPrimaryKey cd then ["PRIMARY KEY"] else [])
        ++ match Default cd with
           | Some d => ["DEFAULT " +:+ d]
           | None => []
           end
        ++ match Check_ cd with
           | Some ck => ["CHECK (" +:+ ck +:+ ")"]
           | None => []
           end) " ".

(** [Column]; its field [Name] is [ColumnName] here. *)
Record Column := mkColumn {
  ColumnName : string;
  DataType : ColumnDef
}.

(** [Table].  The field [Connection] is the data store, which the
    operations below receive as an argument; [CacheData] is [None] for the
    nil pointer.  What [DebugMode] switches on is writing to the log, which
    is not modelled. *)
Record Table := mkTable {
  Name : string;
  Columns : list Column;
  Cached : bool;
  CacheTTL : Z;
  CacheKey : string;
  CacheMax : Z;
  CacheData : option MemoryCache;
  DebugMode : bool
}.

Definition with_CacheData (t : Table) (cd : option MemoryCache) : Table :=
  {| Name := Name t; Columns := Columns t; Cached := Cached t;
     CacheTTL := CacheTTL t; CacheKey := CacheKey t; CacheMax := CacheMax t;
     CacheData := cd; DebugMode := DebugMode t |}.

(** *** The data store *)

(** A row of a result set: its column values, or the error of
    [rows.Values()]. *)
Inductive RowRead :=
| RowOk (row : Row)
| RowErr (err : string).

(** What [conn.Query] answers: an error, or the rows of the result set. *)
Inductive QueryResult :=
| QueryError (err : string)
| QueryRows (rows : list RowRead).

(** The data store as an operation meets it: whether [GetConnection]
    fails ([Some err]) and what [conn.Query] answers to a statement and its
    parameters. *)
Record DataStore := mkDataStore {
  acquire : option string;
  query : string → list GoValue → QueryResult
}.

(** What an operation asks of the data store, in order. *)
Inductive DbEvent :=
| EvAcquire
| EvQuery (sql : string) (params : list GoValue).

(** [t.fetchRowsResult(rows)].  The code does not read [rows.Err()]: a result
    set that stops early is, for the code and here, a shorter result set. *)
Fixpoint fetchRowsResult (rows : list RowRead) : result (list Row) :=
  match rows with
  | [] => Ok []
  | RowErr err :: _ => Err ("failed to read returned values: " +:+ err)
  | RowOk row :: rows' =>
      match fetchRowsResult rows' with
      | Ok results => Ok (row :: results)
      | Err msg => Err msg
      end
  end.

(** *** The where-clause builder (part_005) *)

(** The loop of [buildWhereClause] over the entries of one map argument. *)
Fixpoint where_map (entries : Row) (argIndex : Z)
  : option (list string * list GoValue * Z) :=
  match entries with
  | [] => Some ([], [], argIndex)
  | (key, val) :: entries' =>
      let quotedKey := QuoteIdentifier key in
      let first :=
        match val with
        | VCond type values =>
            match ToSQL {| Conditions.Type_ := type; Values := values |}
                        quotedKey argIndex with
            | Some (sql, condArgs, argIndex') => Some (sql, condArgs, argIndex')
            | None => None
            end
        | _ => Some (quotedKey +:+ " = $" +:+ itoa argIndex, [val],
                     wrap64 (argIndex + 1))
        end in
      match first with
      | Some (sql, condArgs, argIndex') =>
          match where_map entries' argIndex' with
          | Some (conditions, args, argIndex'') =>
              Some (sql :: conditions, condArgs ++ args, argIndex'')
          | None => None
          end
      | None => None
      end
  end.

(** The loop of [buildWhereClause] over [whereArgs]. *)
Fixpoint where_args (whereArgs : list GoValue) (argIndex : Z)
  : option (list string * list GoValue * Z) :=
  match whereArgs with
  | [] => Some ([], [], argIndex)
  | arg :: whereArgs' =>
      let first :=
        match arg with
        | VMap entries => where_map entries argIndex
        | VStr v => Some ([v], [], argIndex)
        | v => Some ([], [v], argIndex)
        end in
      match first with
      | Some (conditions1, args1, argIndex') =>
          match where_args whereArgs' argIndex' with
          | Some (conditions, args, argIndex'') =>
              Some (conditions1 ++ conditions, args1 ++ args, argIndex'')
          | None => None
          end
      | None => None
      end
  end.

(** [buildWhereClause(whereArgs, &argIndex)]: the clause, the arguments and
    the value left in [argIndex]; [None] when a condition makes [ToSQL]
    panic. *)
Definition buildWhereClause (whereArgs : list GoValue) (argIndex : Z)
  : option (string * list GoValue * Z) :=
  match where_args whereArgs argIndex with
  | Some (conditions, args, argIndex') =>
      match conditions with
      | [] => Some (EmptyString, args, argIndex')
      | _ => Some (" WHERE " +:+ Join conditions " AND ", args, argIndex')
      end
  | None => None
  end.

(** *** The statements *)

(** [validColumns[col]] in [Insert] and [Update]. *)
Definition validColumn (t : Table) (col : string) : bool :=
  bool_decide (col ∈ ColumnName <$> Columns t).

(** The entries of [data] that name a column of the table, in the order
    [range] yields them. *)
Definition valid_entries (t : Table) (data : Row) : Row :=
  filter (λ e, validColumn t e.1) data.

(** The statement of [FetchOne]. *)
Definition selectOneSQL (t : Table) (where_clause : string) : string :=
  "SELECT * FROM " +:+ Name t +:+ where_clause +:+ " LIMIT 1".

(** The statement of [FetchMany]. *)
Definition selectSQL (t : Table) (where_clause : string) : string :=
  "SELECT * FROM " +:+ Name t +:+ where_clause.

(** The statement of [Insert], for the entries of [data] that passed the
    column filter. *)
Definition insertSQL (t : Table) (entries : Row) : string :=
  let columns := (λ e, QuoteIdentifier e.1) <$> entries in
  let placeholders :=
    (λ i : nat, "$" +:+ itoa (Z.of_nat i + 1)) <$> seq 0 (length columns) in
  "INSERT INTO " +:+ Name t +:+ " (" +:+ Join columns ", " +:+ ") VALUES ("
    +:+ Join placeholders ", " +:+ ")" +:+ " RETURNING *".

(** The loop of [Update] over [data] that builds the SET clause. *)
Fixpoint set_parts (t : Table) (data : Row) (argIndex : Z)
  : list string * list GoValue * Z :=
  match data with
  | [] => ([], [], argIndex)
  | (col, val) :: data' =>
      if validColumn t col then
        let '(setParts, args, argIndex') :=
          set_parts t data' (wrap64 (argIndex + 1)) in
        ((QuoteIdentifier col +:+ " = $" +:+ itoa argIndex) :: setParts,
         val :: args, argIndex')
      else set_parts t data' argIndex
  end.

(** The statement of [Update]. *)
Definition updateSQL (t : Table) (setParts : list string)
    (whereClause : string) : string :=
  "UPDATE " +:+ Name t +:+ " SET " +:+ Join setParts ", " +:+ whereClause
    +:+ " RETURNING *".

(** The statement of [Delete]. *)
Definition deleteSQL (t : Table) (whereClause : string) : string :=
  "DELETE FROM " +:+ Name t +:+ whereClause +:+ " RETURNING *".

(** The statement of [CreateTable]. *)
Definition createTableSQL (t : Table) : string :=
  let columnDefs :=
    (λ col, QuoteIdentifier (ColumnName col) +:+ " "
              +:+ ColumnDef_String (DataType col)) <$> Columns t in
  "CREATE TABLE IF NOT EXISTS " +:+ QuoteIdentifier (Name t) +:+ " ("
    +:+ Join columnDefs ", " +:+ ")".

(** The statement of [DropTable]. *)
Definition dropTableSQL (t : Table) : string :=
  "DROP TABLE IF EXISTS " +:+ QuoteIdentifier (Name t).

(** *** Cache.go *)

(** What an operation leaves when it returns: its result, the table, the
    requests it made to the data store, and the rows its goroutine, if it
    started one, has not reached yet. *)
Record Outcome (A : Type) := mkOutcome {
  returned : result A;
  table : Table;
  events : list DbEvent;
  pending : list Row
}.
Arguments mkOutcome {A}.
Arguments returned {A}.
Arguments table {A}.
Arguments events {A}.
Arguments pending {A}.

Section cache_orchestration.

(** The three library calls whose result the package only passes on:
    [fmt.Sprintf("%v", v)], [json.Marshal] of a row and [json.Unmarshal]
    into a row. *)
Variable FormatV : GoValue → string.
Variable Marshal : Row → result (list Byte.byte).
Variable Unmarshal : list Byte.byte → result Row.

(** [t.EnableCache(ttl)]. *)
Definition EnableCache (t : Table) (ttl : Z) : Table :=
  let cacheMax := if decide (CacheMax t = 0%Z) then 1000%Z else CacheMax t in
  {| Name := Name t; Columns := Columns t; Cached := true; CacheTTL := ttl;
     CacheKey := CacheKey t; CacheMax := cacheMax;
     CacheData := Some (NewMemoryCache cacheMax); DebugMode := DebugMode t |}.

(** The first loop of [getCacheKey]: the maps, in order. *)
Fixpoint key_in_maps (cacheKey : string) (whereArgs : list GoValue)
  : option string :=
  match whereArgs with
  | [] => None
  | VMap m :: whereArgs' =>
      match map_lookup cacheKey m with
      | Some val => Some (FormatV val)
      | None => key_in_maps cacheKey whereArgs'
      end
  | _ :: whereArgs' => key_in_maps cacheKey whereArgs'
  end.

(** The second loop of [getCacheKey], from the index [i] on:
    [for ; i < len(whereArgs)-1; i += 2].  The loop runs at most
    [len(whereArgs)] times, which is the [fuel] its callers give it. *)
Fixpoint key_in_pairs (fuel : nat) (cacheKey : string)
    (whereArgs : list GoValue) (i : nat) : option string :=
  match fuel with
  | 0 => None
  | S fuel' =>
      if bool_decide (Z.of_nat i < Z.of_nat (length whereArgs) - 1)%Z then
        match whereArgs !! i, whereArgs !! (i + 1) with
        | Some (VStr key), Some val =>
            if decide (key = cacheKey) then Some (FormatV val)
            else key_in_pairs fuel' cacheKey whereArgs (i + 2)
        | _, _ => key_in_pairs fuel' cacheKey whereArgs (i + 2)
        end
      else None
  end.

(** [t.getCacheKey(whereArgs...)]. *)
Definition getCacheKey (t : Table) (whereArgs : list GoValue) : result string :=
  if negb (Cached t) then Err "caching is not enabled for this table"
  else if decide (CacheKey t = EmptyString)
  then Err "CacheKey is not defined for this table"
  else
    match key_in_maps (CacheKey t) whereArgs with
    | Some key => Ok key
    | None =>
        match key_in_pairs (length whereArgs) (CacheKey t) whereArgs 0 with
        | Some key => Ok key
        | None => Err ("CacheKey '" +:+ CacheKey t +:+ "' not found in whereArgs")
        end
    end.

(** [t.setCache(key, value)] at the instant [now]: the error and the table
    it leaves. *)
Definition setCache (t : Table) (now : Z) (key : string) (value : Row)
  : option string * Table :=
  match Cached t, CacheData t with
  | true, Some c =>
      match Marshal value with
      | Err msg => (Some ("failed to marshal cache data: " +:+ msg), t)
      | Ok data =>
          (None, with_CacheData t (Some (Set_ now key data (CacheTTL t) c)))
      end
  | _, _ => (None, t)
  end.

(** [t.getCacheValue(key, &target)] at the instant [now]: whether the value
    was found, the error, what [target] holds afterwards when found, and the
    table it leaves. *)
Definition getCacheValue (t : Table) (now : Z) (key : string)
  : bool * option string * option Row * Table :=
  match Cached t, CacheData t with
  | true, Some c =>
      let '(found, c') := Get now key c in
      let t' := with_CacheData t (Some c') in
      match found with
      | None => (false, None, None, t')
      | Some data =>
          match Unmarshal data with
          | Err msg =>
              (false, Some ("failed to unmarshal cache data: " +:+ msg), None, t')
          | Ok target => (true, None, Some target, t')
          end
      end
  | _, _ => (false, None, None, t)
  end.

(** [t.deleteCache(key)]. *)
Definition deleteCache (t : Table) (key : string) : Table :=
  match Cached t, CacheData t with
  | true, Some c => with_CacheData t (Some (Delete key c))
  | _, _ => t
  end.

(** [t.invalidateCache()]. *)
Definition invalidateCache (t : Table) : Table :=
  match Cached t, CacheData t with
  | true, Some c => with_CacheData t (Some (Clear c))
  | _, _ => t
  end.

(** *** The goroutines the operations start *)

(** What a goroutine does with each row it was given. *)
Inductive AsyncKind :=
| Populate   (* [getCacheKey(row)], then [setCache(key, row)] *)
| Purge.     (* [getCacheKey(row)], then [deleteCache(key)] *)

(** One turn of the goroutine's loop, at the instant [now]. *)
Definition async_step (kind : AsyncKind) (now : Z) (row : Row) (t : Table)
  : Table :=
  match getCacheKey t [VMap row] with
  | Ok key =>
      match kind with
      | Populate => (setCache t now key row).2
      | Purge => deleteCache t key
      end
  | Err _ => t
  end.

(** The goroutine runs one turn per instant of [instants], as long as it
    has rows: the table it leaves and the rows it has not reached. *)
Fixpoint run_async (kind : AsyncKind) (instants : list Z) (rows : list Row)
    (t : Table) : Table * list Row :=
  match instants, rows with
  | now :: instants', row :: rows' =>
      run_async kind instants' rows' (async_step kind now row t)
  | _, _ => (t, rows)
  end.

(** *** The operations *)

(** [t.FetchOne(whereArgs...)]; the cache is read at the instant [tget] and
    written at the instant [tset].  [None] when the call panics. *)
Definition FetchOne (t : Table) (ds : DataStore) (tget tset : Z)
    (whereArgs : list GoValue) : option (Outcome Row) :=
  let '(hit, t1) :=
    if Cached t then
      match getCacheKey t whereArgs with
      | Ok key =>
          let '(found, _, cachedResult, t') := getCacheValue t tget key in
          if found then (cachedResult, t') else (None, t')
      | Err _ => (None, t)
      end
    else (None, t) in
  match hit with
  | Some cachedResult => Some (mkOutcome (Ok cachedResult) t1 [] [])
  | None =>
      match buildWhereClause whereArgs 1 with
      | None => None
      | Some (where_clause, params, _) =>
          let selectSQL := selectOneSQL t where_clause in
          match acquire ds with
          | Some err =>
              Some (mkOutcome (Err ("failed to acquire connection: " +:+ err))
                              t1 [EvAcquire] [])
          | None =>
              let evs := [EvAcquire; EvQuery selectSQL params] in
              match query ds selectSQL params with
              | QueryError err =>
                  Some (mkOutcome (Err ("failed to execute fetch one: " +:+ err))
                                  t1 evs [])
              | QueryRows [] => Some (mkOutcome (Err "no rows found") t1 evs [])
              | QueryRows (RowErr err :: _) =>
                  Some (mkOutcome
                          (Err ("failed to fetch row: "
                                +:+ "failed to read returned values: " +:+ err))
                          t1 evs [])
              | QueryRows (RowOk result :: _) =>
                  let t2 :=
                    if Cached t1 then
                      match getCacheKey t1 [VMap result] with
                      | Ok key => (setCache t1 tset key result).2
                      | Err _ => t1
                      end
                    else t1 in
                  Some (mkOutcome (Ok result) t2 evs [])
              end
          end
      end
  end.

(** [t.FetchMany(whereArgs...)].  The goroutine it starts has done nothing
    when the call returns, or is treated so: the rows are all pending. *)
Definition FetchMany (t : Table) (ds : DataStore) (whereArgs : list GoValue)
  : option (Outcome (list Row)) :=
  match buildWhereClause whereArgs 1 with
  | None => None
  | Some (where_clause, params, _) =>
      let sql := selectSQL t where_clause in
      match acquire ds with
      | Some err =>
          Some (mkOutcome (Err ("failed to acquire connection: " +:+ err))
                          t [EvAcquire] [])
      | None =>
          let evs := [EvAcquire; EvQuery sql params] in
          match query ds sql params with
          | QueryError err =>
              Some (mkOutcome (Err ("failed to execute fetch many: " +:+ err))
                              t evs [])
          | QueryRows rows =>
              match fetchRowsResult rows with
              | Err msg =>
                  Some (mkOutcome (Err ("failed to fetch rows: " +:+ msg)) t evs [])
              | Ok results =>
                  Some (mkOutcome (Ok results) t evs
                                  (if Cached t then results else []))
              end
          end
      end
  end.

(** [t.Insert(data)]. *)
Definition Insert (t : Table) (ds : DataStore) (data : Row)
  : option (Outcome Row) :=
  let entries := valid_entries t data in
  match entries with
  | [] => Some (mkOutcome (Err "no valid columns provided for insert") t [] [])
  | _ =>
      let sql := insertSQL t entries in
      let args := snd <$> entries in
      match acquire ds with
      | Some err =>
          Some (mkOutcome (Err ("failed to acquire connection: " +:+ err))
                          t [EvAcquire] [])
      | None =>
          let evs := [EvAcquire; EvQuery sql args] in
          match query ds sql args with
          | QueryError err =>
              Some (mkOutcome
                      (Err ("failed to execute insert with returning: " +:+ err))
                      t evs [])
          | QueryRows [] => Some (mkOutcome (Err "no rows returned") t evs [])
          | QueryRows (RowErr err :: _) =>
              Some (mkOutcome
                      (Err ("failed to fetch returned row: "
                            +:+ "failed to read returned values: " +:+ err))
                      t evs [])
          | QueryRows (RowOk result :: _) =>
              Some (mkOutcome (Ok result) t evs
                              (if Cached t then [result] else []))
          end
      end
  end.

(** The part of [Update] and [Delete] after the statement is built: the
    query, the goroutine, the invalidation.  [before] holds the instants of
    the turns the goroutine completes before [invalidateCache] takes the
    mutex of the cache. *)
Definition write_through (t : Table) (ds : DataStore) (kind : AsyncKind)
    (before : list Z) (sql : string) (args : list GoValue) (what : string)
  : Outcome (list Row) :=
  match acquire ds with
  | Some err =>
      mkOutcome (Err ("failed to acquire connection: " +:+ err)) t [EvAcquire] []
  | None =>
      let evs := [EvAcquire; EvQuery sql args] in
      match query ds sql args with
      | QueryError err =>
          mkOutcome (Err ("failed to execute " +:+ what
                          +:+ " with returning: " +:+ err)) t evs []
      | QueryRows rows =>
          match fetchRowsResult rows with
          | Err msg =>
              mkOutcome (Err ("failed to fetch returned rows: " +:+ msg)) t evs []
          | Ok results =>
              let '(t1, rest) :=
                if Cached t then run_async kind before results t
                else (t, []) in
              mkOutcome (Ok results) (invalidateCache t1) evs rest
          end
      end
  end.

(** [t.Update(data, whereArgs...)]. *)
Definition Update (t : Table) (ds : DataStore) (before : list Z) (data : Row)
    (whereArgs : list GoValue) : option (Outcome (list Row)) :=
  match data with
  | [] => Some (mkOutcome (Err "no data to update") t [] [])
  | _ =>
      let '(setParts, args, argIndex) := set_parts t data 1 in
      match setParts with
      | [] =>
          Some (mkOutcome (Err "no valid columns provided for update") t [] [])
      | _ =>
          match buildWhereClause whereArgs argIndex with
          | None => None
          | Some (whereClause, whereArgsList, _) =>
              Some (write_through t ds Populate before
                      (updateSQL t setParts whereClause)
                      (args ++ whereArgsList) "update")
          end
      end
  end.

(** [t.Delete(whereArgs...)]. *)
Definition Delete (t : Table) (ds : DataStore) (before : list Z)
    (whereArgs : list GoValue) : option (Outcome (list Row)) :=
  match buildWhereClause whereArgs 1 with
  | None => None
  | Some (whereClause, whereArgsList, _) =>
      Some (write_through t ds Purge before (deleteSQL t whereClause)
                          whereArgsList "delete")
  end.

(** *** Vocabulary of the properties of [FetchOne] *)




End cache_orchestration.

(** *** Vocabulary of the properties *)


(** The entries of the cache of a table; none when it has no cache. *)
Definition cache_entries (t : Table) : gmap string CacheItem :=
  match CacheData t with
  | Some c => items c
  | None => ∅
  end.

(** The pairs of [whereArgs], by position: the arguments at even positions
    with the arguments that follow them. *)
Fixpoint pairs_of (whereArgs : list GoValue) : list (GoValue * GoValue) :=
  match whereArgs with
  | k :: v :: whereArgs' => (k, v) :: pairs_of whereArgs'
  | _ => []
  end.

(** Key resolution in the words of the specification: the value the first
    map argument that has the key field holds under it; failing that, the
    value paired with the first field name, at an even position, that is a
    string equal to the key field. *)
Definition resolve_in_maps (keyField : string) (whereArgs : list GoValue)
  : option GoValue :=
  head (omap (λ arg, match arg with
                     | VMap m => map_lookup keyField m
                     | _ => None
                     end) whereArgs).

Definition resolve_in_pairs (keyField : string) (whereArgs : list GoValue)
  : option GoValue :=
  head (omap (λ kv : GoValue * GoValue,
                match kv.1 with
                | VStr field => if decide (field = keyField) then Some kv.2 else None
                | _ => None
                end) (pairs_of whereArgs)).

Definition resolve_key (keyField : string) (whereArgs : list GoValue)
  : option GoValue :=
  match resolve_in_maps keyField whereArgs with
  | Some v => Some v
  | None => resolve_in_pairs keyField whereArgs
  end.

End Tables.

(** ** Stand-ins for the library calls, for the examples *)

Module Examples.

Import MemCache Conditions Tables.

(** The [%v] text of nil and of the scalars; the examples format no other
    value. *)
Definition format_scalar (v : GoValue) : string :=
  match v with
  | VNil => "<nil>"
  | VBool b => if b then "true" else "false"
  | VInt n => itoa n
  | VStr s => s
  | _ => "?"
  end.

(** A small reversible encoding of rows of scalars, in the place of JSON:
    the fields [name=value] separated by semicolons. *)
Definition encode_row (row : Row) : result (list Byte.byte) :=
  Ok (String.list_byte_of_string
        (Join ((λ e, e.1 +:+ "=" +:+ format_scalar e.2) <$> row) ";")).

Fixpoint split_all (sep : ascii) (s : string) : list string :=
  match s with
  | EmptyString => [EmptyString]
  | String a s' =>
      if Ascii.eqb a sep then EmptyString :: split_all sep s'
      else match split_all sep s' with
           | h :: tl => String a h :: tl
           | [] => [String a EmptyString]
           end
  end.

Fixpoint split_first (sep : ascii) (s : string) : option (string * string) :=
  match s with
  | EmptyString => None
  | String a s' =>
      if Ascii.eqb a sep then Some (EmptyString, s')
      else match split_first sep s' with
           | Some (l, r) => Some (String a l, r)
           | None => None
           end
  end.

Definition decode_value (s : string) : GoValue :=
  match NilZero.int_of_string s with
  | Some i => VInt (Z.of_int i)
  | None => VStr s
  end.

Fixpoint decode_fields (fields : list string) : result Row :=
  match fields with
  | [] => Ok []
  | f :: fields' =>
      match split_first "=" f, decode_fields fields' with
      | Some (k, v), Ok row => Ok ((k, decode_value v) :: row)
      | None, _ => Err "invalid character"
      | _, Err msg => Err msg
      end
  end.

Definition decode_row (data : list Byte.byte) : result Row :=
  match String.string_of_list_byte data with
  | EmptyString => Ok []
  | s => decode_fields (split_all ";" s)
  end.

Definition text_column : ColumnDef :=
  {| Tables.Type_ := "TEXT"; Length := None; Precision := None; Scale := None;
     isNotNull := true; isUnique := false; isPrimaryKey := false;
     Default := None; Check_ := None |}.

Definition serial_key : ColumnDef :=
  {| Tables.Type_ := "SERIAL"; Length := None; Precision := None;
     Scale := None; isNotNull := false; isUnique := false;
     isPrimaryKey := true; Default := None; Check_ := None |}.

Definition integer_column : ColumnDef :=
  {| Tables.Type_ := "INTEGER"; Length := None; Precision := None;
     Scale := None; isNotNull := false; isUnique := false;
     isPrimaryKey := false; Default := None; Check_ := None |}.

(** The table of the README, before and after [EnableCache(5 * time.Second)]. *)
Definition users0 : Table :=
  {| Name := "users";
     Columns := [ {| ColumnName := "id"; DataType := serial_key |};
                  {| ColumnName := "name"; DataType := text_column |};
                  {| ColumnName := "age"; DataType := integer_column |} ];
     Cached := false; CacheTTL := 0; CacheKey := "id"; CacheMax := 0;
     CacheData := None; DebugMode := false |}.

Definition users : Table := EnableCache users0 5000000000.

Definition alice (age : Z) : Row :=
  [("id", VInt 1); ("name", VStr "Alice"); ("age", VInt age)].

(** A data store that holds Alice, at the given age, and answers every
    statement with her row. *)
Definition store (age : Z) : DataStore :=
  {| acquire := None; query := λ _ _, QueryRows [RowOk (alice age)] |}.





End Examples.

(** ** TableCache.go *)

Module TableCache.

Import MemCache Tables.

(** [t.clearCache()]. *)
Definition clearCache (t : Table) : Table :=
  match Cached t, CacheData t with
  | true, Some c => with_CacheData t (Some (Clear c))
  | _, _ => t
  end.

End TableCache.

(** ** Identifiers (part_003) *)

Module Identifiers.

Import Conditions.

(** The classes of the regular expression [^[a-zA-Z_][a-zA-Z0-9_]*$]. *)
Definition ident_start (a : ascii) : bool :=
  ((97 <=? nat_of_ascii a) && (nat_of_ascii a <=? 122))
  || ((65 <=? nat_of_ascii a) && (nat_of_ascii a <=? 90))
  || (nat_of_ascii a =? 95).

Definition ident_char (a : ascii) : bool := ident_start a || is_digit a.

Fixpoint all_chars (P : ascii → bool) (s : string) : bool :=
  match s with
  | EmptyString => true
  | String a s' => P a && all_chars P s'
  end.

(** [isValidIdentifier(s)]; [len(s)] counts bytes, as [String.length]. *)
Definition isValidIdentifier (s : string) : bool :=
  if (String.length s =? 0) || (63 <? String.length s) then false
  else match s with
       | EmptyString => false
       | String a s' => ident_start a && all_chars ident_char s'
       end.

(** [validateMapKeys(data)]: the error, for the first key in the order of
    [range] that is not valid. *)
Fixpoint validateMapKeys (data : Row) : option string :=
  match data with
  | [] => None
  | (key, _) :: data' =>
      if negb (isValidIdentifier key)
      then Some ("invalid column name/identifier: '" +:+ key +:+ "'")
      else validateMapKeys data'
  end.

(** *** Vocabulary of the properties *)

(** What a lexer of SQL reads after the opening double quote of a quoted
    identifier: the identifier, a doubled quote standing for one, up to the
    closing quote, which must end the text. *)
Fixpoint quoted_body (s : string) : option string :=
  match s with
  | EmptyString => None
  | String a s' =>
      if decide (a = dquote) then
        match s' with
        | EmptyString => Some EmptyString
        | String b s'' =>
            if decide (b = dquote) then String dquote <$> quoted_body s''
            else None
        end
      else String a <$> quoted_body s'
  end.

(** The identifier a text denotes when it is one quoted identifier. *)
Definition lex_quoted (s : string) : option string :=
  match s with
  | String a s' => if decide (a = dquote) then quoted_body s' else None
  | EmptyString => None
  end.

End Identifiers.

(** ** The other operations: part_006, TableInsert.go, part_004, DataType.go *)

Module Operations.

Import MemCache Conditions Tables.

(** *** [GetPage] and [FetchAll] (part_006) *)

(** The statement of [GetPage]. *)
Definition getPageSQL (t : Table) (whereClause orderBy order : string)
    (limit offset : Z) : string :=
  "SELECT * FROM " +:+ Name t +:+ whereClause +:+ " ORDER BY " +:+ orderBy
    +:+ " " +:+ order +:+ " LIMIT " +:+ itoa limit +:+ " OFFSET "
    +:+ itoa offset.

(** The part [FetchMany], [GetPage] and [FetchAll] share once the statement
    is built: the query, the rows, and the rows left to the goroutine. *)
Definition read_rows (t : Table) (ds : DataStore) (sql : string)
    (params : list GoValue) (what : string) : Outcome (list Row) :=
  match acquire ds with
  | Some err =>
      mkOutcome (Err ("failed to acquire connection: " +:+ err)) t [EvAcquire] []
  | None =>
      let evs := [EvAcquire; EvQuery sql params] in
      match query ds sql params with
      | QueryError err =>
          mkOutcome (Err ("failed to execute " +:+ what +:+ ": " +:+ err))
                    t evs []
      | QueryRows rows =>
          match fetchRowsResult rows with
          | Err msg => mkOutcome (Err ("failed to fetch rows: " +:+ msg)) t evs []
          | Ok results =>
              mkOutcome (Ok results) t evs (if Cached t then results else [])
          end
      end
  end.

(** [t.GetPage(page, limit, orderBy, order, whereArgs...)]. *)
Definition GetPage (t : Table) (ds : DataStore) (page limit : Z)
    (orderBy order : string) (whereArgs : list GoValue)
  : option (Outcome (list Row)) :=
  let page := if bool_decide (page ≤ 0)%Z then 1%Z else page in
  let limit := if bool_decide (limit ≤ 0)%Z then 10%Z else limit in
  let orderBy := if decide (orderBy = EmptyString) then "id" else orderBy in
  let order := if decide (order = EmptyString) then "DESC" else order in
  let offset := wrap64 (wrap64 (page - 1) * limit) in
  match buildWhereClause whereArgs 1 with
  | None => None
  | Some (whereClause, params, _) =>
      Some (read_rows t ds
              (getPageSQL t whereClause orderBy order limit offset)
              params "GetPage")
  end.

(** [t.FetchAll()]. *)
Definition FetchAll (t : Table) (ds : DataStore) : Outcome (list Row) :=
  read_rows t ds ("SELECT * FROM " +:+ Name t) [] "get all".

(** *** [InsertMany] (TableInsert.go) *)

(** [data[colName]]: the nil interface when the key is missing. *)
Definition map_index (data : Row) (colName : string) : GoValue :=
  default VNil (map_lookup colName data).

(** The inner loop of [InsertMany], over the columns, for one row. *)
Fixpoint row_placeholders (rawColumns : list string) (data : Row)
    (argIndex : Z) : list string * list GoValue * Z :=
  match rawColumns with
  | [] => ([], [], argIndex)
  | colName :: rawColumns' =>
      let '(placeholders, args, argIndex') :=
        row_placeholders rawColumns' data (wrap64 (argIndex + 1)) in
      (("$" +:+ itoa argIndex) :: placeholders,
       map_index data colName :: args, argIndex')
  end.

(** The outer loop of [InsertMany], over the rows. *)
Fixpoint value_placeholders (rawColumns : list string) (dataList : list Row)
    (argIndex : Z) : list string * list GoValue * Z :=
  match dataList with
  | [] => ([], [], argIndex)
  | data :: dataList' =>
      let '(placeholders, args1, argIndex') :=
        row_placeholders rawColumns data argIndex in
      let '(valuePlaceholders, args, argIndex'') :=
        value_placeholders rawColumns dataList' argIndex' in
      (("(" +:+ Join placeholders ", " +:+ ")") :: valuePlaceholders,
       args1 ++ args, argIndex'')
  end.

(** The statement of [InsertMany]. *)
Definition insertManySQL (t : Table) (rawColumns : list string)
    (valuePlaceholders : list string) : string :=
  "INSERT INTO " +:+ Name t +:+ " (" +:+ Join (QuoteIdentifier <$> rawColumns) ", "
    +:+ ") VALUES " +:+ Join valuePlaceholders ", " +:+ " RETURNING *".

(** [t.InsertMany(dataList)]. *)
Definition InsertMany (t : Table) (ds : DataStore) (dataList : list Row)
  : Outcome (list Row) :=
  match dataList with
  | [] => mkOutcome (Err "no data provided to insert") t [] []
  | first :: _ =>
      let rawColumns := (valid_entries t first).*1 in
      match rawColumns with
      | [] =>
          mkOutcome
            (Err "no valid columns found in the first row of dataList") t [] []
      | _ =>
          let '(valuePlaceholders, args, _) :=
            value_placeholders rawColumns dataList 1 in
          let sql := insertManySQL t rawColumns valuePlaceholders in
          match acquire ds with
          | Some err =>
              mkOutcome (Err ("failed to acquire connection: " +:+ err))
                        t [EvAcquire] []
          | None =>
              let evs := [EvAcquire; EvQuery sql args] in
              match query ds sql args with
              | QueryError err =>
                  mkOutcome
                    (Err ("failed to execute insert many with returning: "
                          +:+ err)) t evs []
              | QueryRows rows =>
                  match fetchRowsResult rows with
                  | Err msg =>
                      mkOutcome (Err ("failed to fetch returned rows: " +:+ msg))
                                t evs []
                  | Ok [] => mkOutcome (Err "no rows returned") t evs []
                  | Ok results =>
                      mkOutcome (Ok results) t evs
                                (if Cached t then results else [])
                  end
              end
          end
      end
  end.

(** *** The builders of [ColumnDef] (DataType.go) *)

(** [cd.NotNull()], [cd.Unique()], [cd.PrimaryKey()] and
    [cd.CheckConstraint(constraint)]: the definition the receiver holds
    afterwards. *)
Definition NotNull (cd : ColumnDef) : ColumnDef :=
  {| Tables.Type_ := Tables.Type_ cd; Length := Length cd;
     Precision := Precision cd; Scale := Scale cd; isNotNull := true;
     isUnique := isUnique cd; isPrimaryKey := isPrimaryKey cd;
     Default := Default cd; Check_ := Check_ cd |}.

Definition Unique (cd : ColumnDef) : ColumnDef :=
  {| Tables.Type_ := Tables.Type_ cd; Length := Length cd;
     Precision := Precision cd; Scale := Scale cd; isNotNull := isNotNull cd;
     isUnique := true; isPrimaryKey := isPrimaryKey cd;
     Default := Default cd; Check_ := Check_ cd |}.

Definition PrimaryKey (cd : ColumnDef) : ColumnDef :=
  {| Tables.Type_ := Tables.Type_ cd; Length := Length cd;
     Precision := Precision cd; Scale := Scale cd; isNotNull := isNotNull cd;
     isUnique := isUnique cd; isPrimaryKey := true;
     Default := Default cd; Check_ := Check_ cd |}.

Definition CheckConstraint (cd : ColumnDef) (constraint : string) : ColumnDef :=
  {| Tables.Type_ := Tables.Type_ cd; Length := Length cd;
     Precision := Precision cd; Scale := Scale cd; isNotNull := isNotNull cd;
     isUnique := isUnique cd; isPrimaryKey := isPrimaryKey cd;
     Default := Default cd; Check_ := Some constraint |}.

(** The factories: a type name, with a length, with a precision and a scale,
    or alone ([Varchar], [Char], [Bit], [Varbit]; [Decimal], [Numeric]; all
    the others). *)
Definition sized_type (name : string) (length : Z) : ColumnDef :=
  {| Tables.Type_ := name; Length := Some length; Precision := None;
     Scale := None; isNotNull := false; isUnique := false;
     isPrimaryKey := false; Default := None; Check_ := None |}.

Definition scaled_type (name : string) (precision scale : Z) : ColumnDef :=
  {| Tables.Type_ := name; Length := None; Precision := Some precision;
     Scale := Some scale; isNotNull := false; isUnique := false;
     isPrimaryKey := false; Default := None; Check_ := None |}.

Definition plain_type (name : string) : ColumnDef :=
  {| Tables.Type_ := name; Length := None; Precision := None; Scale := None;
     isNotNull := false; isUnique := false; isPrimaryKey := false;
     Default := None; Check_ := None |}.

(** *** The schema of a table (part_004) *)

(** [strings.Contains(s, substr)]. *)
Fixpoint Contains (s substr : string) : bool :=
  String.prefix substr s
  || match s with
     | EmptyString => false
     | String _ s' => Contains s' substr
     end.

(** [t.isDefinedColumnUnique(column)]. *)
Definition isDefinedColumnUnique (t : Table) (column : Column) : bool :=
  existsb (λ col, bool_decide (ColumnName col = ColumnName column)
                  && Contains (ColumnDef_String (DataType col)) "UNIQUE")
          (Columns t).

(** [t.getDefinedColumnNames()]. *)
Definition getDefinedColumnNames (t : Table) : list string :=
  ColumnName <$> Columns t.

(** [t.columnExists(column, db_columns)]. *)
Definition columnExists (column : Column) (db_columns : list string) : bool :=
  existsb (λ col, bool_decide (col = ColumnName column)) db_columns.

(** [t.columnNotExists(column, db_columns)]: the name of a column of the
    database against the columns of the table. *)
Definition columnNotExists (column : string) (db_columns : list Column) : bool :=
  negb (existsb (λ col, bool_decide (ColumnName col = column)) db_columns).

(** What the data store answers to one statement of a schema operation: no
    connection could be acquired for it, it failed, or it succeeded. *)
Inductive ExecOutcome :=
| NoConnection
| ExecFails (err : string)
| ExecOk.

Definition with_Columns (t : Table) (columns : list Column) : Table :=
  {| Name := Name t; Columns := columns; Cached := Cached t;
     CacheTTL := CacheTTL t; CacheKey := CacheKey t; CacheMax := CacheMax t;
     CacheData := CacheData t; DebugMode := DebugMode t |}.

(** [column.DataType == (ColumnDef{})]. *)
Definition is_zero_ColumnDef (cd : ColumnDef) : bool :=
  bool_decide (Tables.Type_ cd = EmptyString)
  && bool_decide (Length cd = None) && bool_decide (Precision cd = None)
  && bool_decide (Scale cd = None) && negb (isNotNull cd)
  && negb (isUnique cd) && negb (isPrimaryKey cd)
  && bool_decide (Default cd = None) && bool_decide (Check_ cd = None).

(** The statement of [addColumn]. *)
Definition addColumnSQL (t : Table) (column : Column) : string :=
  let columnType :=
    if is_zero_ColumnDef (DataType column) then "TEXT"
    else ColumnDef_String (DataType column) in
  "ALTER TABLE " +:+ QuoteIdentifier (Name t) +:+ " ADD COLUMN "
    +:+ QuoteIdentifier (ColumnName column) +:+ " " +:+ columnType.

(** The statement of [removeColumn]. *)
Definition removeColumnSQL (t : Table) (column : string) : string :=
  "ALTER TABLE " +:+ QuoteIdentifier (Name t) +:+ " DROP COLUMN "
    +:+ QuoteIdentifier column.

(** [t.addColumn(column)], the data store answering [answer]: whether the
    column was added, the table, and the statements sent. *)
Definition addColumn (t : Table) (answer : ExecOutcome) (column : Column)
  : bool * Table * list string :=
  match answer with
  | NoConnection => (false, t, [])
  | ExecFails _ => (false, t, [addColumnSQL t column])
  | ExecOk =>
      (true, with_Columns t (Columns t ++ [column]), [addColumnSQL t column])
  end.

(** [t.removeColumn(column)]. *)
Definition removeColumn (t : Table) (answer : ExecOutcome) (column : string)
  : bool * list string :=
  match answer with
  | NoConnection => (false, [])
  | ExecFails _ => (false, [removeColumnSQL t column])
  | ExecOk => (true, [removeColumnSQL t column])
  end.

(** The loop of [createCurrentColumn] over the columns the table had when
    the loop began; [answers] gives the answers of the data store to the
    successive calls of [addColumn], from the [i]-th on. *)
Fixpoint add_missing (columns : list Column) (db_columns : list string)
    (answers : nat → ExecOutcome) (i : nat) (t : Table)
  : Table * list string :=
  match columns with
  | [] => (t, [])
  | col :: columns' =>
      if negb (columnExists col db_columns) then
        let '(_, t', sent) :=
          addColumn t (answers i)
                    {| ColumnName := ColumnName col; DataType := DataType col |} in
        let '(t'', sent') := add_missing columns' db_columns answers (S i) t' in
        (t'', sent ++ sent')
      else add_missing columns' db_columns answers i t
  end.

(** [t.createCurrentColumn()], [db] being what its call of
    [GetColumnsFromDB] returns: the two results, the table and the statements
    sent after that call, by [addColumn]. *)
Definition createCurrentColumn (t : Table) (db : result (list string))
    (answers : nat → ExecOutcome)
  : bool * option string * Table * list string :=
  match db with
  | Err err => (false, Some err, t, [])
  | Ok db_columns =>
      let '(t', sent) := add_missing (Columns t) db_columns answers 0 t in
      (true, None, t', sent)
  end.

(** The loop of [deleteNonExistingColumnsFromDB]. *)
Fixpoint drop_unknown (t : Table) (db_columns : list string)
    (answers : nat → ExecOutcome) (i : nat) : list string :=
  match db_columns with
  | [] => []
  | col :: db_columns' =>
      if columnNotExists col (Columns t) then
        (removeColumn t (answers i) col).2
          ++ drop_unknown t db_columns' answers (S i)
      else drop_unknown t db_columns' answers i
  end.

(** [t.deleteNonExistingColumnsFromDB()], [db] being what its call of
    [GetColumnsFromDB] returns: the two results and the statements sent after
    that call, by [removeColumn]. *)
Definition deleteNonExistingColumnsFromDB (t : Table)
    (db : result (list string)) (answers : nat → ExecOutcome)
  : bool * option string * list string :=
  match db with
  | Err err => (false, Some err, [])
  | Ok db_columns => (true, None, drop_unknown t db_columns answers 0)
  end.

(** The statement of [GetColumnsFromDB]; its one parameter is the name of
    the table. *)
Definition columnsQuery : string :=
  "SELECT column_name  FROM information_schema.columns WHERE table_name = $1".

(** What the data store answers to [GetColumnsFromDB]: no connection, a
    query that fails, a row that does not scan, or the column names read. *)
Inductive ColumnsAnswer :=
| ColumnsNoConnection (err : string)
| ColumnsQueryFails (err : string)
| ColumnsScanFails (err : string)
| ColumnsRead (columns : list string).

(** [t.GetColumnsFromDB()]: what it returns and the statements it sends. *)
Definition GetColumnsFromDB (t : Table) (answer : ColumnsAnswer)
  : result (list string) * list string :=
  match answer with
  | ColumnsNoConnection err => (Err err, [])
  | ColumnsQueryFails err => (Err err, [columnsQuery])
  | ColumnsScanFails err => (Err err, [columnsQuery])
  | ColumnsRead columns => (Ok columns, [columnsQuery])
  end.

(** [t.CreateTable()]: the error, the table and the statements sent, in
    order.  [connection] is the error of [GetConnection], [created] the error
    of the CREATE TABLE statement; [columns1] and [answers1] are the answers
    of the data store to [createCurrentColumn], first to its call of
    [GetColumnsFromDB], then to its calls of [addColumn]; [columns2] and
    [answers2] those to [deleteNonExistingColumnsFromDB]. *)
Definition CreateTable (t : Table) (connection created : option string)
    (columns1 : ColumnsAnswer) (answers1 : nat → ExecOutcome)
    (columns2 : ColumnsAnswer) (answers2 : nat → ExecOutcome)
  : option string * Table * list string :=
  match connection with
  | Some err => (Some err, t, [])
  | None =>
      match created with
      | Some err =>
          (Some ("failed to create table: " +:+ err), t, [createTableSQL t])
      | None =>
          let '(db1, asked1) := GetColumnsFromDB t columns1 in
          let '(_, _, t', sent1) := createCurrentColumn t db1 answers1 in
          let '(db2, asked2) := GetColumnsFromDB t' columns2 in
          let '(_, _, sent2) :=
            deleteNonExistingColumnsFromDB t' db2 answers2 in
          (None, t', createTableSQL t :: asked1 ++ sent1 ++ asked2 ++ sent2)
      end
  end.

(** [t.DropTable()]. *)
Definition DropTable (t : Table) (connection dropped : option string)
  : option string * list string :=
  match connection with
  | Some err => (Some err, [])
  | None => (dropped, [dropTableSQL t])
  end.

(** *** Vocabulary of the properties *)

(** A text that does not begin with a digit. *)
Definition no_leading_digit (s : string) : bool :=
  match s with
  | EmptyString => true
  | String a _ => negb (is_digit a)
  end.

(** A value of a where-map whose condition, if it is one, has the [Values]
    its [Type] reads. *)
Definition value_ok (v : GoValue) : bool :=
  match v with
  | VCond type values =>
      values_read {| Conditions.Type_ := type; Values := values |}
        <=? length values
  | _ => true
  end.

(** The number of parameters a value of a where-map binds. *)
Definition value_parameters (v : GoValue) : nat :=
  match v with
  | VCond type values =>
      parameters {| Conditions.Type_ := type; Values := values |}
  | _ => 1
  end.

(** A where-argument that is a map with keys free of dollar signs and
    conditions with the values they read, or a fragment free of dollar
    signs. *)
Definition where_arg_ok (arg : GoValue) : bool :=
  match arg with
  | VMap entries =>
      forallb (λ e, dollar_free e.1 && value_ok e.2) entries
  | VStr fragment => dollar_free fragment
  | _ => false
  end.

(** The number of parameters the where-arguments bind. *)
Definition where_parameters (whereArgs : list GoValue) : nat :=
  sum_list ((λ arg, match arg with
                    | VMap entries => sum_list (value_parameters <$> entries.*2)
                    | _ => 0
                    end) <$> whereArgs).

(** The columns of the table have names free of dollar signs, and so has
    the table. *)
Definition names_dollar_free (t : Table) : bool :=
  dollar_free (Name t) && forallb (λ col, dollar_free (ColumnName col)) (Columns t).

(** A where-argument whose conditions, when it is a map, have the values
    their types read. *)
Definition where_values_ok (arg : GoValue) : bool :=
  match arg with
  | VMap entries => forallb (λ e, value_ok e.2) entries
  | _ => true
  end.

(** A where-argument that is neither a map nor a text. *)
Definition is_positional (arg : GoValue) : bool :=
  match arg with
  | VMap _ | VStr _ => false
  | _ => true
  end.

(** The positional values among the where-arguments, in order. *)
Definition positional (whereArgs : list GoValue) : list GoValue :=
  filter (λ arg, is_positional arg) whereArgs.


(** The columns among [columns] that the database, with the columns
    [db_columns], does not have. *)
Definition missing_columns (columns : list Column) (db_columns : list string)
  : list Column :=
  filter (λ col, negb (columnExists col db_columns)) columns.

End Operations.

(** * Properties *)

(** ** Machine integers *)

Lemma wrap64_id z : in_int64 z → wrap64 z = z.
Proof.
  unfold in_int64, min_int64, max_int64, wrap64. intros Hz.
  rewrite Z.mod_small; lia.
Qed.

Lemma wrap64_range z : in_int64 (wrap64 z).
Proof.
  unfold in_int64, min_int64, max_int64, wrap64.
  pose proof (Z.mod_pos_bound (z + 2 ^ 63) (2 ^ 64)). lia.
Qed.


(** ** The eviction cache *)

Import MemCache.

Section cache_structure.

Implicit Types (c : MemoryCache) (l : list string) (k e key : string).

Lemma elem_of_Remove l e k : k ∈ Remove e l ↔ k ∈ l ∧ k ≠ e.
Proof. unfold Remove. rewrite list_elem_of_filter. tauto. Qed.

Lemma NoDup_Remove l e : NoDup l → NoDup (Remove e l).
Proof. apply NoDup_filter. Qed.

Lemma Remove_not_elem l e : e ∉ l → Remove e l = l.
Proof.
  unfold Remove. induction l as [|x l IH]; [done|].
  rewrite not_elem_of_cons. intros [Hne Hl].
  rewrite filter_cons_True by done. by rewrite IH.
Qed.

Lemma length_Remove l e :
  NoDup l → e ∈ l → S (length (Remove e l)) = length l.
Proof.
  unfold Remove. intros Hnd. induction l as [|x l IH]; [by rewrite elem_of_nil|].
  apply NoDup_cons in Hnd as [Hx Hl]. rewrite elem_of_cons. intros [->|He].
  - rewrite filter_cons_False by naive_solver.
    fold (Remove x l). by rewrite Remove_not_elem.
  - rewrite filter_cons_True by (intros ->; done). simpl. by rewrite IH.
Qed.

Lemma elem_of_MoveToFront l e k : k ∈ MoveToFront e l ↔ k ∈ l.
Proof.
  unfold MoveToFront. case_decide; [|done].
  rewrite elem_of_cons, elem_of_Remove.
  destruct (decide (k = e)) as [->|]; naive_solver.
Qed.

Lemma NoDup_MoveToFront l e : NoDup l → NoDup (MoveToFront e l).
Proof.
  unfold MoveToFront. intros Hl. case_decide; [|done].
  apply NoDup_cons. split; [|by apply NoDup_Remove].
  rewrite elem_of_Remove. naive_solver.
Qed.

Lemma length_MoveToFront l e : NoDup l → length (MoveToFront e l) = length l.
Proof.
  unfold MoveToFront. intros Hl. case_decide; [|done].
  simpl. by apply length_Remove.
Qed.

Lemma WF_New m : WF (NewMemoryCache m).
Proof.
  split_and!; simpl.
  - constructor.
  - intros k. rewrite elem_of_nil, lookup_empty. split; [done|by intros [? ?]].
  - intros k it. by rewrite lookup_empty.
Qed.

Lemma WF_Clear c : WF (Clear c).
Proof. apply (WF_New (maxSize c)). Qed.

Lemma WF_removeElement c e kv :
  WF c → items c !! e = Some kv → WF (removeElement e kv c).
Proof.
  intros (Hnd & Hdom & Hkey) He. unfold removeElement.
  rewrite (Hkey _ _ He). split_and!; simpl.
  - by apply NoDup_Remove.
  - intros k. rewrite elem_of_Remove, Hdom, lookup_delete.
    case_decide; subst; split; naive_solver.
  - intros k it. rewrite lookup_delete. case_decide; [done|]. apply Hkey.
Qed.

Lemma WF_touch c key it :
  WF c → is_Some (items c !! key) → Key it = key →
  WF {| items := <[key := it]> (items c);
        evictList := MoveToFront key (evictList c);
        maxSize := maxSize c |}.
Proof.
  intros (Hnd & Hdom & Hkey) He Hit. split_and!; simpl.
  - by apply NoDup_MoveToFront.
  - intros k. rewrite elem_of_MoveToFront, Hdom, lookup_insert.
    case_decide; subst; naive_solver.
  - intros k it'. rewrite lookup_insert. case_decide; [naive_solver|apply Hkey].
Qed.

Lemma WF_push c key it :
  WF c → items c !! key = None → Key it = key →
  WF {| items := <[key := it]> (items c);
        evictList := PushFront key (evictList c);
        maxSize := maxSize c |}.
Proof.
  intros (Hnd & Hdom & Hkey) He Hit. split_and!; simpl.
  - apply NoDup_cons. split; [|done]. rewrite Hdom, He. by intros [? ?].
  - intros k. unfold PushFront. rewrite elem_of_cons, Hdom, lookup_insert.
    case_decide; subst; naive_solver.
  - intros k it'. rewrite lookup_insert. case_decide; [naive_solver|apply Hkey].
Qed.

Lemma WF_removeOldest c : WF c → WF (removeOldest c).
Proof.
  intros Hc. unfold removeOldest.
  destruct (Back (evictList c)) as [e|]; [|done].
  destruct (items c !! e) as [kv|] eqn:He; [|done].
  by apply WF_removeElement.
Qed.

Lemma WF_Set now key value ttl c : WF c → WF (Set_ now key value ttl c).
Proof.
  intros Hc. unfold Set_.
  destruct (items c !! key) as [ent|] eqn:He.
  - apply WF_touch; [done|by rewrite He|].
    destruct Hc as (_ & _ & Hkey). apply (Hkey _ _ He).
  - case_match; [apply WF_removeOldest|]; by apply WF_push.
Qed.

Lemma WF_Get now key c : WF c → WF (Get now key c).2.
Proof.
  intros Hc. unfold Get.
  destruct (items c !! key) as [ent|] eqn:He; [|done].
  case_bool_decide; simpl.
  - by apply WF_removeElement.
  - rewrite <- (insert_id (items c) key ent) at 1 by done.
    apply WF_touch; [done|by rewrite He|].
    destruct Hc as (_ & _ & Hkey). apply (Hkey _ _ He).
Qed.

Lemma WF_Delete key c : WF c → WF (Delete key c).
Proof.
  intros Hc. unfold Delete.
  destruct (items c !! key) as [ent|] eqn:He; [|done].
  by apply WF_removeElement.
Qed.

Lemma WF_step op c : WF c → WF (step op c).
Proof.
  destruct op; simpl; auto using WF_Set, WF_Get, WF_Delete, WF_Clear.
Qed.

Lemma WF_run ops c : WF c → WF (run ops c).
Proof.
  revert c. induction ops as [|op ops IH]; intros c Hc; [done|].
  apply IH. by apply WF_step.
Qed.

(** The map and the list have the same number of entries. *)
Lemma WF_size c : WF c → size (items c) = length (evictList c).
Proof.
  intros (Hnd & Hdom & _).
  rewrite <- size_dom, <- (size_list_to_set (C := gset string)) by done.
  f_equal. apply set_eq. intros k.
  by rewrite elem_of_dom, elem_of_list_to_set, Hdom.
Qed.

End cache_structure.

Section cache_recency.

Implicit Types (c : MemoryCache) (l : list string) (k e key : string).
Implicit Types (f : string → nat) (s : Traced).

(** Order of last touch, on a bare list and stamp function. *)
Let ordered f (clk : nat) l : Prop :=
  StronglySorted (λ a b, f b < f a) l ∧ Forall (λ k, f k < clk) l.

Let stamp f key (clk : nat) : string → nat :=
  λ k', if decide (k' = key) then clk else f k'.

Lemma StronglySorted_Remove (R : relation string) l e :
  StronglySorted R l → StronglySorted R (Remove e l).
Proof.
  unfold Remove. induction l as [|x l IH]; [done|].
  rewrite StronglySorted_cons. intros [Hx Hl].
  destruct (decide (x ≠ e)).
  - rewrite filter_cons_True by done. apply StronglySorted_cons.
    split; [|by apply IH].
    rewrite Forall_forall in Hx |- *. intros y Hy.
    apply list_elem_of_filter in Hy as [_ Hy]. by apply Hx.
  - rewrite filter_cons_False by done. by apply IH.
Qed.

Lemma ordered_Remove f clk l e : ordered f clk l → ordered f clk (Remove e l).
Proof.
  intros [Hs Hf]. split; [by apply StronglySorted_Remove|].
  rewrite Forall_forall in Hf |- *. intros y Hy.
  apply elem_of_Remove in Hy as [Hy _]. by apply Hf.
Qed.

Lemma ordered_later f clk l : ordered f clk l → ordered f (S clk) l.
Proof.
  intros [Hs Hf]. split; [done|].
  eapply Forall_impl; [done|]. simpl. lia.
Qed.

Lemma ordered_touch f clk l key :
  ordered f clk l → ordered (stamp f key clk) (S clk) (key :: Remove key l).
Proof.
  intros Ho. apply (ordered_Remove _ _ _ key) in Ho as [Hs Hf].
  assert (Hne : ∀ y, y ∈ Remove key l → stamp f key clk y = f y).
  { intros y Hy. apply elem_of_Remove in Hy as [_ Hy].
    unfold stamp. by rewrite decide_False. }
  assert (Hkey : stamp f key clk key = clk).
  { unfold stamp. by rewrite decide_True. }
  rewrite Forall_forall in Hf.
  split.
  - apply StronglySorted_cons. split.
    + rewrite Forall_forall. intros y Hy.
      rewrite Hkey, (Hne _ Hy). by apply Hf.
    + clear Hf Hkey. induction Hs as [|x l' Hl' IH Hx]; [constructor|].
      constructor.
      * apply IH. intros y Hy. apply Hne. by right.
      * rewrite Forall_forall in Hx |- *. intros y Hy.
        rewrite (Hne x), (Hne y); [by apply Hx|by right|by left].
  - apply Forall_cons. split; [rewrite Hkey; lia|].
    rewrite Forall_forall. intros y Hy. rewrite (Hne _ Hy).
    specialize (Hf _ Hy). simpl in Hf. lia.
Qed.

(** In a list ordered by last touch the back element is the one touched
    longest ago. *)
Lemma ordered_Back f clk l e k :
  ordered f clk l → Back l = Some e → k ∈ l → k ≠ e → f e < f k.
Proof.
  intros [Hs _] He Hk Hne. apply last_Some in He as [l' ->].
  apply elem_of_app in Hk as [Hk|Hk].
  - apply (StronglySorted_app_1_elem_of _ _ _ _ _ Hs Hk). by left.
  - apply list_elem_of_singleton in Hk. done.
Qed.

Lemma MoveToFront_elem l key : key ∈ l → MoveToFront key l = key :: Remove key l.
Proof. intros. unfold MoveToFront. by rewrite decide_True. Qed.

Lemma recency_tstep op s :
  WF (cache s) → recency_ordered s → recency_ordered (tstep op s).
Proof.
  intros Hwf Ho. destruct Hwf as (Hnd & Hdom & Hkey).
  unfold recency_ordered in *. fold (ordered (touched s) (clock s) (evictList (cache s))) in Ho.
  destruct op as [now key value ttl|now key|key|]; simpl.
  - fold (stamp (touched s) key (clock s)).
    match goal with |- ?A ∧ ?B => change (ordered (stamp (touched s) key (clock s)) (S (clock s)) (evictList (Set_ now key value ttl (cache s)))) end.
    unfold Set_. destruct (items (cache s) !! key) as [ent|] eqn:He; simpl.
    + rewrite MoveToFront_elem by (apply Hdom; by rewrite He).
      by apply ordered_touch.
    + assert (Hfresh : key ∉ evictList (cache s)).
      { rewrite Hdom, He. by intros [? ?]. }
      pose proof (ordered_touch _ _ _ key Ho) as Ht.
      rewrite (Remove_not_elem _ _ Hfresh) in Ht.
      case_match; [|done].
      unfold removeOldest. simpl.
      destruct (Back _) as [e|]; [|done].
      destruct (_ !! e) as [kv|]; [|done]. simpl.
      by apply ordered_Remove.
  - unfold Get. destruct (items (cache s) !! key) as [ent|] eqn:He; simpl.
    + case_bool_decide; simpl.
      * apply ordered_later. by apply (ordered_Remove _ _ _ key) in Ho.
      * rewrite MoveToFront_elem by (apply Hdom; by rewrite He).
        by apply (ordered_touch _ _ _ key) in Ho.
    + by apply ordered_later.
  - unfold Delete. destruct (items (cache s) !! key) as [ent|]; simpl.
    + apply ordered_later. by apply (ordered_Remove _ _ _ key) in Ho.
    + by apply ordered_later.
  - split; constructor.
Qed.

End cache_recency.

Section cache_capacity.

Implicit Types (c : MemoryCache) (l : list string) (k e key : string).

Lemma maxSize_step op c : maxSize (step op c) = maxSize c.
Proof.
  destruct op as [now key value ttl|now key|key|]; simpl; try done.
  - unfold Set_. destruct (items c !! key); [done|].
    case_match; [|done]. unfold removeOldest.
    destruct (Back _); [|done]. by destruct (_ !! _).
  - unfold Get. destruct (items c !! key); [|done]. by case_bool_decide.
  - unfold Delete. by destruct (items c !! key).
Qed.

Lemma Len_Remove_le l e : (Len (Remove e l) ≤ Len l)%Z.
Proof. unfold Len, Remove. pose proof (length_filter (λ x, x ≠ e) l). lia. Qed.

(** What a [Set] of a new key does to a full cache: the element at the back
    of the list goes, and nothing else. *)
Lemma Set_new_full now key value ttl c :
  WF c → items c !! key = None →
  (0 < maxSize c)%Z → (maxSize c < Len (evictList c) + 1)%Z →
  ∃ e, Back (evictList c) = Some e ∧ e ≠ key ∧ is_Some (items c !! e) ∧
    Set_ now key value ttl c =
      {| items := delete e (<[key := {| Key := key; Value := value;
                                        Expiration := wrap64 (now + ttl) |}]>
                             (items c));
         evictList := key :: Remove e (evictList c);
         maxSize := maxSize c |}.
Proof.
  intros (Hnd & Hdom & Hkey) He Hpos Hfull.
  destruct (Back (evictList c)) as [e|] eqn:Hback; last first.
  { apply last_None in Hback. rewrite Hback in Hfull. simpl in Hfull.
    unfold Len in Hfull. simpl in Hfull. lia. }
  exists e. pose proof (last_Some_elem_of _ _ Hback) as Hel.
  pose proof Hel as Hsome. apply Hdom in Hsome.
  assert (Hne : e ≠ key) by (intros ->; rewrite He in Hsome; by destruct Hsome).
  split_and!; try done.
  destruct Hsome as [kv Hkv].
  unfold Set_. rewrite He. simpl.
  rewrite !bool_decide_true; [simpl|unfold Len, PushFront in *; simpl; lia|done].
  unfold removeOldest, Back, PushFront. simpl.
  unfold Back in Hback. rewrite last_cons, Hback.
  rewrite lookup_insert_ne by done. rewrite Hkv.
  unfold removeElement. simpl. rewrite (Hkey _ _ Hkv).
  f_equal. unfold Remove. by rewrite filter_cons_True by done.
Qed.

(** A [Set] of a new key into a cache with room left only adds. *)
Lemma Set_new_room now key value ttl c :
  items c !! key = None → (Len (evictList c) + 1 ≤ maxSize c)%Z →
  Set_ now key value ttl c =
    {| items := <[key := {| Key := key; Value := value;
                            Expiration := wrap64 (now + ttl) |}]> (items c);
       evictList := key :: evictList c;
       maxSize := maxSize c |}.
Proof.
  intros He Hroom. unfold Set_. rewrite He. simpl.
  rewrite (bool_decide_false (_ < Len _)%Z), andb_false_r; [done|].
  unfold Len, PushFront in *. simpl. lia.
Qed.

Lemma capacity_step op c :
  WF c → (0 < maxSize c)%Z → within_capacity c → within_capacity (step op c).
Proof.
  intros Hwf Hpos Hcap. unfold within_capacity in *.
  rewrite maxSize_step.
  destruct op as [now key value ttl|now key|key|]; simpl.
  - destruct (items c !! key) as [ent|] eqn:He.
    + unfold Set_. rewrite He. simpl. unfold Len.
      rewrite length_MoveToFront by apply Hwf. done.
    + destruct (decide (Len (evictList c) + 1 ≤ maxSize c)%Z) as [Hroom|Hfull].
      * rewrite Set_new_room by done. simpl. unfold Len in *. simpl. lia.
      * destruct (Set_new_full now key value ttl c) as (e & Hb & _ & _ & ->);
          [done..|lia|]. simpl.
        apply last_Some_elem_of in Hb.
        pose proof (length_Remove _ _ (proj1 Hwf) Hb).
        unfold Len in *. simpl. lia.
  - unfold Get. destruct (items c !! key) as [ent|]; [|done].
    case_bool_decide; simpl.
    + pose proof (Len_Remove_le (evictList c) key). lia.
    + unfold Len. rewrite length_MoveToFront by apply Hwf. done.
  - unfold Delete. destruct (items c !! key) as [ent|]; [|done]. simpl.
    pose proof (Len_Remove_le (evictList c) key). lia.
  - unfold Len. simpl. lia.
Qed.

(** The invariant of a run that starts from an empty cache of capacity [m]. *)
Lemma trun_invariant m ops :
  (0 < m)%Z →
  let s := trun ops (tinit m) in
  WF (cache s) ∧ recency_ordered s ∧ maxSize (cache s) = m ∧
  within_capacity (cache s).
Proof.
  intros Hm. unfold trun.
  induction ops as [|op ops IH] using rev_ind; simpl.
  - split_and!; [apply WF_New|split; constructor|done|].
    unfold within_capacity, Len. simpl. lia.
  - rewrite foldl_app. simpl in *.
    destruct IH as (Hwf & Hrec & Hmax & Hcap).
    split_and!.
    + by apply WF_step.
    + by apply recency_tstep.
    + by rewrite maxSize_step.
    + apply capacity_step; [done|lia|done].
Qed.

Lemma cache_trun ops s : cache (trun ops s) = run ops (cache s).
Proof.
  revert s. induction ops as [|op ops IH]; intros s; [done|].
  simpl. by rewrite IH.
Qed.

End cache_capacity.

(** C1.  A cache created with capacity [m > 0], after any sequence of [Set],
    [Get], [Delete] and [Clear]: (1) it holds at most [m] entries; (2) a [Set]
    of a key that is not present, when the cache already holds [m] entries,
    evicts exactly one entry, the one whose last touch (a [Set], or a [Get]
    that found it unexpired) is older than that of every other entry present,
    and leaves every other entry as it was; with room left it evicts nothing;
    (3) a [Set] of a key that is present evicts nothing. *)
Theorem capacity_and_lru_eviction (m : Z) (ops : list CacheOp) :
  (0 < m)%Z →
  let s := trun ops (tinit m) in
  let c := cache s in
  (Z.of_nat (size (items c)) ≤ m)%Z ∧
  (∀ now key value ttl,
     items c !! key = None →
     let c' := Set_ now key value ttl c in
     let s' := tstep (OpSet now key value ttl) s in
     (Z.of_nat (size (items c')) ≤ m)%Z ∧
     ((m < Z.of_nat (size (items c)) + 1)%Z →
        ∃ victim,
          is_Some (items c !! victim) ∧
          (∀ k, k ∈ ({[key]} ∪ dom (items c) : gset string) → k ≠ victim →
                touched s' victim < touched s' k) ∧
          dom (items c') = ({[key]} ∪ dom (items c)) ∖ {[victim]} ∧
          size (items c') = size (items c) ∧
          (∀ k, k ≠ victim → k ≠ key → items c' !! k = items c !! k) ∧
          items c' !! key = Some {| Key := key; Value := value;
                                    Expiration := wrap64 (now + ttl) |}) ∧
     ((Z.of_nat (size (items c)) + 1 ≤ m)%Z →
        dom (items c') = {[key]} ∪ dom (items c) ∧
        (∀ k, k ≠ key → items c' !! k = items c !! k))) ∧
  (∀ now key value ttl,
     is_Some (items c !! key) →
     let c' := Set_ now key value ttl c in
     dom (items c') = dom (items c) ∧
     (∀ k, k ≠ key → items c' !! k = items c !! k)).
Proof.
  intros Hm s c.
  destruct (trun_invariant m ops Hm) as (Hwf & Hrec & Hmax & Hcap).
  fold s in Hwf, Hrec, Hmax, Hcap. fold c in Hwf, Hmax, Hcap.
  pose proof (WF_size c Hwf) as Hsize.
  unfold within_capacity, Len in Hcap. rewrite Hmax in Hcap.
  split_and!.
  - lia.
  - intros now key value ttl He c' s'.
    assert (Hwf' : WF c') by by apply WF_Set.
    assert (Hcap' : within_capacity c').
    { apply (capacity_step (OpSet now key value ttl)); try done; [lia|].
      unfold within_capacity, Len. lia. }
    unfold within_capacity, Len in Hcap'.
    change (maxSize c') with (maxSize (step (OpSet now key value ttl) c)) in Hcap'.
    rewrite maxSize_step, Hmax in Hcap'.
    split_and!.
    + rewrite (WF_size c' Hwf'). lia.
    + intros Hfull.
      destruct (Set_new_full now key value ttl c) as (e & Hb & Hne & Hsome & Heq);
        [done|done|lia|unfold Len; lia|].
      exists e. fold c' in Heq.
      assert (Hdom' : dom (items c') = ({[key]} ∪ dom (items c)) ∖ {[e]}).
      { rewrite Heq. simpl. by rewrite dom_delete_L, dom_insert_L. }
      split_and!; try done.
      * intros k Hk Hke. subst s'. simpl.
        rewrite (decide_False (P := e = key)) by done.
        case_decide as Hkk.
        -- destruct Hrec as [_ Hf]. rewrite Forall_forall in Hf.
           apply Hf. by apply last_Some_elem_of.
        -- destruct Hrec as [Hs Hf].
           eapply (ordered_Back (touched s) (clock s) (evictList c) e k);
             [by split|done| |done].
           apply Hwf. apply elem_of_dom. set_solver.
      * rewrite <- !size_dom, Hdom'.
        rewrite size_difference by (apply elem_of_dom in Hsome; set_solver).
        rewrite size_union by (apply not_elem_of_dom in He; set_solver).
        rewrite !size_singleton. lia.
      * intros k Hkv Hkk. rewrite Heq. simpl.
        by rewrite lookup_delete_ne, lookup_insert_ne.
      * rewrite Heq. simpl. by rewrite lookup_delete_ne, lookup_insert_eq.
    + intros Hroom. unfold c'.
      rewrite Set_new_room by (try done; unfold Len; lia). simpl.
      split; [by rewrite dom_insert_L|].
      intros k Hk. by rewrite lookup_insert_ne.
  - intros now key value ttl [ent He] c'. unfold c', Set_. rewrite He. simpl.
    split.
    + apply dom_insert_lookup_L. by rewrite He.
    + intros k Hk. by rewrite lookup_insert_ne.
Qed.

Lemma capacity_and_lru_eviction_witness :
  (0 < 2)%Z ∧
  (Z.of_nat (size (items (cache (trun [OpSet 0 "a" [] 5; OpSet 1 "b" [] 5]
                                      (tinit 2))))) ≤ 2)%Z.
Proof.
  split; [lia|].
  apply (capacity_and_lru_eviction 2 [OpSet 0 "a" [] 5; OpSet 1 "b" [] 5]%Z).
  lia.
Defined.

Section cache_expiration.

Implicit Types (c : MemoryCache) (k e key : string).

(** Whatever an operation other than a [Set] of [k] does, it leaves the item
    of [k] as it was or removes it. *)
Lemma step_lookup_other op c k :
  WF c → (∀ now value ttl, op ≠ OpSet now k value ttl) →
  items (step op c) !! k = items c !! k ∨ items (step op c) !! k = None.
Proof.
  intros (Hnd & Hdom & Hkey) Hop.
  destruct op as [now key value ttl|now key|key|]; simpl.
  - assert (key ≠ k) by (intros ->; by eapply Hop).
    unfold Set_. destruct (items c !! key) as [ent|] eqn:He; simpl.
    + left. by rewrite lookup_insert_ne.
    + case_match; simpl; [|left; by rewrite lookup_insert_ne].
      unfold removeOldest. simpl. destruct (Back _) as [e|]; simpl;
        [|left; by rewrite lookup_insert_ne].
      destruct (_ !! e) as [kv|]; simpl; [|left; by rewrite lookup_insert_ne].
      rewrite lookup_delete. destruct (decide (Key kv = k)); [by right|left].
      by rewrite lookup_insert_ne.
  - unfold Get. destruct (items c !! key) as [ent|] eqn:He; [|by left].
    case_bool_decide; simpl; [|by left].
    rewrite lookup_delete. case_decide; [by right|by left].
  - unfold Delete. destruct (items c !! key) as [ent|] eqn:He; [|by left].
    simpl. rewrite lookup_delete. case_decide; [by right|by left].
  - by right.
Qed.

(** Right after [Set(k, v, ttl)] the cache holds [v] for [k], expiring at the
    wrapped sum of the instant and the duration. *)
Lemma Set_lookup_self now k v ttl c :
  WF c →
  ∃ it, items (Set_ now k v ttl c) !! k = Some it ∧ Value it = v ∧
        Expiration it = wrap64 (now + ttl).
Proof.
  intros Hwf. destruct (items c !! k) as [ent|] eqn:He.
  - unfold Set_. rewrite He. simpl. rewrite lookup_insert_eq. eauto.
  - destruct (decide (0 < maxSize c ∧ maxSize c < Len (evictList c) + 1)%Z)
      as [[Hpos Hfull]|Hroom].
    + destruct (Set_new_full now k v ttl c) as (e & _ & Hne & _ & ->);
        [done..|]. simpl.
      rewrite lookup_delete_ne, lookup_insert_eq by done. eauto.
    + unfold Set_. rewrite He. simpl.
      assert (bool_decide (0 < maxSize c)%Z &&
              bool_decide (maxSize c < Len (PushFront k (evictList c)))%Z
              = false) as ->.
      { apply andb_false_iff. rewrite !bool_decide_eq_false.
        unfold Len, PushFront in *. simpl. lia. }
      simpl. rewrite lookup_insert_eq. eauto.
Qed.

(** A run none of whose operations affects [k], and whose [Get]s come no
    later than the expiry of the item of [k], leaves that item in place. *)
Lemma run_unaffected ops c k it t :
  WF c → items c !! k = Some it → (t ≤ Expiration it)%Z →
  unaffected k ops c → gets_by t ops →
  items (run ops c) !! k = Some it.
Proof.
  revert c. induction ops as [|op ops IH]; intros c Hwf Hit Ht Hun Hg; [done|].
  simpl in Hun, Hg. apply andb_True in Hun as [Hna Hun].
  apply andb_True in Hg as [Hg1 Hg]. apply negb_True in Hna. simpl.
  apply IH; [by apply WF_step| |done|done|done].
  destruct op as [now key value ttl|now key|key|]; simpl in Hna |- *.
  - rewrite orb_True, andb_True, negb_True, !bool_decide_spec in Hna.
    destruct (step_lookup_other (OpSet now key value ttl) c k Hwf)
      as [Heq|Hnone]; simpl in *.
    + intros ??? [=]. naive_solver.
    + by rewrite Heq.
    + exfalso. apply Hna. right. rewrite Hit, Hnone.
      split; [done|by intros [? ?]].
  - unfold Get. destruct (items c !! key) as [ent|] eqn:He; [|done].
    destruct (decide (key = k)) as [->|Hne].
    + assert (ent = it) as -> by congruence.
      apply bool_decide_spec in Hg1.
      rewrite bool_decide_false; [done|lia].
    + destruct (bool_decide (Expiration ent < now)%Z); [|done]. simpl.
      destruct Hwf as (_ & _ & Hkey). rewrite (Hkey _ _ He).
      by rewrite lookup_delete_ne.
  - rewrite bool_decide_spec in Hna.
    unfold Delete. destruct (items c !! key) as [ent|] eqn:He; [|done].
    simpl. destruct Hwf as (_ & _ & Hkey). rewrite (Hkey _ _ He).
    by rewrite lookup_delete_ne.
  - done.
Qed.

(** A run without a [Set] of [k] does not change the expiry of the item of
    [k], as long as the item is there. *)
Lemma run_no_Set ops c k exp :
  WF c → (∀ it, items c !! k = Some it → Expiration it = exp) →
  no_Set_of k ops →
  ∀ it, items (run ops c) !! k = Some it → Expiration it = exp.
Proof.
  revert c. induction ops as [|op ops IH]; intros c Hwf Hit Hns; [done|].
  simpl in Hns. apply andb_True in Hns as [Hns1 Hns].
  simpl. apply IH; [by apply WF_step| |done].
  intros it.
  destruct (step_lookup_other op c k Hwf) as [->| ->]; [|by auto|done].
  intros now value ttl ->. by apply bool_decide_spec in Hns1.
Qed.

End cache_expiration.

(** Expiration after a [Set] on a well-formed cache. *)
Lemma ttl_expiration_from (c : MemoryCache) (k : string) (v : list Byte.byte)
    (ttl t0 t : Z) (ops : list CacheOp) :
  WF c → in_int64 (t0 + ttl) →
  let c0 := Set_ t0 k v ttl c in
  ((t - t0 < ttl)%Z → unaffected k ops c0 → gets_by t ops →
     (Get t k (run ops c0)).1 = Some v) ∧
  ((ttl < t - t0)%Z → no_Set_of k ops →
     (Get t k (run ops c0)).1 = None ∧
     items (Get t k (run ops c0)).2 !! k = None ∧
     k ∉ evictList (Get t k (run ops c0)).2).
Proof.
  intros Hwf Hrep c0.
  assert (Hwf0 : WF c0) by by apply WF_Set.
  destruct (Set_lookup_self t0 k v ttl c Hwf) as (it0 & Hit0 & Hv0 & He0).
  fold c0 in Hit0. rewrite (wrap64_id _ Hrep) in He0.
  split.
  - intros Ht Hun Hgets.
    rewrite (surjective_pairing (Get t k (run ops c0))). simpl.
    unfold Get.
    rewrite (run_unaffected ops c0 k it0 t); [|done|done|lia|done|done].
    rewrite bool_decide_false by lia. simpl. by rewrite Hv0.
  - intros Ht Hns.
    assert (Hwf1 : WF (run ops c0)) by by apply WF_run.
    pose proof (WF_Get t k _ Hwf1) as Hwf2.
    assert (Hexp : ∀ it, items (run ops c0) !! k = Some it →
                         Expiration it = (t0 + ttl)%Z).
    { apply run_no_Set; [done| |done]. intros it. rewrite Hit0. congruence. }
    assert (Hres : (Get t k (run ops c0)).1 = None ∧
                   items (Get t k (run ops c0)).2 !! k = None).
    { unfold Get. destruct (items (run ops c0) !! k) as [it|] eqn:Hit; [|done].
      rewrite bool_decide_true by (rewrite (Hexp _ eq_refl); lia). simpl.
      destruct Hwf1 as (_ & _ & Hkey). rewrite (Hkey _ _ Hit).
      by rewrite lookup_delete_eq. }
    destruct Hres as [Hr1 Hr2]. split_and!; [done..|].
    destruct Hwf2 as (_ & Hdom & _). rewrite Hdom, Hr2. by intros [? ?].
Qed.

(** C2 (amended).  [Set(k, v, ttl)] at the instant [t0] on a cache in any
    state it can reach from [NewMemoryCache(m)], the expiry instant
    [t0 + ttl] being an [int64] count of nanoseconds, followed by any run of
    operations: (1) a [Get(k)] at an instant [t] with [t - t0 < ttl] returns
    [(v, true)], provided no operation of the run affects [k] (no [Set] of
    [k], no [Set] that evicts [k], no [Delete] of [k], no [Clear]) and the
    [Get]s of the run are not later than [t]; (2) a [Get(k)] at an instant
    [t] with [t - t0 > ttl] returns not-found and leaves the cache without
    an entry for [k], in the map and in the list, provided the run has no
    [Set] of [k]. *)
Theorem ttl_expiration (m : Z) (earlier : list CacheOp) (k : string)
    (v : list Byte.byte) (ttl t0 t : Z) (ops : list CacheOp) :
  in_int64 (t0 + ttl) →
  let c0 := Set_ t0 k v ttl (run earlier (NewMemoryCache m)) in
  ((t - t0 < ttl)%Z → unaffected k ops c0 → gets_by t ops →
     (Get t k (run ops c0)).1 = Some v) ∧
  ((ttl < t - t0)%Z → no_Set_of k ops →
     (Get t k (run ops c0)).1 = None ∧
     items (Get t k (run ops c0)).2 !! k = None ∧
     k ∉ evictList (Get t k (run ops c0)).2).
Proof.
  intros Hrep. apply ttl_expiration_from; [|done]. apply WF_run, WF_New.
Qed.

Lemma ttl_expiration_witness :
  (Get 3 "k" (run [OpGet 1 "k"; OpSet 2 "b" [] 5]
                  (Set_ 0 "k" [Byte.x7b; Byte.x7d] 5 (NewMemoryCache 2)))).1
    = Some [Byte.x7b; Byte.x7d] ∧
  (Get 6 "k" (run [OpGet 1 "k"; OpSet 2 "b" [] 5]
                  (Set_ 0 "k" [Byte.x7b; Byte.x7d] 5 (NewMemoryCache 2)))).1
    = None.
Proof.
  split.
  - apply (ttl_expiration 2 [] "k" [Byte.x7b; Byte.x7d] 5 0 3
             [OpGet 1 "k"; OpSet 2 "b" [] 5]%Z);
      [by vm_compute|lia|by vm_compute|by vm_compute].
  - apply (ttl_expiration 2 [] "k" [Byte.x7b; Byte.x7d] 5 0 6
             [OpGet 1 "k"; OpSet 2 "b" [] 5]%Z);
      [by vm_compute|lia|by vm_compute].
Defined.

(** C2, as stated, fails when the expiry instant leaves [int64]: a [Set] in
    the year 2026 with the largest duration stores an expiry that has wrapped
    around to the past, and a [Get] one nanosecond later, long before [ttl]
    has elapsed, finds the entry expired. *)
Lemma ttl_expiration_overflow :
  let t0 := 1793000000000000000%Z in
  let ttl := max_int64 in
  let c0 := Set_ t0 "k" [Byte.x7b; Byte.x7d] ttl (NewMemoryCache 1000) in
  ((t0 + 1) - t0 < ttl)%Z ∧
  Expiration <$> items c0 !! "k" = Some (-7430372036854775809)%Z ∧
  (Get (t0 + 1) "k" c0).1 = None.
Proof. intros t0 ttl c0. split_and!; by vm_compute. Qed.

(** ** Cache key resolution *)

Import Conditions Tables.

Section key_resolution.

Variable FormatV : GoValue → string.

Lemma key_in_maps_resolve keyField whereArgs :
  key_in_maps FormatV keyField whereArgs
  = FormatV <$> resolve_in_maps keyField whereArgs.
Proof.
  unfold resolve_in_maps.
  induction whereArgs as [|arg whereArgs IH]; [done|].
  destruct arg; simpl; try done.
  destruct (map_lookup keyField entries); [done|]. apply IH.
Qed.

Lemma pairs_of_short (l : list GoValue) : length l ≤ 1 → pairs_of l = [].
Proof. destruct l as [|a [|b l]]; simpl; [done..|lia]. Qed.

Lemma drop_two (l : list GoValue) i :
  i + 1 < length l →
  ∃ a b, l !! i = Some a ∧ l !! (i + 1) = Some b ∧
         drop i l = a :: b :: drop (i + 2) l.
Proof.
  intros Hi.
  destruct (lookup_lt_is_Some_2 l i) as [a Ha]; [lia|].
  destruct (lookup_lt_is_Some_2 l (i + 1)) as [b Hb]; [lia|].
  exists a, b. split_and!; [done..|].
  rewrite (drop_S l a i Ha). f_equal.
  replace (S i) with (i + 1) by lia.
  rewrite (drop_S l b (i + 1) Hb). f_equal. f_equal. lia.
Qed.

(** The loop over the indices follows the pairs of the arguments it has not
    passed, whenever its fuel covers them. *)
Lemma key_in_pairs_resolve fuel keyField whereArgs i :
  length whereArgs ≤ i + fuel →
  key_in_pairs FormatV fuel keyField whereArgs i
  = FormatV <$> resolve_in_pairs keyField (drop i whereArgs).
Proof.
  unfold resolve_in_pairs.
  revert i. induction fuel as [|fuel IH]; intros i Hfuel; simpl.
  - rewrite drop_ge by lia. done.
  - case_bool_decide as Hi.
    + destruct (drop_two whereArgs i) as (a & b & Ha & Hb & Hdrop); [lia|].
      rewrite Ha, Hb, Hdrop. simpl.
      destruct a; simpl; try (apply IH; lia).
      destruct (decide (s = keyField)); [done|]. apply IH. lia.
    + rewrite pairs_of_short; [done|]. rewrite length_drop. lia.
Qed.

End key_resolution.

(** C6.  [getCacheKey] fails with the caching-disabled error when caching is
    not enabled, with the key-field-undefined error when caching is enabled
    and the key field is empty, and otherwise returns the text of the value
    the first map argument with the key field holds under it, or else of the
    value that follows the first string equal to the key field at an even
    position, or else fails with the key-not-found error. *)
Theorem getCacheKey_resolution (FormatV : GoValue → string) (t : Table)
    (whereArgs : list GoValue) :
  (Cached t = false →
     getCacheKey FormatV t whereArgs
     = Err "caching is not enabled for this table") ∧
  (Cached t = true → CacheKey t = EmptyString →
     getCacheKey FormatV t whereArgs
     = Err "CacheKey is not defined for this table") ∧
  (Cached t = true → CacheKey t ≠ EmptyString →
     getCacheKey FormatV t whereArgs
     = match resolve_key (CacheKey t) whereArgs with
       | Some val => Ok (FormatV val)
       | None =>
           Err ("CacheKey '" +:+ CacheKey t +:+ "' not found in whereArgs")
       end).
Proof.
  unfold getCacheKey. split_and!.
  - by intros ->.
  - intros -> ->. done.
  - intros -> Hkey. simpl. rewrite decide_False by done.
    rewrite key_in_maps_resolve, (key_in_pairs_resolve _ _ _ _ 0) by lia.
    rewrite drop_0. unfold resolve_key.
    destruct (resolve_in_maps _ _); [done|]. simpl.
    by destruct (resolve_in_pairs _ _).
Qed.

(** ** The condition builder *)

#[local] Arguments String.append !_ _ / : simpl nomatch.

Section placeholder_texts.

Implicit Types (s d rest : string) (a : ascii).

(** A text of digits only. *)
Let all_digits := fix go s : bool :=
  match s with
  | EmptyString => true
  | String a s' => is_digit a && go s'
  end.

(** A text that does not go on with a digit. *)
Let stops s : bool :=
  match s with
  | EmptyString => true
  | String a _ => negb (is_digit a)
  end.

Lemma append_nil_r s : s +:+ EmptyString = s.
Proof. induction s as [|a s IH]; simpl; [done|by f_equal]. Qed.

Lemma append_assoc s1 s2 s3 : (s1 +:+ s2) +:+ s3 = s1 +:+ s2 +:+ s3.
Proof. induction s1 as [|a s1 IH]; simpl; [done|by f_equal]. Qed.

Lemma all_digits_uint (u : Decimal.uint) :
  all_digits (NilEmpty.string_of_uint u).
Proof. induction u; simpl; done. Qed.

Lemma all_digits_itoa n : (0 ≤ n)%Z → all_digits (itoa n).
Proof.
  intros Hn. unfold itoa. destruct n as [|p|p]; [done| |lia].
  simpl. unfold NilZero.string_of_uint.
  pose proof (all_digits_uint (Pos.to_uint p)) as Hd.
  by destruct (Pos.to_uint p).
Qed.

Lemma all_digits_dollar_free d : all_digits d → dollar_free d.
Proof.
  induction d as [|a d IH]; simpl; [done|].
  intros [Ha Hd]%andb_True. apply andb_True. split; [|by apply IH].
  destruct (Ascii.eqb_spec a "$") as [->|]; done.
Qed.

Lemma digits_prefix_app d rest :
  all_digits d → stops rest → digits_prefix (d +:+ rest) = d.
Proof.
  intros Hd Hrest. induction d as [|a d IH]; simpl in *.
  - destruct rest as [|a rest]; [done|]. simpl in *.
    by destruct (is_digit a).
  - apply andb_True in Hd as [Ha Hd].
    destruct (is_digit a); [|done]. by rewrite IH.
Qed.

Lemma placeholders_app_free s rest :
  dollar_free s → placeholders (s +:+ rest) = placeholders rest.
Proof.
  induction s as [|a s IH]; simpl; [done|].
  intros [Ha Hs]%andb_True. destruct (Ascii.eqb a "$"); [done|]. by apply IH.
Qed.

Lemma placeholders_free s : dollar_free s → placeholders s = [].
Proof.
  intros Hs. pose proof (placeholders_app_free s EmptyString Hs) as H.
  by rewrite append_nil_r in H.
Qed.

(** One placeholder, then the rest of the text. *)
Lemma placeholders_dollar n rest :
  (0 ≤ n)%Z → stops rest →
  placeholders (String "$" (itoa n +:+ rest)) = itoa n :: placeholders rest.
Proof.
  intros Hn Hrest. simpl.
  rewrite digits_prefix_app by (try done; by apply all_digits_itoa).
  rewrite placeholders_app_free; [done|].
  by apply all_digits_dollar_free, all_digits_itoa.
Qed.

(** The placeholders of the list an [IN] condition joins. *)
Lemma placeholders_join (ns : list Z) rest :
  Forall (λ n, 0 ≤ n)%Z ns → stops rest → dollar_free rest →
  placeholders (Join ((λ n, "$" +:+ itoa n) <$> ns) ", " +:+ rest)
  = itoa <$> ns.
Proof.
  intros Hns Hrest Hfree. unfold Join.
  induction Hns as [|n ns Hn Hns IH].
  - by apply placeholders_free.
  - destruct ns as [|n' ns].
    + change (placeholders (String "$" (itoa n +:+ rest)) = [itoa n]).
      rewrite placeholders_dollar by done.
      by rewrite placeholders_free.
    + set (tl := String.concat ", " ((λ n, "$" +:+ itoa n) <$> n' :: ns)) in *.
      change (placeholders
                ((String "$" (itoa n) +:+ String "," (String " " tl)) +:+ rest)
              = itoa n :: (itoa <$> n' :: ns)).
      rewrite append_assoc.
      change (placeholders
                (String "$" (itoa n +:+ String "," (String " " (tl +:+ rest))))
              = itoa n :: (itoa <$> n' :: ns)).
      rewrite placeholders_dollar by done. f_equal. apply IH.
Qed.

End placeholder_texts.

Section condition_fragments.

Implicit Types (c : Condition) (col : string) (n : Z).

Lemma numerals_fmap n k :
  numerals n k = itoa <$> ((λ i : nat, n + Z.of_nat i)%Z <$> seq 0 k).
Proof.
  revert n. induction k as [|k IH]; intros n; [done|].
  simpl. f_equal; [f_equal; lia|].
  rewrite IH, <- !list_fmap_compose, <- seq_shift, <- list_fmap_compose.
  apply list_fmap_ext. intros _ i _. simpl. f_equal. lia.
Qed.

(** The loop of the [IN] case, while the counter stays in range. *)
Lemma in_loop_range elems n :
  (1 ≤ n)%Z → (n + Z.of_nat (length elems) ≤ max_int64)%Z →
  in_loop elems n
  = ((λ i, "$" +:+ itoa i)
       <$> ((λ i : nat, n + Z.of_nat i)%Z <$> seq 0 (length elems)),
     elems, (n + Z.of_nat (length elems))%Z).
Proof.
  revert n. induction elems as [|v elems IH]; intros n Hn Hmax.
  - simpl. do 2 f_equal. lia.
  - simpl in Hmax |- *. rewrite wrap64_id by (unfold in_int64, min_int64, max_int64 in *; lia).
    rewrite IH by lia. f_equal; [f_equal|lia].
    f_equal; [do 2 f_equal; lia|].
    rewrite <- seq_shift, <- !list_fmap_compose.
    apply list_fmap_ext. intros _ i _. simpl. do 2 f_equal. lia.
Qed.

Lemma placeholders_dollar_end n :
  (0 ≤ n)%Z → placeholders (String "$" (itoa n)) = [itoa n].
Proof.
  intros Hn. rewrite <- (append_nil_r (itoa n)) at 1.
  by rewrite placeholders_dollar.
Qed.

(** The shape every case of [ToSQL] but two has: the column, then a tail
    with the placeholders. *)
Lemma fragment_after_column col tail (args : list GoValue) n k :
  placeholders tail = numerals n k → length args = k →
  ∃ sql' args' tail',
    Some (col +:+ tail, args, (n + Z.of_nat k)%Z)
      = Some (sql', args', (n + Z.of_nat k)%Z) ∧
    length args' = k ∧
    (sql' = col +:+ tail' ∨ sql' = tail') ∧
    placeholders tail' = numerals n k ∧
    (dollar_free col → placeholders sql' = numerals n k).
Proof.
  intros Htail Hargs. exists (col +:+ tail), args, tail.
  split_and!; [done|done|by left|done|].
  intros Hcol. by rewrite placeholders_app_free.
Qed.

Lemma fragment_unary col pre (v : GoValue) n :
  (0 ≤ n)%Z → (n + 1 ≤ max_int64)%Z → dollar_free pre →
  ∃ sql' args' tail',
    Some (col +:+ (pre +:+ String "$" EmptyString) +:+ itoa n, [v],
          wrap64 (n + 1))
      = Some (sql', args', (n + Z.of_nat 1)%Z) ∧
    length args' = 1 ∧
    (sql' = col +:+ tail' ∨ sql' = tail') ∧
    placeholders tail' = numerals n 1 ∧
    (dollar_free col → placeholders sql' = numerals n 1).
Proof.
  intros Hn Hmax Hpre.
  rewrite wrap64_id by (unfold in_int64, min_int64, max_int64 in *; lia).
  apply (fragment_after_column col
           ((pre +:+ String "$" EmptyString) +:+ itoa n) [v] n 1); [|done].
  rewrite append_assoc, placeholders_app_free by done.
  by apply placeholders_dollar_end.
Qed.

End condition_fragments.

(** C7 (amended).  For a condition [c] whose [Values] has the entries its
    [Type] makes [ToSQL] read, a column text [col] and a counter [n ≥ 1] that
    the call does not drive past the largest [int]: [ToSQL] returns a
    fragment, either the column text followed by a tail or the tail alone,
    whose placeholders are [$n], [$(n+1)], ... in order, as many as the
    condition has parameters; the argument list has that length; and the
    counter has advanced by that number. *)
Theorem ToSQL_placeholders (c : Condition) (col : string) (n : Z) :
  values_read c ≤ length (Values c) →
  (1 ≤ n)%Z →
  (n + Z.of_nat (parameters c) ≤ max_int64)%Z →
  ∃ sql args tail,
    ToSQL c col n = Some (sql, args, (n + Z.of_nat (parameters c))%Z) ∧
    length args = parameters c ∧
    (sql = col +:+ tail ∨ sql = tail) ∧
    placeholders tail = numerals n (parameters c) ∧
    (dollar_free col → placeholders sql = numerals n (parameters c)).
Proof.
  intros Hvals Hn Hmax. destruct c as [ty vals].
  unfold ToSQL, parameters, values_read in *.
  unfold ConditionIn, ConditionBetween, ConditionIsNull, ConditionIsNotNull,
    ConditionLike, ConditionGt, ConditionLt, ConditionGte, ConditionLte,
    ConditionNeq in *.
  cbn [Conditions.Type_ Values existsb] in *.
  destruct (String.eqb_spec ty "IN") as [->|HIn].
  { cbn in Hvals.
    destruct vals as [|v0 vals]; [simpl in Hvals; lia|].
    assert (Hone : (n + 1 ≤ max_int64)%Z → ∃ sql' args' tail',
      Some (col +:+ " IN (" +:+ Join ["$" +:+ itoa n] ", " +:+ ")", [v0],
            wrap64 (n + 1))
        = Some (sql', args', (n + Z.of_nat 1)%Z) ∧
      length args' = 1 ∧ (sql' = col +:+ tail' ∨ sql' = tail') ∧
      placeholders tail' = numerals n 1 ∧
      (dollar_free col → placeholders sql' = numerals n 1)).
    { intros Hmax1.
      rewrite wrap64_id by (unfold in_int64, min_int64, max_int64 in *; lia).
      apply (fragment_after_column col
               (" IN (" +:+ Join ["$" +:+ itoa n] ", " +:+ ")") [v0] n 1);
        [|done].
      change (placeholders (" IN (" +:+ String "$" (itoa n +:+ ")")) = [itoa n]).
      rewrite placeholders_app_free, placeholders_dollar by (done || lia).
      done. }
    destruct v0 as [| | | |elems| | |]; try (apply Hone; simpl in Hmax; lia).
    destruct elems as [|e elems].
    - exists "1=0", [], "1=0". rewrite Z.add_0_r. by split_and!; [..|right| |].
    - set (es := e :: elems) in *. cbn [length] in Hmax.
      rewrite in_loop_range by (done || lia).
      apply fragment_after_column; [|done].
      rewrite placeholders_app_free by done.
      rewrite (placeholders_join _ ")"); [|
        apply Forall_forall; intros i [j [-> _]]%list_elem_of_fmap; lia
        |done|done].
      by rewrite numerals_fmap. }
  destruct (String.eqb_spec ty "BETWEEN") as [->|HBetween].
  { cbn in Hvals. destruct vals as [|v0 [|v1 vals]]; [simpl in Hvals; lia..|].
    cbn in Hmax |- *.
    rewrite !wrap64_id by (unfold in_int64, min_int64, max_int64 in *; lia).
    apply (fragment_after_column col
             (" BETWEEN $" +:+ itoa n +:+ " AND $" +:+ itoa (n + 1))
             [v0; v1] n 2); [|done].
    change (placeholders
              (" BETWEEN " +:+ String "$"
                 (itoa n +:+ " AND " +:+ String "$" (itoa (n + 1))))
            = [itoa n; itoa (n + 1)%Z]).
    rewrite placeholders_app_free, placeholders_dollar by (done || lia).
    f_equal. rewrite placeholders_app_free by done.
    apply placeholders_dollar_end. lia. }
  destruct (String.eqb_spec ty "IS NULL") as [->|HIsNull].
  { cbn. exists (col +:+ " IS NULL"), [], " IS NULL". rewrite Z.add_0_r.
    split_and!; [done|done|by left|done|].
    intros Hcol. by rewrite placeholders_app_free. }
  destruct (String.eqb_spec ty "IS NOT NULL") as [->|HIsNotNull].
  { cbn. exists (col +:+ " IS NOT NULL"), [], " IS NOT NULL". rewrite Z.add_0_r.
    split_and!; [done|done|by left|done|].
    intros Hcol. by rewrite placeholders_app_free. }
  destruct (String.eqb_spec ty "LIKE") as [->|HLike].
  { cbn in Hvals, Hmax |- *. destruct vals as [|v0 vals]; [simpl in Hvals; lia|].
    apply (fragment_unary col " ILIKE " v0 n); (done || lia). }
  destruct (String.eqb_spec ty ">") as [->|HGt].
  { cbn in Hvals, Hmax |- *. destruct vals as [|v0 vals]; [simpl in Hvals; lia|].
    apply (fragment_unary col " > " v0 n); (done || lia). }
  destruct (String.eqb_spec ty "<") as [->|HLt].
  { cbn in Hvals, Hmax |- *. destruct vals as [|v0 vals]; [simpl in Hvals; lia|].
    apply (fragment_unary col " < " v0 n); (done || lia). }
  destruct (String.eqb_spec ty ">=") as [->|HGte].
  { cbn in Hvals, Hmax |- *. destruct vals as [|v0 vals]; [simpl in Hvals; lia|].
    apply (fragment_unary col " >= " v0 n); (done || lia). }
  destruct (String.eqb_spec ty "<=") as [->|HLte].
  { cbn in Hvals, Hmax |- *. destruct vals as [|v0 vals]; [simpl in Hvals; lia|].
    apply (fragment_unary col " <= " v0 n); (done || lia). }
  destruct (String.eqb_spec ty "!=") as [->|HNeq].
  { cbn in Hvals, Hmax |- *. destruct vals as [|v0 vals]; [simpl in Hvals; lia|].
    apply (fragment_unary col " != " v0 n); (done || lia). }
  cbn. rewrite Z.add_0_r.
  exists EmptyString, [], EmptyString. by split_and!; [..|right| |].
Qed.

Lemma ToSQL_placeholders_witness :
  ∃ sql args tail,
    ToSQL (Between (VInt 20) (VInt 30)) (QuoteIdentifier "age") 1
      = Some (sql, args, 3%Z) ∧
    length args = 2 ∧
    (sql = QuoteIdentifier "age" +:+ tail ∨ sql = tail) ∧
    placeholders tail = ["1"; "2"] ∧
    (dollar_free (QuoteIdentifier "age") → placeholders sql = ["1"; "2"]).
Proof.
  apply (ToSQL_placeholders (Between (VInt 20) (VInt 30))
           (QuoteIdentifier "age") 1);
    [vm_compute; lia|lia|by vm_compute].
Defined.

(** C7, as stated for every [Condition] value, fails on a condition whose
    [Values] is shorter than its [Type] needs: the index expression
    [c.Values[0]] panics and [ToSQL] returns nothing. *)
Lemma ToSQL_short_values_panics :
  ToSQL {| Conditions.Type_ := ConditionGt; Values := [] |}
        (QuoteIdentifier "age") 1 = None.
Proof. reflexivity. Qed.

(** At the largest [int] the increment of the counter wraps around. *)
Example ToSQL_counter_wraps :
  ∃ sql args,
    ToSQL (Gt (VInt 20)) (QuoteIdentifier "age") max_int64
    = Some (sql, args, min_int64).
Proof. eexists _, _. vm_compute. reflexivity. Qed.

(** The parameters of the conditions the package builds. *)
Example parameters_of_constructors (v w : GoValue) (elems : list GoValue)
    (pattern : string) :
  parameters IsNull = 0 ∧ parameters IsNotNull = 0 ∧
  parameters (In (VSlice [])) = 0 ∧
  parameters (In (VSlice elems)) = length elems ∧
  parameters {| Conditions.Type_ := ConditionBetween; Values := [v; w] |} = 2 ∧
  parameters (Like pattern) = 1 ∧ parameters (Gt v) = 1 ∧
  parameters (Lt v) = 1 ∧ parameters (Gte v) = 1 ∧ parameters (Lte v) = 1 ∧
  parameters (Neq v) = 1.
Proof. by split_and!. Qed.

(** C8.  For a value [v] that is not nil, [Between(nil, v)] is the condition
    [Lte(v)] and [Between(v, nil)] is the condition [Gte(v)]; so [ToSQL]
    gives the same fragment, arguments and counter for them, whatever the
    column and the counter. *)
Theorem Between_one_sided (v : GoValue) :
  v ≠ VNil →
  Between VNil v = Lte v ∧
  Between v VNil = Gte v ∧
  ∀ col n,
    ToSQL (Between VNil v) col n = ToSQL (Lte v) col n ∧
    ToSQL (Between v VNil) col n = ToSQL (Gte v) col n ∧
    ToSQL (Lte v) col n
      = Some (col +:+ " <= $" +:+ itoa n, [v], wrap64 (n + 1)) ∧
    ToSQL (Gte v) col n
      = Some (col +:+ " >= $" +:+ itoa n, [v], wrap64 (n + 1)).
Proof.
  intros Hv.
  assert (Between VNil v = Lte v) as -> by by destruct v.
  assert (Between v VNil = Gte v) as -> by by destruct v.
  done.
Qed.

Lemma Between_one_sided_witness :
  Between VNil (VInt 30) = Lte (VInt 30) ∧
  Between (VInt 20) VNil = Gte (VInt 20).
Proof.
  split.
  - apply (Between_one_sided (VInt 30)). discriminate.
  - apply (Between_one_sided (VInt 20)). discriminate.
Defined.

(** C9.  For an empty slice, of whatever element type, [In] makes a
    condition whose [ToSQL] is the fragment [1=0], with no argument and the
    counter where it was; the fragment has no placeholder and is not the
    column followed by an empty list. *)
Theorem In_empty_slice (col : string) (n : Z) :
  ToSQL (In (VSlice [])) col n = Some ("1=0", [], n) ∧
  placeholders "1=0" = [] ∧
  "1=0" ≠ col +:+ " IN ()".
Proof.
  split_and!; [done..|].
  destruct col as [|a [|b [|c [|d col]]]]; simpl; discriminate.
Qed.

(** ** The read path: [FetchOne] *)

Section read_path.

Variable FormatV : GoValue → string.
Variable Marshal : Row → result (list Byte.byte).
Variable Unmarshal : list Byte.byte → result Row.

Implicit Types (t : Table) (c : MemoryCache) (ds : DataStore).




End read_path.


Section decode_failure.

Variable FormatV : GoValue → string.
Variable Marshal : Row → result (list Byte.byte).

Implicit Types (t : Table) (c : MemoryCache).



End decode_failure.


(** ** The write path: [Update] and [Delete] *)

Section write_path.

Variable FormatV : GoValue → string.
Variable Marshal : Row → result (list Byte.byte).

Implicit Types (t : Table) (c : MemoryCache) (ds : DataStore).
Implicit Types (rows results : list Row).












End write_path.



(** ** The text of the statements *)

Section statement_texts.

Lemma length_append (s1 s2 : string) :
  String.length (s1 +:+ s2) = String.length s1 + String.length s2.
Proof. induction s1 as [|a s1 IH]; simpl; [done|by rewrite IH]. Qed.

Lemma length_double_quotes (s : string) :
  String.length s ≤ String.length (double_quotes s).
Proof.
  induction s as [|a s IH]; simpl; [done|].
  destruct (decide (a = dquote)); simpl; lia.
Qed.

(** Quoting changes every identifier. *)
Lemma QuoteIdentifier_changes (ident : string) : QuoteIdentifier ident ≠ ident.
Proof.
  intros Heq. apply (f_equal String.length) in Heq.
  unfold QuoteIdentifier in Heq. simpl in Heq.
  rewrite length_append in Heq. simpl in Heq.
  pose proof (length_double_quotes ident). lia.
Qed.

(** The SET clause of [Update] quotes the columns it takes from [data]. *)
Lemma set_parts_quoted (t : Table) (data : Row) (argIndex : Z) :
  Forall (λ part, ∃ col i, col ∈ data.*1 ∧
                    part = QuoteIdentifier col +:+ " = $" +:+ itoa i)
         (set_parts t data argIndex).1.1.
Proof.
  revert argIndex. induction data as [|[col val] data IH]; intros argIndex.
  - constructor.
  - simpl. destruct (validColumn t col).
    + specialize (IH (wrap64 (argIndex + 1))).
      destruct (set_parts t data _) as [[setParts args] argIndex']. simpl in *.
      constructor.
      * exists col, argIndex. split; [by left|done].
      * eapply Forall_impl; [done|]. intros part (col' & i & Hin & ->).
        exists col', i. split; [by right|done].
    + eapply Forall_impl; [apply IH|]. intros part (col' & i & Hin & ->).
      exists col', i. split; [by right|done].
Qed.

End statement_texts.

(** C10.  Each of [FetchOne], [FetchMany], [Insert], [Update] and [Delete]
    acquires a connection and, when it gets one, sends one statement, which
    holds the name of the table as it is, not quoted; [FetchOne] sends
    nothing only when it serves the row from the cache.  The statements of
    [CreateTable] and [DropTable] hold the name quoted, and quoting changes
    every name.  In the former, what is quoted is the column names taken
    from map arguments: the keys of the maps of the where-clause, the
    columns of [Insert] and those of the SET clause of [Update]; a string
    argument goes into the where-clause as it is. *)
Theorem table_name_verbatim
    (FormatV : GoValue → string) (Marshal : Row → result (list Byte.byte))
    (Unmarshal : list Byte.byte → result Row)
    (t : Table) (ds : DataStore) (tget tset : Z) (before : list Z)
    (data : Row) (whereArgs : list GoValue) :
  (∀ where_clause params n,
     buildWhereClause whereArgs 1 = Some (where_clause, params, n) →
     (∃ o,
        FetchOne FormatV Marshal Unmarshal t ds tget tset whereArgs = Some o ∧
        (events o
         = EvAcquire ::
           match acquire ds with
           | None => [EvQuery ("SELECT * FROM " +:+ Name t +:+ where_clause
                                 +:+ " LIMIT 1") params]
           | Some _ => []
           end ∨
         (Cached t = true ∧ events o = [] ∧ ∃ row, returned o = Ok row))) ∧
     (∃ o,
        FetchMany t ds whereArgs = Some o ∧
        events o
        = EvAcquire ::
          match acquire ds with
          | None => [EvQuery ("SELECT * FROM " +:+ Name t +:+ where_clause)
                             params]
          | Some _ => []
          end) ∧
     (∃ o,
        Delete FormatV Marshal t ds before whereArgs = Some o ∧
        events o
        = EvAcquire ::
          match acquire ds with
          | None => [EvQuery ("DELETE FROM " +:+ Name t +:+ where_clause
                                +:+ " RETURNING *") params]
          | Some _ => []
          end)) ∧
  (valid_entries t data ≠ [] →
   let entries := valid_entries t data in
   ∃ o,
     Insert t ds data = Some o ∧
     events o
     = EvAcquire ::
       match acquire ds with
       | None =>
           [EvQuery ("INSERT INTO " +:+ Name t +:+ " ("
                       +:+ Join (QuoteIdentifier <$> entries.*1) ", "
                       +:+ ") VALUES ("
                       +:+ Join ((λ i : nat, "$" +:+ itoa (Z.of_nat i + 1))
                                   <$> seq 0 (length entries)) ", "
                       +:+ ")" +:+ " RETURNING *")
                    entries.*2]
       | Some _ => []
       end) ∧
  (∀ part setParts args argIndex whereClause whereArgsList n,
     set_parts t data 1 = (part :: setParts, args, argIndex) →
     buildWhereClause whereArgs argIndex
       = Some (whereClause, whereArgsList, n) →
     Forall (λ part, ∃ col i, col ∈ data.*1 ∧
                       part = QuoteIdentifier col +:+ " = $" +:+ itoa i)
            (part :: setParts) ∧
     ∃ o,
       Update FormatV Marshal t ds before data whereArgs = Some o ∧
       events o
       = EvAcquire ::
         match acquire ds with
         | None =>
             [EvQuery ("UPDATE " +:+ Name t +:+ " SET "
                         +:+ Join (part :: setParts) ", "
                         +:+ whereClause +:+ " RETURNING *")
                      (args ++ whereArgsList)]
         | Some _ => []
         end) ∧
  (∀ created columns1 answers1 columns2 answers2,
   ∃ err t' others,
     Operations.CreateTable t None created columns1 answers1 columns2 answers2
     = (err, t',
        ("CREATE TABLE IF NOT EXISTS " +:+ QuoteIdentifier (Name t) +:+ " ("
           +:+ Join ((λ col, QuoteIdentifier (ColumnName col) +:+ " "
                               +:+ ColumnDef_String (DataType col))
                       <$> Columns t) ", " +:+ ")") :: others)) ∧
  (∀ dropped,
     Operations.DropTable t None dropped
     = (dropped, ["DROP TABLE IF EXISTS " +:+ QuoteIdentifier (Name t)])) ∧
  QuoteIdentifier (Name t) ≠ Name t ∧
  (∀ key val n,
     (∀ type values, val ≠ VCond type values) →
     where_args [VMap [(key, val)]] n
     = Some ([QuoteIdentifier key +:+ " = $" +:+ itoa n], [val],
             wrap64 (n + 1))) ∧
  (∀ fragment n, where_args [VStr fragment] n = Some ([fragment], [], n)).
Proof.
  assert (Hwrite : ∀ kind sql params what,
    events (write_through FormatV Marshal t ds kind before sql params what)
    = EvAcquire ::
      match acquire ds with None => [EvQuery sql params] | Some _ => [] end).
  { intros kind sql params what. unfold write_through.
    destruct (acquire ds) as [err|]; [done|].
    destruct (query ds sql params) as [err|rows]; [done|].
    destruct (fetchRowsResult rows); [|done].
    by destruct (if Cached t then _ else _). }
  split_and!.
  - intros where_clause params n Hbw. split_and!.
    + unfold FetchOne.
      assert (Hmiss : ∀ t1 : Table, ∃ o,
        match buildWhereClause whereArgs 1 with
        | None => None
        | Some (where_clause, params, _) =>
            let selectSQL := selectOneSQL t where_clause in
            match acquire ds with
            | Some err =>
                Some (mkOutcome
                        (Err ("failed to acquire connection: " +:+ err))
                        t1 [EvAcquire] [])
            | None =>
                let evs := [EvAcquire; EvQuery selectSQL params] in
                match query ds selectSQL params with
                | QueryError err =>
                    Some (mkOutcome
                            (Err ("failed to execute fetch one: " +:+ err))
                            t1 evs [])
                | QueryRows [] =>
                    Some (mkOutcome (Err "no rows found") t1 evs [])
                | QueryRows (RowErr err :: _) =>
                    Some (mkOutcome
                            (Err ("failed to fetch row: "
                                  +:+ "failed to read returned values: "
                                  +:+ err))
                            t1 evs [])
                | QueryRows (RowOk result :: _) =>
                    let t2 :=
                      if Cached t1 then
                        match getCacheKey FormatV t1 [VMap result] with
                        | Ok key => (setCache Marshal t1 tset key result).2
                        | Err _ => t1
                        end
                      else t1 in
                    Some (mkOutcome (Ok result) t2 evs [])
                end
            end
        end = Some o ∧
        (events o
         = EvAcquire ::
           match acquire ds with
           | None => [EvQuery ("SELECT * FROM " +:+ Name t +:+ where_clause
                                 +:+ " LIMIT 1") params]
           | Some _ => []
           end ∨
         (Cached t = true ∧ events o = [] ∧ ∃ row, returned o = Ok row))).
      { intros t1. rewrite Hbw. cbv zeta.
        destruct (acquire ds) as [err|]; [eexists; split; [done|by left]|].
        destruct (query ds _ params) as [err|[|[result|err] rest]];
          (eexists; split; [done|by left]). }
      destruct (Cached t) eqn:Hc; [|apply Hmiss].
      destruct (match getCacheKey FormatV t whereArgs with
                | Ok _ => _ | Err _ => _ end) as [[cached|] t1];
        [|apply Hmiss].
      eexists. split; [done|]. right. split_and!; [done|done|by eexists].
    + unfold FetchMany. rewrite Hbw.
      destruct (acquire ds) as [err|]; [by eexists|].
      destruct (query ds _ params) as [err|rows]; [by eexists|].
      destruct (fetchRowsResult rows); by eexists.
    + unfold Delete. rewrite Hbw. eexists. split; [done|]. apply Hwrite.
  - intros Hvalid entries. subst entries. unfold Insert.
    assert (Hsql : insertSQL t (valid_entries t data)
      = "INSERT INTO " +:+ Name t +:+ " ("
          +:+ Join (QuoteIdentifier <$> (valid_entries t data).*1) ", "
          +:+ ") VALUES ("
          +:+ Join ((λ i : nat, "$" +:+ itoa (Z.of_nat i + 1))
                      <$> seq 0 (length (valid_entries t data))) ", "
          +:+ ")" +:+ " RETURNING *").
    { unfold insertSQL. rewrite length_fmap, <- list_fmap_compose. done. }
    rewrite <- Hsql.
    destruct (valid_entries t data) as [|entry entries]; [done|].
    destruct (acquire ds) as [err|]; [by eexists|].
    destruct (query ds _ _) as [err|[|[result|err] rest]]; by eexists.
  - intros part setParts args argIndex whereClause whereArgsList n Hset Hbw.
    split.
    + pose proof (set_parts_quoted t data 1) as Hq. by rewrite Hset in Hq.
    + unfold Update. destruct data as [|entry data']; [done|].
      rewrite Hset, Hbw. eexists. split; [done|]. apply Hwrite.
  - intros created columns1 answers1 columns2 answers2.
    unfold Operations.CreateTable.
    destruct created as [err|]; [by eexists _, _, _|].
    destruct (Operations.GetColumnsFromDB t columns1) as [db1 asked1].
    destruct (Operations.createCurrentColumn t db1 answers1)
      as [[[ok1 e1] t'] sent1].
    destruct (Operations.GetColumnsFromDB t' columns2) as [db2 asked2].
    destruct (Operations.deleteNonExistingColumnsFromDB t' db2 answers2)
      as [[ok2 e2] sent2].
    by eexists _, _, _.
  - done.
  - apply QuoteIdentifier_changes.
  - intros key val n Hval. simpl. by destruct val; try done; destruct (Hval type values).
  - done.
Qed.

(** ** Witnesses and scenarios *)

Import Examples.

Lemma getCacheKey_resolution_witness :
  getCacheKey format_scalar users [VStr "id"; VInt 5] = Ok "5" ∧
  getCacheKey format_scalar users0 [VStr "id"; VInt 5]
    = Err "caching is not enabled for this table".
Proof.
  split.
  - exact (proj2 (proj2 (getCacheKey_resolution format_scalar users
                           [VStr "id"; VInt 5]))
                 eq_refl ltac:(discriminate)).
  - exact (proj1 (getCacheKey_resolution format_scalar users0
                    [VStr "id"; VInt 5]) eq_refl).
Defined.

(** The pairs are counted from the first argument, whatever it is: a field
    name that follows a map is at an odd position and is not seen. *)
Example getCacheKey_pair_after_map :
  getCacheKey format_scalar users
    [VMap [("name", VStr "Alice")]; VStr "id"; VInt 5]
  = Err "CacheKey 'id' not found in whereArgs".
Proof. reflexivity. Qed.





Lemma table_name_verbatim_witness :
  (∃ o, FetchOne format_scalar encode_row decode_row users (store 25) 10 11
                 [VMap [("id", VInt 1)]] = Some o ∧
        events o
        = [EvAcquire;
           EvQuery ("SELECT * FROM users WHERE " +:+ QuoteIdentifier "id"
                      +:+ " = $1 LIMIT 1")
                   [VInt 1]]) ∧
  (∃ o, FetchMany users (store 25) [VMap [("id", VInt 1)]] = Some o ∧
        events o
        = [EvAcquire;
           EvQuery ("SELECT * FROM users WHERE " +:+ QuoteIdentifier "id"
                      +:+ " = $1")
                   [VInt 1]]) ∧
  (∃ o, Delete format_scalar encode_row users (store 25) []
               [VMap [("id", VInt 1)]] = Some o ∧
        events o
        = [EvAcquire;
           EvQuery ("DELETE FROM users WHERE " +:+ QuoteIdentifier "id"
                      +:+ " = $1 RETURNING *")
                   [VInt 1]]) ∧
  (∃ o, Insert users (store 25) (alice 25) = Some o ∧
        events o
        = [EvAcquire;
           EvQuery ("INSERT INTO users ("
                      +:+ Join (QuoteIdentifier <$> ["id"; "name"; "age"]) ", "
                      +:+ ") VALUES ($1, $2, $3) RETURNING *")
                   [VInt 1; VStr "Alice"; VInt 25]]) ∧
  (∃ o, Update format_scalar encode_row users (store 26) []
               [("age", VInt 26)] [VMap [("id", VInt 1)]] = Some o ∧
        events o
        = [EvAcquire;
           EvQuery ("UPDATE users SET " +:+ QuoteIdentifier "age"
                      +:+ " = $1 WHERE " +:+ QuoteIdentifier "id"
                      +:+ " = $2 RETURNING *")
                   [VInt 26; VInt 1]]) ∧
  (∃ err t' others,
     Operations.CreateTable users None None
       (Operations.ColumnsRead ["id"; "name"; "age"]) (λ _, Operations.ExecOk)
       (Operations.ColumnsRead ["id"; "name"; "age"]) (λ _, Operations.ExecOk)
     = (err, t',
        ("CREATE TABLE IF NOT EXISTS " +:+ QuoteIdentifier "users" +:+ " ("
           +:+ QuoteIdentifier "id" +:+ " SERIAL PRIMARY KEY, "
           +:+ QuoteIdentifier "name" +:+ " TEXT NOT NULL, "
           +:+ QuoteIdentifier "age" +:+ " INTEGER)") :: others)) ∧
  (Operations.DropTable users None None
   = (None, ["DROP TABLE IF EXISTS " +:+ QuoteIdentifier "users"])) ∧
  QuoteIdentifier (Name users) ≠ Name users.
Proof.
  pose proof (table_name_verbatim format_scalar encode_row decode_row users
                (store 25) 10 11 [] (alice 25) [VMap [("id", VInt 1)]])
    as (Hwhere & Hinsert & _ & Hcreate & Hdrop & Hne & _).
  pose proof (table_name_verbatim format_scalar encode_row decode_row users
                (store 26) 10 11 [] [("age", VInt 26)] [VMap [("id", VInt 1)]])
    as (_ & _ & Hupdate & _).
  destruct (Hwhere _ _ _ eq_refl) as (Hone & Hmany & Hdelete).
  split_and!.
  - destruct Hone as (o & Hcall & [Hev|(_ & Hev & _)]);
      [by exists o|].
    vm_compute in Hcall. injection Hcall as <-. discriminate Hev.
  - exact Hmany.
  - exact Hdelete.
  - apply Hinsert. discriminate.
  - exact (proj2 (Hupdate _ _ _ _ _ _ _ eq_refl eq_refl)).
  - exact (Hcreate None (Operations.ColumnsRead ["id"; "name"; "age"])
             (λ _, Operations.ExecOk)
             (Operations.ColumnsRead ["id"; "name"; "age"])
             (λ _, Operations.ExecOk)).
  - exact (Hdrop None).
  - exact Hne.
Defined.

(** The statements of the operations on [users]. *)
Example statements_of_users :
  events <$> FetchOne format_scalar encode_row decode_row users (store 25)
                      10 11 [VMap [("id", VInt 1)]]
    = Some [EvAcquire;
            EvQuery ("SELECT * FROM users WHERE " +:+ QuoteIdentifier "id"
                       +:+ " = $1 LIMIT 1") [VInt 1]] ∧
  events <$> Insert users (store 25)
                    [("name", VStr "Alice"); ("bogus", VInt 0); ("age", VInt 25)]
    = Some [EvAcquire;
            EvQuery ("INSERT INTO users (" +:+ QuoteIdentifier "name" +:+ ", "
                       +:+ QuoteIdentifier "age"
                       +:+ ") VALUES ($1, $2) RETURNING *")
                    [VStr "Alice"; VInt 25]] ∧
  events <$> Delete format_scalar encode_row users (store 25) []
                    [VStr "age > $1"; VInt 20]
    = Some [EvAcquire;
            EvQuery "DELETE FROM users WHERE age > $1 RETURNING *" [VInt 20]] ∧
  createTableSQL users
    = "CREATE TABLE IF NOT EXISTS " +:+ QuoteIdentifier "users" +:+ " ("
        +:+ QuoteIdentifier "id" +:+ " SERIAL PRIMARY KEY, "
        +:+ QuoteIdentifier "name" +:+ " TEXT NOT NULL, "
        +:+ QuoteIdentifier "age" +:+ " INTEGER)".
Proof. split_and!; by vm_compute. Qed.

(** Recency promotion: with room for two, [Set(a)], [Set(b)], [Set(c)]
    evicts [a]; with a [Get(a)] between [Set(b)] and [Set(c)] it evicts [b]. *)
Example recency_promotion :
  evictList (run [OpSet 0 "a" [] 9; OpSet 1 "b" [] 9; OpSet 2 "c" [] 9]
                 (NewMemoryCache 2)) = ["c"; "b"] ∧
  evictList (run [OpSet 0 "a" [] 9; OpSet 1 "b" [] 9; OpGet 2 "a";
                  OpSet 3 "c" [] 9]
                 (NewMemoryCache 2)) = ["c"; "a"].
Proof. split; by vm_compute. Qed.

(** The scenario of the specification: a miss that fills the cache under
    the key [1], a hit that asks nothing of the data store, an update that
    clears the cache, and a miss that returns the new age. *)
Example read_update_read :
  ∃ o1 o2 o3 o4,
    FetchOne format_scalar encode_row decode_row users (store 25) 10 11
             [VMap [("id", VInt 1)]] = Some o1 ∧
    returned o1 = Ok (alice 25) ∧ events o1 ≠ [] ∧
    dom (cache_entries (table o1)) = {["1"]} ∧
    FetchOne format_scalar encode_row decode_row (table o1) (store 25) 12 13
             [VMap [("id", VInt 1)]] = Some o2 ∧
    returned o2 = Ok (alice 25) ∧ events o2 = [] ∧
    Update format_scalar encode_row (table o2) (store 26) []
           [("age", VInt 26)] [VMap [("id", VInt 1)]] = Some o3 ∧
    cache_entries (table o3) = ∅ ∧
    FetchOne format_scalar encode_row decode_row (table o3) (store 26) 14 15
             [VMap [("id", VInt 1)]] = Some o4 ∧
    returned o4 = Ok (alice 26) ∧ events o4 ≠ [].
Proof.
  eexists _, _, _, _.
  split; [by vm_compute|]. split; [done|]. split; [done|].
  split; [by vm_compute|].
  split; [by vm_compute|]. split; [done|]. split; [done|].
  split; [by vm_compute|]. split; [done|].
  split; [by vm_compute|]. split; done.
Qed.

(** * Further properties *)

(** ** The eviction cache: structure, [Delete], [Get], capacity *)

Section cache_more.

Implicit Types (c : MemoryCache) (k key : string).

Lemma maxSize_run ops c : maxSize (run ops c) = maxSize c.
Proof.
  revert c. induction ops as [|op ops IH]; intros c; [done|].
  simpl. by rewrite IH, maxSize_step.
Qed.

Lemma WF_reachable m ops : WF (run ops (NewMemoryCache m)).
Proof. apply WF_run, WF_New. Qed.

End cache_more.

(** X1.  In every state a cache reaches from [NewMemoryCache(m)], the map
    and the list describe the same entries: no element occurs twice in the
    list, a key is in the list exactly when it is in the map, every item is
    filed under its own key, the two have the same size, and the capacity is
    the one the cache was created with. *)
Theorem cache_structures_agree (m : Z) (ops : list CacheOp) :
  let c := run ops (NewMemoryCache m) in
  NoDup (evictList c) ∧
  (∀ k, k ∈ evictList c ↔ is_Some (items c !! k)) ∧
  (∀ k it, items c !! k = Some it → Key it = k) ∧
  size (items c) = length (evictList c) ∧
  maxSize c = m.
Proof.
  intros c. pose proof (WF_reachable m ops) as Hwf. fold c in Hwf.
  pose proof (WF_size c Hwf). destruct Hwf as (? & ? & ?).
  split_and!; try done. unfold c. by rewrite maxSize_run.
Qed.

(** X2.  [Delete(key)] on a reachable cache removes the entry of [key] from
    the map and from the list and changes no other entry; afterwards a [Get]
    of [key] finds nothing, whatever the instant; deleting an absent key, or
    deleting twice, changes nothing. *)
Theorem Delete_removes_only_key (m : Z) (ops : list CacheOp) (key : string) :
  let c := run ops (NewMemoryCache m) in
  let c' := MemCache.Delete key c in
  items c' !! key = None ∧
  (key ∉ evictList c') ∧
  (∀ k, k ≠ key → items c' !! k = items c !! k) ∧
  (∀ k, k ≠ key → (k ∈ evictList c' ↔ k ∈ evictList c)) ∧
  (∀ now, Get now key c' = (None, c')) ∧
  (items c !! key = None → c' = c) ∧
  MemCache.Delete key c' = c'.
Proof.
  intros c c'. pose proof (WF_reachable m ops) as Hwf. fold c in Hwf.
  assert (Hwf' : WF c') by by apply WF_Delete.
  assert (Hnone : items c' !! key = None).
  { unfold c', MemCache.Delete.
    destruct (items c !! key) as [ent|] eqn:He; [|done]. simpl.
    destruct Hwf as (_ & _ & Hkey). rewrite (Hkey _ _ He).
    apply lookup_delete_eq. }
  split_and!.
  - done.
  - destruct Hwf' as (_ & Hdom & _). rewrite Hdom, Hnone. by intros [? ?].
  - intros k Hk. unfold c', MemCache.Delete.
    destruct (items c !! key) as [ent|] eqn:He; [|done]. simpl.
    destruct Hwf as (_ & _ & Hkey). rewrite (Hkey _ _ He).
    by rewrite lookup_delete_ne.
  - intros k Hk. unfold c', MemCache.Delete.
    destruct (items c !! key) as [ent|] eqn:He; [|done]. simpl.
    rewrite elem_of_Remove. naive_solver.
  - intros now. unfold Get. by rewrite Hnone.
  - intros He. unfold c', MemCache.Delete. by rewrite He.
  - unfold MemCache.Delete at 1. by rewrite Hnone.
Qed.

(** X3.  [Get(key)] on a reachable cache never touches the entry of another
    key.  When it returns a value, that is the stored value of an entry that
    has not expired, the map is unchanged and [key] is at the front of the
    list.  When it returns not-found, the cache has no entry for [key]
    afterwards: the key was absent, or its entry had expired and is purged. *)
Theorem Get_reads_or_purges (m : Z) (ops : list CacheOp) (now : Z)
    (key : string) :
  let c := run ops (NewMemoryCache m) in
  let r := (Get now key c).1 in
  let c' := (Get now key c).2 in
  (∀ k, k ≠ key → items c' !! k = items c !! k) ∧
  (∀ v, r = Some v →
        items c' = items c ∧ head (evictList c') = Some key ∧
        ∃ it, items c !! key = Some it ∧ Value it = v ∧
              (now ≤ Expiration it)%Z) ∧
  (r = None →
     items c' !! key = None ∧ (key ∉ evictList c') ∧
     (items c !! key = None ∨
      ∃ it, items c !! key = Some it ∧ (Expiration it < now)%Z)).
Proof.
  intros c r c'. pose proof (WF_reachable m ops) as Hwf. fold c in Hwf.
  assert (Hwf' : WF c') by by apply WF_Get.
  destruct Hwf as (Hnd & Hdom & Hkey).
  unfold r, c', Get in *.
  destruct (items c !! key) as [ent|] eqn:He.
  - destruct (bool_decide (Expiration ent < now)%Z) eqn:Hexp; simpl in *.
    + apply bool_decide_eq_true in Hexp. rewrite (Hkey _ _ He).
      split_and!.
      * intros k Hk. by rewrite lookup_delete_ne.
      * done.
      * intros _. split_and!; [apply lookup_delete_eq| |right; eauto].
        destruct Hwf' as (_ & Hdom' & _). rewrite Hdom'. simpl.
        rewrite (Hkey _ _ He), lookup_delete_eq. by intros [? ?].
    + apply bool_decide_eq_false in Hexp. split_and!; [done| |done].
      intros v [= <-]. split_and!; [done| |exists ent; split_and!; [done..|lia]].
      rewrite MoveToFront_elem; [done|]. apply Hdom. by rewrite He.
  - simpl. split_and!; [done..|]. intros _. split_and!; [done| |by left].
    rewrite Hdom, He. by intros [? ?].
Qed.

(** X4.  A cache created with a capacity that is not positive never evicts:
    in every state it reaches, a [Set] of an absent key adds the key and
    leaves every other entry in place. *)
Theorem nonpositive_capacity_never_evicts (m : Z) (ops : list CacheOp)
    (now : Z) (key : string) (value : list Byte.byte) (ttl : Z) :
  (m ≤ 0)%Z →
  let c := run ops (NewMemoryCache m) in
  let c' := Set_ now key value ttl c in
  dom (items c') = ({[key]} ∪ dom (items c)) ∧
  (∀ k, k ≠ key → items c' !! k = items c !! k) ∧
  ∃ it, items c' !! key = Some it ∧ Value it = value.
Proof.
  intros Hm c c'. unfold c', Set_.
  assert (Hmax : maxSize c = m) by (unfold c; by rewrite maxSize_run).
  destruct (items c !! key) as [ent|] eqn:He; simpl.
  - split_and!.
    + rewrite dom_insert_L. apply elem_of_dom_2 in He. set_solver.
    + intros k Hk. by rewrite lookup_insert_ne.
    + rewrite lookup_insert_eq. eauto.
  - rewrite (bool_decide_false (0 < maxSize c)%Z) by lia. simpl.
    split_and!.
    + by rewrite dom_insert_L.
    + intros k Hk. by rewrite lookup_insert_ne.
    + rewrite lookup_insert_eq. eauto.
Qed.

Lemma nonpositive_capacity_never_evicts_witness :
  dom (items (Set_ 2 "c" [] 9
                (run [OpSet 0 "a" [] 9; OpSet 1 "b" [] 9] (NewMemoryCache 0))))
  = ({["c"]} ∪ dom (items (run [OpSet 0 "a" [] 9; OpSet 1 "b" [] 9]
                               (NewMemoryCache 0)))).
Proof.
  apply (nonpositive_capacity_never_evicts 0
           [OpSet 0 "a" [] 9; OpSet 1 "b" [] 9]%Z 2 "c" [] 9).
  lia.
Defined.

(** ** Cache.go and TableCache.go *)

Import TableCache.

(** X5.  [EnableCache(ttl)] switches caching on with the given TTL, keeps the
    key field, and installs a new, empty cache, whatever the table held
    before; its capacity is [CacheMax], or 1000 when [CacheMax] is 0.  When
    that capacity is positive, no run of operations takes the cache beyond
    it. *)
Theorem EnableCache_installs_bounded_cache (t : Table) (ttl : Z)
    (ops : list CacheOp) :
  let t' := EnableCache t ttl in
  Cached t' = true ∧ CacheTTL t' = ttl ∧ CacheKey t' = CacheKey t ∧
  CacheMax t' = (if decide (CacheMax t = 0%Z) then 1000%Z else CacheMax t) ∧
  ∃ c, CacheData t' = Some c ∧ items c = ∅ ∧ maxSize c = CacheMax t' ∧
       ((0 < CacheMax t')%Z →
        (Z.of_nat (size (items (run ops c))) ≤ CacheMax t')%Z).
Proof.
  intros t'. split_and!; [done..|].
  eexists. split_and!; [done..|]. intros Hpos.
  destruct (trun_invariant (CacheMax t') ops Hpos) as (Hwf & _ & _ & Hcap).
  rewrite cache_trun in Hwf, Hcap. simpl in Hwf, Hcap.
  rewrite (WF_size _ Hwf). unfold within_capacity, Len in Hcap.
  by rewrite maxSize_run in Hcap.
Qed.

Section cache_helpers.

Variable FormatV : GoValue → string.
Variable Marshal : Row → result (list Byte.byte).
Variable Unmarshal : list Byte.byte → result Row.

Implicit Types (t : Table) (c : MemoryCache) (ds : DataStore).

(** A table whose cache helpers have nothing to work on. *)
Let inert t : Prop := Cached t = false ∨ CacheData t = None.

Lemma setCache_inert t now key row :
  inert t → setCache Marshal t now key row = (None, t).
Proof.
  intros [H|H]; unfold setCache; rewrite H; [done|]. by destruct (Cached t).
Qed.

Lemma deleteCache_inert t key : inert t → deleteCache t key = t.
Proof.
  intros [H|H]; unfold deleteCache; rewrite H; [done|]. by destruct (Cached t).
Qed.

Lemma invalidateCache_inert t : inert t → invalidateCache t = t.
Proof.
  intros [H|H]; unfold invalidateCache; rewrite H; [done|].
  by destruct (Cached t).
Qed.

Lemma getCacheValue_inert t now key :
  inert t → getCacheValue Unmarshal t now key = (false, None, None, t).
Proof.
  intros [H|H]; unfold getCacheValue; rewrite H; [done|].
  by destruct (Cached t).
Qed.

Lemma run_async_inert kind instants rows t :
  inert t → (run_async FormatV Marshal kind instants rows t).1 = t.
Proof.
  intros Ht. revert rows. induction instants as [|now instants IH];
    intros rows; [done|].
  destruct rows as [|row rows]; [done|]. simpl.
  assert (async_step FormatV Marshal kind now row t = t) as ->; [|apply IH].
  unfold async_step. destruct (getCacheKey _ _ _); [|done].
  destruct kind; [by rewrite setCache_inert|by apply deleteCache_inert].
Qed.

Lemma write_through_inert t ds kind before sql args what :
  inert t →
  table (write_through FormatV Marshal t ds kind before sql args what) = t.
Proof.
  intros Ht. unfold write_through.
  destruct (acquire ds); [done|].
  destruct (query ds sql args) as [|rows]; [done|].
  destruct (fetchRowsResult rows) as [results|]; [|done].
  pose proof (run_async_inert kind before results t Ht) as Hrun.
  destruct (Cached t);
    [destruct (run_async _ _ _ _ _ _) as [t1 rest]; simpl in *; subst t1|];
    simpl; by apply invalidateCache_inert.
Qed.

End cache_helpers.

(** X6.  On a table without caching, or without a cache, the cache helpers
    do nothing and report no error ([setCache] does not even encode the row),
    and [FetchOne], [Update] and [Delete] return the table as it was. *)
Theorem caching_off_is_inert
    (FormatV : GoValue → string) (Marshal : Row → result (list Byte.byte))
    (Unmarshal : list Byte.byte → result Row)
    (t : Table) (ds : DataStore) (now tget tset : Z) (before : list Z)
    (key : string) (row data : Row) (whereArgs : list GoValue) :
  Cached t = false ∨ CacheData t = None →
  setCache Marshal t now key row = (None, t) ∧
  getCacheValue Unmarshal t now key = (false, None, None, t) ∧
  deleteCache t key = t ∧
  invalidateCache t = t ∧
  clearCache t = t ∧
  (∀ o, FetchOne FormatV Marshal Unmarshal t ds tget tset whereArgs = Some o →
        table o = t) ∧
  (∀ o, Update FormatV Marshal t ds before data whereArgs = Some o →
        table o = t) ∧
  (∀ o, Tables.Delete FormatV Marshal t ds before whereArgs = Some o →
        table o = t).
Proof.
  intros Ht. split_and!.
  - by apply setCache_inert.
  - by apply getCacheValue_inert.
  - by apply deleteCache_inert.
  - by apply invalidateCache_inert.
  - by apply invalidateCache_inert.
  - intros o. unfold FetchOne.
    assert (Hlook :
      (if Cached t then
         match getCacheKey FormatV t whereArgs with
         | Ok key0 =>
             let '(found, _, cachedResult, t') :=
               getCacheValue Unmarshal t tget key0 in
             if found then (cachedResult, t') else (None, t')
         | Err _ => (None, t)
         end
       else (None, t)) = (None, t)).
    { destruct (getCacheKey FormatV t whereArgs) as [key0|];
        [|by destruct (Cached t)].
      rewrite (getCacheValue_inert Unmarshal t tget key0 Ht).
      by destruct (Cached t). }
    rewrite Hlook.
    destruct (buildWhereClause whereArgs 1) as [[[w ps] n]|]; [|done].
    destruct (acquire ds); [by intros [= <-]|].
    destruct (query ds _ ps) as [|[|[result|] rest]]; try by intros [= <-].
    intros [= <-]. simpl.
    destruct (getCacheKey FormatV t [VMap result]) as [key0|];
      [|by destruct (Cached t)].
    rewrite (setCache_inert Marshal t tset key0 result Ht).
    by destruct (Cached t).
  - intros o. unfold Update. destruct data as [|e data']; [by intros [= <-]|].
    destruct (set_parts t (e :: data') 1) as [[[|p ps] args] n];
      [by intros [= <-]|].
    destruct (buildWhereClause whereArgs n) as [[[w wl] n']|]; [|done].
    intros [= <-]. by apply write_through_inert.
  - intros o. unfold Tables.Delete.
    destruct (buildWhereClause whereArgs 1) as [[[w wl] n']|]; [|done].
    intros [= <-]. by apply write_through_inert.
Qed.

Lemma caching_off_is_inert_witness :
  setCache encode_row users0 0 "1" (alice 25) = (None, users0) ∧
  invalidateCache users0 = users0.
Proof.
  pose proof (caching_off_is_inert format_scalar encode_row decode_row users0
                (store 25) 0 0 0 [] "1" (alice 25) [] [] (or_introl eq_refl))
    as (H1 & _ & _ & H4 & _).
  split; [exact H1|exact H4].
Defined.





(** ** Identifiers and quoting *)

Import Identifiers Operations.

Section identifiers.

Implicit Types (s : string) (a : ascii).

Lemma quoted_body_double_quotes s :
  quoted_body (double_quotes s +:+ String dquote EmptyString) = Some s.
Proof.
  induction s as [|a s IH]; [done|].
  cbn [double_quotes]. destruct (decide (a = dquote)) as [->|Hne].
  - cbn [String.append quoted_body]. rewrite !decide_True by done.
    by rewrite IH.
  - cbn [String.append quoted_body]. rewrite decide_False by done.
    by rewrite IH.
Qed.

Lemma ident_char_plain a : ident_char a → a ≠ dquote ∧ Ascii.eqb a "$" = false.
Proof.
  intros Ha. split.
  - intros ->. by vm_compute in Ha.
  - destruct (Ascii.eqb_spec a "$") as [->|]; [by vm_compute in Ha|done].
Qed.

Lemma all_chars_plain s :
  all_chars ident_char s → double_quotes s = s ∧ dollar_free s.
Proof.
  induction s as [|a s IH]; [done|]. simpl.
  intros [Ha Hs]%andb_True. destruct (ident_char_plain a Ha) as [Hq Hd].
  destruct (IH Hs) as [Hq' Hd']. rewrite decide_False by done.
  rewrite Hq', Hd. by split.
Qed.

Lemma isValidIdentifier_chars s :
  isValidIdentifier s →
  (1 ≤ String.length s ≤ 63) ∧ all_chars ident_char s.
Proof.
  unfold isValidIdentifier.
  destruct (String.length s =? 0) eqn:H0; [done|].
  destruct (63 <? String.length s) eqn:H63; [done|]. simpl.
  apply Nat.eqb_neq in H0. apply Nat.ltb_ge in H63.
  destruct s as [|a s]; [done|].
  intros [Ha Hs]%andb_True. split; [lia|]. simpl.
  apply andb_True. split; [|done]. unfold ident_char.
  apply orb_True. by left.
Qed.

End identifiers.

(** X9.  A SQL lexer reads [QuoteIdentifier(ident)] as one quoted
    identifier, and the identifier it reads is [ident]: no text put in
    [ident] closes the quotes early.  So different names get different
    quoted texts. *)
Theorem QuoteIdentifier_round_trip (ident : string) :
  lex_quoted (QuoteIdentifier ident) = Some ident ∧
  ∀ ident', QuoteIdentifier ident = QuoteIdentifier ident' → ident = ident'.
Proof.
  assert (Hlex : ∀ s, lex_quoted (QuoteIdentifier s) = Some s).
  { intros s. unfold QuoteIdentifier, lex_quoted.
    rewrite decide_True by done. apply quoted_body_double_quotes. }
  split; [done|]. intros ident' Heq.
  pose proof (Hlex ident) as H1. rewrite Heq, Hlex in H1. congruence.
Qed.

(** X10.  An identifier [isValidIdentifier] accepts has 1 to 63 bytes, all
    of them letters, digits or underscores, so no double quote and no dollar
    sign: quoting it only wraps it in double quotes.  [validateMapKeys]
    returns no error exactly when every key of the map is accepted. *)
Theorem isValidIdentifier_accepts_plain_names (s : string) (data : Row) :
  (isValidIdentifier s →
     (1 ≤ String.length s ≤ 63) ∧
     all_chars ident_char s ∧
     dollar_free s ∧
     QuoteIdentifier s = String dquote (s +:+ String dquote EmptyString)) ∧
  (validateMapKeys data = None ↔ Forall (λ e, isValidIdentifier e.1) data).
Proof.
  split.
  - intros Hs. destruct (isValidIdentifier_chars s Hs) as [Hlen Hchars].
    destruct (all_chars_plain s Hchars) as [Hq Hd].
    split_and!; [lia|lia|done|done|]. unfold QuoteIdentifier. by rewrite Hq.
  - induction data as [|[key val] data IH]; simpl.
    + split; [constructor|done].
    + destruct (isValidIdentifier key) eqn:Hkey; simpl.
      * rewrite IH, Forall_cons. simpl. rewrite Hkey. naive_solver.
      * split; [done|]. intros [Hk _]%Forall_cons. simpl in Hk.
        by rewrite Hkey in Hk.
Qed.

Lemma isValidIdentifier_accepts_plain_names_witness :
  QuoteIdentifier "user_id"
  = String dquote ("user_id" +:+ String dquote EmptyString).
Proof.
  by apply (proj1 (isValidIdentifier_accepts_plain_names "user_id" [])).
Defined.

(** What [isValidIdentifier] refuses. *)
Example isValidIdentifier_refuses :
  isValidIdentifier EmptyString = false ∧
  isValidIdentifier "1st" = false ∧
  isValidIdentifier "a b" = false ∧
  isValidIdentifier "a$1" = false ∧
  isValidIdentifier (String dquote "a") = false ∧
  isValidIdentifier
    "a123456789012345678901234567890123456789012345678901234567890123"
  = false.
Proof. by vm_compute. Qed.

(** ** Conditions at the edges *)

(** X11.  [Between(nil, nil)] is the empty condition: it adds nothing to the
    arguments and leaves the counter, but its fragment is the empty text,
    which the where-clause builder joins like any other.  Alone in a map it
    gives the clause [ WHERE ] with nothing after it. *)
Theorem Between_without_bounds (key col : string) (n : Z)
    (after : list (string * GoValue)) :
  ToSQL (Between VNil VNil) col n = Some (EmptyString, [], n) ∧
  buildWhereClause
    [VMap [(key, VCond (Conditions.Type_ (Between VNil VNil))
                       (Values (Between VNil VNil)))]] n
  = Some (" WHERE ", [], n) ∧
  ∀ conditions args n',
    where_map after n = Some (conditions, args, n') →
    where_map ((key, VCond (Conditions.Type_ (Between VNil VNil))
                           (Values (Between VNil VNil))) :: after) n
    = Some (EmptyString :: conditions, args, n').
Proof.
  split_and!; [done..|]. intros conditions args n' H.
  simpl. by rewrite H.
Qed.

(** X12.  [In] of a value that is not a slice is [In] of the one-element
    slice of that value: [ToSQL] gives the same fragment, with one
    placeholder, the same argument and the same counter. *)
Theorem In_of_scalar (v : GoValue) (col : string) (n : Z) :
  (∀ elems, v ≠ VSlice elems) →
  ToSQL (In v) col n = ToSQL (In (VSlice [v])) col n ∧
  ToSQL (In v) col n
  = Some (col +:+ " IN ($" +:+ itoa n +:+ ")", [v], wrap64 (n + 1)).
Proof.
  intros Hv. destruct v; try done. by destruct (Hv elems).
Qed.

Lemma In_of_scalar_witness :
  ToSQL (In (VInt 7)) "id" 1 = ToSQL (In (VSlice [VInt 7])) "id" 1.
Proof. apply (In_of_scalar (VInt 7) "id" 1). discriminate. Defined.

(** ** Rows of a result set *)

(** X13.  [fetchRowsResult] is all or nothing: when every row reads, it
    returns the rows, all of them and in order; when a row does not read, it
    returns the error of the first such row and none of the rows read before
    it. *)
Theorem fetchRowsResult_all_or_nothing (rows : list Row) (err : string)
    (rest : list RowRead) :
  fetchRowsResult (RowOk <$> rows) = Ok rows ∧
  fetchRowsResult ((RowOk <$> rows) ++ RowErr err :: rest)
  = Err ("failed to read returned values: " +:+ err).
Proof.
  split; induction rows as [|row rows IH]; try done.
  - rewrite fmap_cons. simpl. by rewrite IH.
  - rewrite fmap_cons. simpl. by rewrite IH.
Qed.

(** ** The where-clause and the statements *)

Section where_clause.

Implicit Types (s rest sep : string) (a : ascii) (n : Z).

Lemma digits_prefix_app_stops s rest :
  no_leading_digit rest → digits_prefix (s +:+ rest) = digits_prefix s.
Proof.
  intros Hrest. induction s as [|a s IH]; simpl.
  - destruct rest as [|a rest]; [done|]. simpl in *.
    by destruct (is_digit a).
  - destruct (is_digit a); [|done]. by rewrite IH.
Qed.

(** The placeholders of two texts put together are those of the one, then
    those of the other, when the second does not go on with a digit. *)
Lemma placeholders_app_stops s rest :
  no_leading_digit rest →
  placeholders (s +:+ rest) = placeholders s ++ placeholders rest.
Proof.
  intros Hrest. induction s as [|a s IH]; simpl; [done|].
  destruct (Ascii.eqb a "$"); [|done].
  by rewrite digits_prefix_app_stops, IH.
Qed.

Lemma placeholders_Join (fragments : list string) a sep :
  is_digit a = false → dollar_free (String a sep) →
  placeholders (Join fragments (String a sep))
  = concat (placeholders <$> fragments).
Proof.
  intros Ha Hsep. unfold Join.
  induction fragments as [|f fragments IH]; [done|].
  destruct fragments as [|g fragments].
  - simpl. by rewrite app_nil_r.
  - change (placeholders (f +:+ String a sep +:+ String.concat (String a sep) (g :: fragments))
            = placeholders f ++ concat (placeholders <$> g :: fragments)).
    rewrite placeholders_app_stops by (simpl; by rewrite Ha).
    f_equal. rewrite <- IH.
    change (String a sep +:+ ?x) with (String a sep +:+ x).
    by rewrite (placeholders_app_free (String a sep)).
Qed.

Lemma numerals_app n (j k : nat) :
  numerals n (j + k) = numerals n j ++ numerals (n + Z.of_nat j) k.
Proof.
  revert n. induction j as [|j IH]; intros n; simpl.
  - by rewrite Z.add_0_r.
  - rewrite IH. do 3 f_equal. lia.
Qed.

Lemma numerals_length n (k : nat) : length (numerals n k) = k.
Proof. revert n. induction k as [|k IH]; intros n; simpl; [done|by rewrite IH]. Qed.

Lemma dollar_free_app s rest :
  dollar_free s → dollar_free rest → dollar_free (s +:+ rest).
Proof.
  intros Hs Hrest. induction s as [|a s IH]; simpl in *; [done|].
  apply andb_True in Hs as [Ha Hs]. apply andb_True. split; [done|by apply IH].
Qed.

Lemma dollar_free_QuoteIdentifier s :
  dollar_free s → dollar_free (QuoteIdentifier s).
Proof.
  intros Hs. unfold QuoteIdentifier.
  change (dollar_free (double_quotes s +:+ String dquote EmptyString)).
  apply dollar_free_app; [|done].
  induction s as [|a s IH]; simpl in *; [done|].
  apply andb_True in Hs as [Ha Hs].
  destruct (decide (a = dquote)) as [->|Hne]; simpl.
  - by apply IH.
  - apply andb_True. split; [done|by apply IH].
Qed.

Lemma sum_list_cons (x : nat) (l : list nat) :
  sum_list (x :: l) = x + sum_list l.
Proof. done. Qed.

(** What [ToSQL] returns, case by case. *)
Lemma ToSQL_fragment (c : Condition) (col : string) n :
  values_read c ≤ length (Values c) →
  (1 ≤ n)%Z →
  (n + Z.of_nat (parameters c) ≤ max_int64)%Z →
  ∃ sql args tail,
    ToSQL c col n = Some (sql, args, (n + Z.of_nat (parameters c))%Z) ∧
    length args = parameters c ∧
    (sql = col +:+ tail ∨ sql = tail) ∧
    placeholders tail = numerals n (parameters c) ∧
    (dollar_free col → placeholders sql = numerals n (parameters c)).
Proof.
  intros Hvals Hn Hmax. destruct c as [ty vals].
  unfold ToSQL, parameters, values_read in *.
  unfold ConditionIn, ConditionBetween, ConditionIsNull, ConditionIsNotNull,
    ConditionLike, ConditionGt, ConditionLt, ConditionGte, ConditionLte,
    ConditionNeq in *.
  cbn [Conditions.Type_ Values existsb] in *.
  destruct (String.eqb_spec ty "IN") as [->|HIn].
  { cbn in Hvals.
    destruct vals as [|v0 vals]; [simpl in Hvals; lia|].
    assert (Hone : (n + 1 ≤ max_int64)%Z → ∃ sql' args' tail',
      Some (col +:+ " IN (" +:+ Join ["$" +:+ itoa n] ", " +:+ ")", [v0],
            wrap64 (n + 1))
        = Some (sql', args', (n + Z.of_nat 1)%Z) ∧
      length args' = 1 ∧ (sql' = col +:+ tail' ∨ sql' = tail') ∧
      placeholders tail' = numerals n 1 ∧
      (dollar_free col → placeholders sql' = numerals n 1)).
    { intros Hmax1.
      rewrite wrap64_id by (unfold in_int64, min_int64, max_int64 in *; lia).
      apply (fragment_after_column col
               (" IN (" +:+ Join ["$" +:+ itoa n] ", " +:+ ")") [v0] n 1);
        [|done].
      change (placeholders (" IN (" +:+ String "$" (itoa n +:+ ")")) = [itoa n]).
      rewrite placeholders_app_free, placeholders_dollar by (done || lia).
      done. }
    destruct v0 as [| | | |elems| | |]; try (apply Hone; simpl in Hmax; lia).
    destruct elems as [|e elems].
    - exists "1=0", [], "1=0". rewrite Z.add_0_r. by split_and!; [..|right| |].
    - set (es := e :: elems) in *. cbn [length] in Hmax.
      rewrite in_loop_range by (done || lia).
      apply fragment_after_column; [|done].
      rewrite placeholders_app_free by done.
      rewrite (placeholders_join _ ")"); [|
        apply Forall_forall; intros i [j [-> _]]%list_elem_of_fmap; lia
        |done|done].
      by rewrite numerals_fmap. }
  destruct (String.eqb_spec ty "BETWEEN") as [->|HBetween].
  { cbn in Hvals. destruct vals as [|v0 [|v1 vals]]; [simpl in Hvals; lia..|].
    cbn in Hmax |- *.
    rewrite !wrap64_id by (unfold in_int64, min_int64, max_int64 in *; lia).
    apply (fragment_after_column col
             (" BETWEEN $" +:+ itoa n +:+ " AND $" +:+ itoa (n + 1))
             [v0; v1] n 2); [|done].
    change (placeholders
              (" BETWEEN " +:+ String "$"
                 (itoa n +:+ " AND " +:+ String "$" (itoa (n + 1))))
            = [itoa n; itoa (n + 1)%Z]).
    rewrite placeholders_app_free, placeholders_dollar by (done || lia).
    f_equal. rewrite placeholders_app_free by done.
    apply placeholders_dollar_end. lia. }
  destruct (String.eqb_spec ty "IS NULL") as [->|HIsNull].
  { cbn. exists (col +:+ " IS NULL"), [], " IS NULL". rewrite Z.add_0_r.
    split_and!; [done|done|by left|done|].
    intros Hcol. by rewrite placeholders_app_free. }
  destruct (String.eqb_spec ty "IS NOT NULL") as [->|HIsNotNull].
  { cbn. exists (col +:+ " IS NOT NULL"), [], " IS NOT NULL". rewrite Z.add_0_r.
    split_and!; [done|done|by left|done|].
    intros Hcol. by rewrite placeholders_app_free. }
  destruct (String.eqb_spec ty "LIKE") as [->|HLike].
  { cbn in Hvals, Hmax |- *. destruct vals as [|v0 vals]; [simpl in Hvals; lia|].
    apply (fragment_unary col " ILIKE " v0 n); (done || lia). }
  destruct (String.eqb_spec ty ">") as [->|HGt].
  { cbn in Hvals, Hmax |- *. destruct vals as [|v0 vals]; [simpl in Hvals; lia|].
    apply (fragment_unary col " > " v0 n); (done || lia). }
  destruct (String.eqb_spec ty "<") as [->|HLt].
  { cbn in Hvals, Hmax |- *. destruct vals as [|v0 vals]; [simpl in Hvals; lia|].
    apply (fragment_unary col " < " v0 n); (done || lia). }
  destruct (String.eqb_spec ty ">=") as [->|HGte].
  { cbn in Hvals, Hmax |- *. destruct vals as [|v0 vals]; [simpl in Hvals; lia|].
    apply (fragment_unary col " >= " v0 n); (done || lia). }
  destruct (String.eqb_spec ty "<=") as [->|HLte].
  { cbn in Hvals, Hmax |- *. destruct vals as [|v0 vals]; [simpl in Hvals; lia|].
    apply (fragment_unary col " <= " v0 n); (done || lia). }
  destruct (String.eqb_spec ty "!=") as [->|HNeq].
  { cbn in Hvals, Hmax |- *. destruct vals as [|v0 vals]; [simpl in Hvals; lia|].
    apply (fragment_unary col " != " v0 n); (done || lia). }
  cbn. rewrite Z.add_0_r.
  exists EmptyString, [], EmptyString. by split_and!; [..|right| |].
Qed.

(** One entry of a where-map: a condition, or an equality. *)
Lemma where_entry (key : string) (val : GoValue) n :
  value_ok val → (1 ≤ n)%Z →
  (n + Z.of_nat (value_parameters val) ≤ max_int64)%Z →
  ∃ sql condArgs,
    match val with
    | VCond type values =>
        match ToSQL {| Conditions.Type_ := type; Values := values |}
                    (QuoteIdentifier key) n with
        | Some (sql, condArgs, argIndex') => Some (sql, condArgs, argIndex')
        | None => None
        end
    | _ => Some (QuoteIdentifier key +:+ " = $" +:+ itoa n, [val],
                 wrap64 (n + 1))
    end = Some (sql, condArgs, (n + Z.of_nat (value_parameters val))%Z) ∧
    length condArgs = value_parameters val ∧
    (dollar_free key →
     placeholders sql = numerals n (value_parameters val)).
Proof.
  intros Hok Hn Hmax.
  assert (Heq : (n + 1 ≤ max_int64)%Z → ∃ sql condArgs,
    Some (QuoteIdentifier key +:+ " = $" +:+ itoa n, [val], wrap64 (n + 1))
      = Some (sql, condArgs, (n + Z.of_nat 1)%Z) ∧
    length condArgs = 1 ∧
    (dollar_free key → placeholders sql = numerals n 1)).
  { intros Hmax1.
    rewrite wrap64_id by (unfold in_int64, min_int64, max_int64 in *; lia).
    eexists _, _. split_and!; [done|done|].
    intros Hkey.
    rewrite placeholders_app_free by by apply dollar_free_QuoteIdentifier.
    change (placeholders (" = " +:+ String "$" (itoa n)) = [itoa n]).
    rewrite placeholders_app_free by done.
    apply placeholders_dollar_end. lia. }
  destruct val as [| | | | | |type values|]; try (apply Heq; simpl in Hmax; lia).
  simpl in Hok, Hmax. apply Is_true_eq_true, Nat.leb_le in Hok.
  destruct (ToSQL_fragment {| Conditions.Type_ := type; Values := values |}
              (QuoteIdentifier key) n Hok Hn Hmax)
    as (sql & args & tail & -> & Hlen & _ & _ & Hph).
  exists sql, args. split_and!; [done|done|].
  intros Hkey. by apply Hph, dollar_free_QuoteIdentifier.
Qed.

Lemma where_map_spec (entries : Row) n :
  forallb (λ e, value_ok e.2) entries → (1 ≤ n)%Z →
  (n + Z.of_nat (sum_list (value_parameters <$> entries.*2)) ≤ max_int64)%Z →
  ∃ conditions args,
    where_map entries n
    = Some (conditions, args,
            (n + Z.of_nat (sum_list (value_parameters <$> entries.*2)))%Z) ∧
    length args = sum_list (value_parameters <$> entries.*2) ∧
    length conditions = length entries ∧
    (forallb (λ e, dollar_free e.1) entries →
     concat (placeholders <$> conditions)
     = numerals n (sum_list (value_parameters <$> entries.*2))).
Proof.
  revert n. induction entries as [|[key val] entries IH]; intros n Hok Hn Hmax.
  - exists [], []. simpl. rewrite Z.add_0_r. done.
  - simpl in Hok. apply andb_True in Hok as [Hval Hok].
    rewrite fmap_cons, fmap_cons, sum_list_cons in Hmax |- *.
    cbn [snd] in Hmax |- *.
    cbn [where_map].
    destruct (where_entry key val n Hval Hn) as (sql & condArgs & -> & Hlen & Hph);
      [lia|].
    destruct (IH (n + Z.of_nat (value_parameters val))%Z Hok) as
      (conditions & args & -> & Hlen' & Hconds & Hph'); [lia..|].
    exists (sql :: conditions), (condArgs ++ args).
    split_and!.
    + do 2 f_equal. lia.
    + rewrite length_app. lia.
    + simpl. lia.
    + intros [Hkey Hkeys]%andb_True. rewrite fmap_cons. simpl.
      rewrite numerals_app, Hph, Hph' by done. done.
Qed.

(** The parameters one where-argument binds. *)
Let arg_parameters (arg : GoValue) : nat :=
  match arg with
  | VMap entries => sum_list (value_parameters <$> entries.*2)
  | _ => 0
  end.

Lemma where_parameters_cons (arg : GoValue) (whereArgs : list GoValue) :
  where_parameters (arg :: whereArgs)
  = arg_parameters arg + where_parameters whereArgs.
Proof. done. Qed.

Lemma where_args_positional (arg : GoValue) (whereArgs : list GoValue) n :
  is_positional arg = true →
  where_args (arg :: whereArgs) n
  = match where_args whereArgs n with
    | Some (conditions, args, argIndex') =>
        Some (conditions, arg :: args, argIndex')
    | None => None
    end.
Proof. intros Hpos. by destruct arg. Qed.

Lemma where_args_spec (whereArgs : list GoValue) n :
  forallb where_values_ok whereArgs → (1 ≤ n)%Z →
  (n + Z.of_nat (where_parameters whereArgs) ≤ max_int64)%Z →
  ∃ conditions args,
    where_args whereArgs n
    = Some (conditions, args,
            (n + Z.of_nat (where_parameters whereArgs))%Z) ∧
    length args
    = where_parameters whereArgs + length (positional whereArgs) ∧
    (forallb where_arg_ok whereArgs →
     concat (placeholders <$> conditions)
     = numerals n (where_parameters whereArgs)) ∧
    (conditions = [] →
     ∀ arg, arg ∈ whereArgs → arg = VMap [] ∨ is_positional arg).
Proof.
  revert n. induction whereArgs as [|arg whereArgs IH]; intros n Hok Hn Hmax.
  - exists [], []. simpl. rewrite Z.add_0_r. split_and!; try done.
    intros _ arg Harg. by apply elem_of_nil in Harg.
  - simpl in Hok. apply andb_True in Hok as [Harg Hok].
    rewrite where_parameters_cons in Hmax |- *.
    unfold positional. rewrite filter_cons. fold (positional whereArgs).
    destruct (is_positional arg) eqn:Hpos.
    + rewrite where_args_positional by done.
      assert (arg_parameters arg = 0) as -> by by destruct arg.
      destruct (IH n Hok Hn) as (conditions & args & -> & Hlen & _ & Hnone);
        [lia|].
      exists conditions, (arg :: args). rewrite decide_True by done.
      split_and!; [done|simpl; lia| |].
      * intros [Ha _]%andb_True. by destruct arg.
      * intros Hc arg' [->|Hin]%elem_of_cons; [right; by rewrite Hpos|].
        by apply Hnone.
    + rewrite decide_False by (by intros []).
      destruct arg as [| | |fragment| |entries| |]; try discriminate Hpos.
      * cbn [where_args arg_parameters].
        destruct (IH n Hok Hn) as (conditions & args & -> & Hlen & Hph & Hnone);
          [simpl in Hmax; lia|].
        exists (fragment :: conditions), args.
        split_and!; [done|simpl; lia| |done].
        intros [Hfree Hall]%andb_True. rewrite fmap_cons. simpl.
        rewrite placeholders_free by done. by apply Hph.
      * cbn [where_args arg_parameters] in Hmax |- *. simpl in Harg.
        destruct (where_map_spec entries n Harg Hn) as
          (conditions1 & args1 & -> & Hlen1 & Hconds1 & Hph1); [lia|].
        destruct (IH (n + Z.of_nat (sum_list (value_parameters <$> entries.*2)))%Z
                    Hok) as (conditions & args & -> & Hlen & Hph & Hnone);
          [lia..|].
        exists (conditions1 ++ conditions), (args1 ++ args).
        split_and!.
        -- do 2 f_equal. lia.
        -- rewrite length_app. lia.
        -- intros [Hkeys Hall]%andb_True. rewrite fmap_app, concat_app.
           rewrite numerals_app, Hph by done. f_equal. apply Hph1.
           simpl in Hkeys. clear -Hkeys.
           induction entries as [|e entries IH]; [done|]. simpl in *.
           apply andb_True in Hkeys as [[He _]%andb_True Hkeys].
           apply andb_True. split; [done|by apply IH].
        -- intros [Hc1 Hc]%app_eq_nil arg' [->|Hin]%elem_of_cons;
             [|by apply Hnone].
           left. rewrite Hc1 in Hconds1. by destruct entries.
Qed.

End where_clause.

(** X14.  For where-arguments that are maps, with keys free of dollar signs
    and conditions that have the values they read, and texts free of dollar
    signs: from a counter [n ≥ 1], [buildWhereClause] returns a clause whose
    placeholders are [$n], [$(n+1)], ... in order across all the entries,
    one for each argument it returns, and leaves the counter after the
    last. *)
Theorem buildWhereClause_numbers_placeholders (whereArgs : list GoValue)
    (n : Z) :
  forallb where_arg_ok whereArgs →
  (1 ≤ n)%Z →
  (n + Z.of_nat (where_parameters whereArgs) ≤ max_int64)%Z →
  ∃ clause args,
    buildWhereClause whereArgs n
    = Some (clause, args, (n + Z.of_nat (where_parameters whereArgs))%Z) ∧
    length args = where_parameters whereArgs ∧
    placeholders clause = numerals n (length args).
Proof.
  intros Hok Hn Hmax.
  assert (Hvals : forallb where_values_ok whereArgs).
  { clear -Hok. induction whereArgs as [|arg whereArgs IH]; [done|].
    simpl in *. apply andb_True in Hok as [Harg Hok].
    apply andb_True. split; [|by apply IH].
    destruct arg as [| | | | |entries| |]; try done. simpl in *.
    clear -Harg. induction entries as [|e entries IH]; [done|]. simpl in *.
    apply andb_True in Harg as [[_ He]%andb_True Harg].
    apply andb_True. split; [done|by apply IH]. }
  assert (Hpos : positional whereArgs = []).
  { clear -Hok. induction whereArgs as [|arg whereArgs IH]; [done|].
    simpl in Hok. apply andb_True in Hok as [Harg Hok].
    unfold positional. rewrite filter_cons.
    destruct arg; try done; rewrite decide_False by (by intros []);
      by apply IH. }
  destruct (where_args_spec whereArgs n Hvals Hn Hmax) as
    (conditions & args & Heq & Hlen & Hph & _).
  rewrite Hpos in Hlen. simpl in Hlen. rewrite Nat.add_0_r in Hlen.
  unfold buildWhereClause. rewrite Heq.
  destruct conditions as [|c conditions].
  - exists EmptyString, args. split_and!; [done|done|].
    rewrite Hlen, <- (Hph Hok). done.
  - eexists _, args. split_and!; [done|done|].
    rewrite placeholders_app_free by done.
    rewrite (placeholders_Join _ " " "AND ") by done.
    by rewrite Hlen, <- (Hph Hok).
Qed.

Lemma buildWhereClause_numbers_placeholders_witness :
  ∃ clause args,
    buildWhereClause
      [VMap [("age", VCond ConditionBetween [VInt 20; VInt 30]);
             ("name", VStr "alice")];
       VStr "active"] 4
    = Some (clause, args, 7%Z) ∧
    length args = 3 ∧
    placeholders clause = ["4"; "5"; "6"].
Proof.
  destruct (buildWhereClause_numbers_placeholders
              [VMap [("age", VCond ConditionBetween [VInt 20; VInt 30]);
                     ("name", VStr "alice")];
               VStr "active"] 4) as (clause & args & H1 & H2 & H3);
    [done|lia|by vm_compute|].
  exists clause, args. split_and!; [exact H1|exact H2|].
  rewrite H3, H2. reflexivity.
Defined.

(** X15.  Texts and positional values among the where-arguments never move
    the counter: whatever they are, and whatever placeholders the texts
    hold, [buildWhereClause] leaves the counter at [n] plus the parameters
    of the maps alone, and returns as many arguments as the maps bind and
    there are positional values.  The clause is empty only when every
    argument is an empty map or a positional value.  A map that follows the
    text [id = $1] and its value is numbered from [$n] again. *)
Theorem buildWhereClause_counts_maps_only (whereArgs : list GoValue) (n : Z) :
  forallb where_values_ok whereArgs →
  (1 ≤ n)%Z →
  (n + Z.of_nat (where_parameters whereArgs) ≤ max_int64)%Z →
  ∃ clause args,
    buildWhereClause whereArgs n
    = Some (clause, args, (n + Z.of_nat (where_parameters whereArgs))%Z) ∧
    length args
    = where_parameters whereArgs + length (positional whereArgs) ∧
    (clause = EmptyString →
     ∀ arg, arg ∈ whereArgs → arg = VMap [] ∨ is_positional arg).
Proof.
  intros Hvals Hn Hmax.
  destruct (where_args_spec whereArgs n Hvals Hn Hmax) as
    (conditions & args & Heq & Hlen & _ & Hnone).
  unfold buildWhereClause. rewrite Heq.
  destruct conditions as [|c conditions].
  - exists EmptyString, args. split_and!; [done|done|]. intros _. by apply Hnone.
  - eexists _, args. split_and!; [done|done|]. intros Hc. discriminate Hc.
Qed.

Lemma buildWhereClause_counts_maps_only_witness :
  ∃ clause args,
    buildWhereClause [VStr "id = $1"; VInt 5; VMap [("name", VStr "John")]] 1
    = Some (clause, args, 2%Z) ∧
    length args = 2 ∧
    (clause = EmptyString →
     ∀ arg, arg ∈ [VStr "id = $1"; VInt 5; VMap [("name", VStr "John")]] →
            arg = VMap [] ∨ is_positional arg).
Proof.
  apply (buildWhereClause_counts_maps_only
           [VStr "id = $1"; VInt 5; VMap [("name", VStr "John")]] 1);
    [done|lia|by vm_compute].
Defined.

(** The text [id = $1] with its value, then a map: the entry of the map is
    numbered [$1] as well. *)
Example buildWhereClause_text_then_map :
  buildWhereClause [VStr "id = $1"; VInt 5; VMap [("name", VStr "John")]] 1
  = Some (" WHERE id = $1 AND " +:+ QuoteIdentifier "name" +:+ " = $1",
          [VInt 5; VStr "John"], 2%Z).
Proof. reflexivity. Qed.

(** ** The statements and their parameters *)

Section statements.

Variable FormatV : GoValue → string.
Variable Marshal : Row → result (list Byte.byte).

Implicit Types (t : Table) (ds : DataStore) (s rest sep : string) (n : Z).

Lemma dollar_free_itoa n : (0 ≤ n)%Z → dollar_free (itoa n).
Proof. intros Hn. by apply all_digits_dollar_free, all_digits_itoa. Qed.

Lemma dollar_free_Join (l : list string) sep :
  Forall (λ s, dollar_free s) l → dollar_free sep → dollar_free (Join l sep).
Proof.
  intros Hl Hsep. unfold Join. induction Hl as [|s l Hs Hl IH]; [done|].
  destruct l as [|s' l]; [done|].
  change (dollar_free (s +:+ sep +:+ String.concat sep (s' :: l))).
  by repeat apply dollar_free_app.
Qed.

(** What follows a where-clause in a statement is not read as the digits of
    its last placeholder. *)
Lemma buildWhereClause_stops (whereArgs : list GoValue) n clause args n' rest :
  buildWhereClause whereArgs n = Some (clause, args, n') →
  no_leading_digit rest → no_leading_digit (clause +:+ rest).
Proof.
  unfold buildWhereClause. intros Hb Hrest.
  destruct (where_args whereArgs n) as [[[conditions args'] n'']|]; [|done].
  destruct conditions; by simplify_eq.
Qed.

Lemma validColumn_dollar_free t col :
  names_dollar_free t → validColumn t col → dollar_free col.
Proof.
  intros [_ Hcols]%andb_True Hcol. unfold validColumn in Hcol.
  apply bool_decide_unpack, list_elem_of_fmap in Hcol as (c & -> & Hc).
  induction (Columns t) as [|c' cols IH]; [by apply elem_of_nil in Hc|].
  simpl in Hcols. apply andb_True in Hcols as [Hc' Hcols].
  apply elem_of_cons in Hc as [->|Hc]; [done|by apply IH].
Qed.

Lemma valid_entries_cons t col val data :
  valid_entries t ((col, val) :: data)
  = if validColumn t col then (col, val) :: valid_entries t data
    else valid_entries t data.
Proof.
  unfold valid_entries. rewrite filter_cons. simpl.
  destruct (validColumn t col); [by rewrite decide_True|].
  by rewrite decide_False by (by intros []).
Qed.

(** The SET clause of [Update]: one part and one argument for each entry
    that names a column, numbered from the counter on. *)
Lemma set_parts_spec t data n :
  names_dollar_free t → (1 ≤ n)%Z →
  (n + Z.of_nat (length (valid_entries t data)) ≤ max_int64)%Z →
  ∃ setParts,
    set_parts t data n
    = (setParts, (valid_entries t data).*2,
       (n + Z.of_nat (length (valid_entries t data)))%Z) ∧
    length setParts = length (valid_entries t data) ∧
    concat (placeholders <$> setParts)
    = numerals n (length (valid_entries t data)).
Proof.
  intros Ht. revert n.
  induction data as [|[col val] data IH]; intros n Hn Hmax.
  - exists []. simpl. by rewrite Z.add_0_r.
  - rewrite valid_entries_cons in Hmax |- *. cbn [set_parts].
    destruct (validColumn t col) eqn:Hcol; [|by apply IH].
    cbn [length] in Hmax |- *.
    rewrite wrap64_id by (unfold in_int64, min_int64, max_int64 in *; lia).
    destruct (IH (n + 1)%Z) as (setParts & -> & Hlen & Hph); [lia..|].
    exists ((QuoteIdentifier col +:+ " = $" +:+ itoa n) :: setParts).
    split_and!.
    + rewrite fmap_cons. simpl. f_equal. lia.
    + simpl. by rewrite Hlen.
    + rewrite fmap_cons. cbn [concat numerals]. rewrite Hph.
      change (itoa n :: ?l) with ([itoa n] ++ l). f_equal.
      rewrite placeholders_app_free
        by (apply dollar_free_QuoteIdentifier,
              (validColumn_dollar_free t); [done|by rewrite Hcol]).
      change (placeholders (" = " +:+ String "$" (itoa n)) = [itoa n]).
      rewrite placeholders_app_free by done.
      apply placeholders_dollar_end. lia.
Qed.

Lemma write_through_sends t ds kind before sql args what :
  acquire ds = None →
  events (write_through FormatV Marshal t ds kind before sql args what)
  = [EvAcquire; EvQuery sql args].
Proof.
  intros Hacq. unfold write_through. rewrite Hacq.
  destruct (query ds sql args) as [|rows]; [done|].
  destruct (fetchRowsResult rows); [|done].
  by destruct (if Cached t then _ else _).
Qed.

End statements.

(** X16.  On a table whose name and column names hold no dollar sign, with
    where-arguments as in X14 (maps and texts free of dollar signs, no
    positional value), data with an entry that names a column, and a
    connection acquired: [Update] sends one statement; the placeholders of
    its SET clause are numbered from [$1] and those of its where-clause
    after them, in order and without a gap, and it sends as many parameters
    as the statement has placeholders: first the values of the entries of
    [data] that name a column, then the arguments of the where-clause. *)
Theorem Update_binds_every_placeholder
    (FormatV : GoValue → string) (Marshal : Row → result (list Byte.byte))
    (t : Table) (ds : DataStore) (before : list Z) (data : Row)
    (whereArgs : list GoValue) :
  names_dollar_free t →
  forallb where_arg_ok whereArgs →
  (1 + Z.of_nat (length (valid_entries t data) + where_parameters whereArgs)
   ≤ max_int64)%Z →
  valid_entries t data ≠ [] →
  acquire ds = None →
  ∃ out sql params,
    Update FormatV Marshal t ds before data whereArgs = Some out ∧
    events out = [EvAcquire; EvQuery sql params] ∧
    placeholders sql = numerals 1 (length params) ∧
    length params
    = length (valid_entries t data) + where_parameters whereArgs ∧
    take (length (valid_entries t data)) params = (valid_entries t data).*2.
Proof.
  intros Ht Hok Hmax Hvalid Hacq. unfold Update.
  destruct data as [|entry data]; [done|].
  set (data' := entry :: data) in *.
  destruct (set_parts_spec t data' 1 Ht) as (setParts & -> & Hlen & Hph);
    [lia..|].
  destruct setParts as [|part setParts].
  { destruct (valid_entries t data'); [done|discriminate Hlen]. }
  set (parts := part :: setParts) in *.
  destruct (buildWhereClause_numbers_placeholders whereArgs
              (1 + Z.of_nat (length (valid_entries t data')))%Z Hok)
    as (clause & args & Hb & Hargs & Hclause); [lia..|].
  rewrite Hb. eexists _, _, _. split; [done|].
  split; [by apply write_through_sends|]. split_and!.
  - unfold updateSQL.
    apply andb_True in Ht as Ht'. destruct Ht' as [Hname _].
    rewrite (placeholders_app_free "UPDATE ") by done.
    rewrite (placeholders_app_free (Name t)) by done.
    rewrite (placeholders_app_free " SET ") by done.
    rewrite placeholders_app_stops
      by by apply (buildWhereClause_stops _ _ _ _ _ _ Hb).
    rewrite (placeholders_Join _ "," " ") by done.
    rewrite placeholders_app_stops by done.
    rewrite (placeholders_free " RETURNING *"), app_nil_r by done.
    rewrite Hph, Hclause, length_app, length_fmap, numerals_app. done.
  - rewrite length_app, length_fmap. lia.
  - rewrite take_app_length'; [done|by rewrite length_fmap].
Qed.

Lemma Update_binds_every_placeholder_witness :
  ∃ out sql params,
    Update Examples.format_scalar Examples.encode_row Examples.users
      (Examples.store 26) [] [("age", VInt 26); ("nickname", VStr "Al")]
      [VMap [("id", VInt 1)]] = Some out ∧
    events out = [EvAcquire; EvQuery sql params] ∧
    placeholders sql = numerals 1 (length params) ∧
    length params = 2 ∧
    take 1 params = [VInt 26].
Proof.
  apply (Update_binds_every_placeholder Examples.format_scalar
           Examples.encode_row Examples.users (Examples.store 26) []
           [("age", VInt 26); ("nickname", VStr "Al")]
           [VMap [("id", VInt 1)]]);
    [done|done|by vm_compute|by vm_compute|done].
Defined.

(** The call of the documentation of [Update], with a text, its value and
    no map: the SET clause and the text both use [$1], and two parameters
    are sent. *)
Example Update_text_filter_repeats_placeholder :
  events <$> Update Examples.format_scalar Examples.encode_row Examples.users
               (Examples.store 27) [] [("age", VInt 27)]
               [VStr "id = $1"; VInt 5]
  = Some [EvAcquire;
          EvQuery ("UPDATE users SET " +:+ QuoteIdentifier "age"
                     +:+ " = $1 WHERE id = $1 RETURNING *")
                  [VInt 27; VInt 5]].
Proof. reflexivity. Qed.

(** X17.  On a table whose name holds no dollar sign, with where-arguments
    as in X14 (maps and texts free of dollar signs, no positional value) and
    a connection acquired: [FetchMany] and [Delete] each send one statement,
    with the placeholders [$1], [$2], ... in order, one for each parameter
    sent with it, and the parameters are as many as the maps bind. *)
Theorem FetchMany_Delete_bind_every_placeholder
    (FormatV : GoValue → string) (Marshal : Row → result (list Byte.byte))
    (t : Table) (ds : DataStore) (before : list Z)
    (whereArgs : list GoValue) :
  dollar_free (Name t) →
  forallb where_arg_ok whereArgs →
  (1 + Z.of_nat (where_parameters whereArgs) ≤ max_int64)%Z →
  acquire ds = None →
  (∃ out sql params,
     FetchMany t ds whereArgs = Some out ∧
     events out = [EvAcquire; EvQuery sql params] ∧
     placeholders sql = numerals 1 (length params) ∧
     length params = where_parameters whereArgs) ∧
  (∃ out sql params,
     Tables.Delete FormatV Marshal t ds before whereArgs = Some out ∧
     events out = [EvAcquire; EvQuery sql params] ∧
     placeholders sql = numerals 1 (length params) ∧
     length params = where_parameters whereArgs).
Proof.
  intros Hname Hok Hmax Hacq.
  destruct (buildWhereClause_numbers_placeholders whereArgs 1 Hok)
    as (clause & args & Hb & Hargs & Hclause); [lia..|].
  split.
  - unfold FetchMany. rewrite Hb, Hacq.
    assert (Hsql : placeholders (selectSQL t clause) = numerals 1 (length args)).
    { unfold selectSQL.
      rewrite (placeholders_app_free "SELECT * FROM ") by done.
      by rewrite (placeholders_app_free (Name t)) by done. }
    destruct (query ds _ _) as [|rows]; [by eexists _, _, _|].
    destruct (fetchRowsResult rows); by eexists _, _, _.
  - unfold Tables.Delete. rewrite Hb. eexists _, _, _. split; [done|].
    split; [by apply write_through_sends|]. split; [|done].
    unfold deleteSQL.
    rewrite (placeholders_app_free "DELETE FROM ") by done.
    rewrite (placeholders_app_free (Name t)) by done.
    rewrite placeholders_app_stops by done.
    by rewrite (placeholders_free " RETURNING *"), app_nil_r by done.
Qed.

Lemma FetchMany_Delete_bind_every_placeholder_witness :
  (∃ out sql params,
     FetchMany Examples.users (Examples.store 25)
       [VMap [("age", VCond ConditionBetween [VInt 20; VInt 30])]] = Some out ∧
     events out = [EvAcquire; EvQuery sql params] ∧
     placeholders sql = numerals 1 (length params) ∧
     length params = 2) ∧
  (∃ out sql params,
     Tables.Delete Examples.format_scalar Examples.encode_row Examples.users
       (Examples.store 25) []
       [VMap [("age", VCond ConditionBetween [VInt 20; VInt 30])]] = Some out ∧
     events out = [EvAcquire; EvQuery sql params] ∧
     placeholders sql = numerals 1 (length params) ∧
     length params = 2).
Proof.
  apply (FetchMany_Delete_bind_every_placeholder Examples.format_scalar
           Examples.encode_row Examples.users (Examples.store 25) []
           [VMap [("age", VCond ConditionBetween [VInt 20; VInt 30])]]);
    [done|done|by vm_compute|done].
Defined.

Section insert_statements.

Implicit Types (t : Table) (ds : DataStore) (s rest sep : string) (n : Z).

Lemma valid_entries_idemp t data :
  valid_entries t (valid_entries t data) = valid_entries t data.
Proof.
  induction data as [|[col val] data IH]; [done|].
  rewrite valid_entries_cons. destruct (validColumn t col) eqn:Hcol; [|done].
  by rewrite valid_entries_cons, Hcol, IH.
Qed.

Lemma valid_entries_dollar_free t data :
  names_dollar_free t →
  Forall (λ s, dollar_free s) (QuoteIdentifier <$> (valid_entries t data).*1).
Proof.
  intros Ht. induction data as [|[col val] data IH]; [by constructor|].
  rewrite valid_entries_cons. destruct (validColumn t col) eqn:Hcol; [|done].
  rewrite !fmap_cons. constructor; [|done].
  apply dollar_free_QuoteIdentifier, (validColumn_dollar_free t); [done|].
  simpl. by rewrite Hcol.
Qed.

(** The placeholders of a list of [$n], [$(n+1)], ... joined by commas and
    followed by a text that holds none. *)
Lemma placeholders_run n (k : nat) rest :
  (1 ≤ n)%Z → no_leading_digit rest → dollar_free rest →
  placeholders
    (Join ((λ i, "$" +:+ itoa i)
             <$> ((λ i : nat, n + Z.of_nat i)%Z <$> seq 0 k)) ", " +:+ rest)
  = numerals n k.
Proof.
  intros Hn Hstops Hfree.
  rewrite placeholders_join;
    [|apply Forall_forall; intros i [j [-> _]]%list_elem_of_fmap; lia
     |done|done].
  by rewrite numerals_fmap.
Qed.

Lemma row_placeholders_spec (rawColumns : list string) (data : Row) n :
  (1 ≤ n)%Z → (n + Z.of_nat (length rawColumns) ≤ max_int64)%Z →
  row_placeholders rawColumns data n
  = ((λ i, "$" +:+ itoa i)
       <$> ((λ i : nat, n + Z.of_nat i)%Z <$> seq 0 (length rawColumns)),
     map_index data <$> rawColumns,
     (n + Z.of_nat (length rawColumns))%Z).
Proof.
  revert n. induction rawColumns as [|col cols IH]; intros n Hn Hmax.
  - simpl. do 2 f_equal. lia.
  - cbn [row_placeholders length] in Hmax |- *.
    rewrite wrap64_id by (unfold in_int64, min_int64, max_int64 in *; lia).
    rewrite IH by lia. cbn [seq fmap list_fmap].
    f_equal; [f_equal|lia].
    f_equal; [do 2 f_equal; lia|].
    rewrite <- seq_shift, <- !list_fmap_compose.
    apply list_fmap_ext. intros _ i _. simpl. do 2 f_equal. lia.
Qed.

Lemma value_placeholders_spec (rawColumns : list string)
    (dataList : list Row) n :
  (1 ≤ n)%Z →
  (n + Z.of_nat (length dataList * length rawColumns) ≤ max_int64)%Z →
  ∃ valuePlaceholders,
    value_placeholders rawColumns dataList n
    = (valuePlaceholders,
       concat ((λ data, map_index data <$> rawColumns) <$> dataList),
       (n + Z.of_nat (length dataList * length rawColumns))%Z) ∧
    concat (placeholders <$> valuePlaceholders)
    = numerals n (length dataList * length rawColumns).
Proof.
  revert n. induction dataList as [|data dataList IH]; intros n Hn Hmax.
  - exists []. simpl. by rewrite Z.add_0_r.
  - cbn [value_placeholders length Nat.mul] in Hmax |- *.
    rewrite row_placeholders_spec by lia.
    destruct (IH (n + Z.of_nat (length rawColumns))%Z) as (vps & -> & Hph);
      [lia..|].
    eexists. split.
    + rewrite fmap_cons. cbn [concat]. f_equal. lia.
    + rewrite fmap_cons. cbn [concat]. rewrite Hph, numerals_app. f_equal.
      rewrite (placeholders_app_free "(") by done.
      by apply placeholders_run.
Qed.

Lemma length_row_values (rawColumns : list string) (dataList : list Row) :
  length (concat ((λ data, map_index data <$> rawColumns) <$> dataList))
  = length dataList * length rawColumns.
Proof.
  induction dataList as [|data dataList IH]; [done|].
  rewrite fmap_cons. cbn [concat]. rewrite length_app, length_fmap, IH. done.
Qed.

End insert_statements.

(** X18.  [Insert] sends the entries of [data] that name a column of the
    table and nothing else: it behaves on [data] as on [data] without the
    other entries.  When no entry is left it returns an error without
    contacting the data store.  Otherwise it acquires a connection and, when
    it gets one, sends one statement with the values of those entries, in
    their order; when names hold no dollar sign, the placeholders of the
    statement are [$1], [$2], ... in order, one for each value. *)
Theorem Insert_sends_defined_columns_only (t : Table) (ds : DataStore)
    (data : Row) :
  names_dollar_free t →
  Insert t ds data = Insert t ds (valid_entries t data) ∧
  (valid_entries t data = [] →
   Insert t ds data
   = Some (mkOutcome (Err "no valid columns provided for insert") t [] [])) ∧
  (valid_entries t data ≠ [] →
   ∃ out sql,
     Insert t ds data = Some out ∧
     events out
     = EvAcquire ::
       match acquire ds with
       | None => [EvQuery sql (valid_entries t data).*2]
       | Some _ => []
       end ∧
     placeholders sql = numerals 1 (length (valid_entries t data))).
Proof.
  intros Ht. unfold Insert. rewrite valid_entries_idemp.
  assert (Hsql : placeholders (insertSQL t (valid_entries t data))
                 = numerals 1 (length (valid_entries t data))).
  { unfold insertSQL. apply andb_True in Ht as Ht'. destruct Ht' as [Hname _].
    rewrite (placeholders_app_free "INSERT INTO ") by done.
    rewrite (placeholders_app_free (Name t)) by done.
    rewrite (placeholders_app_free " (") by done.
    rewrite (placeholders_app_free (Join _ ", ")).
    2:{ apply dollar_free_Join; [|done].
        pose proof (valid_entries_dollar_free t data Ht) as H.
        by rewrite <- list_fmap_compose in H. }
    rewrite (placeholders_app_free ") VALUES (") by done.
    rewrite !length_fmap.
    assert ((λ i : nat, "$" +:+ itoa (Z.of_nat i + 1))
              <$> seq 0 (length (valid_entries t data))
            = (λ i, "$" +:+ itoa i)
                <$> ((λ i : nat, 1 + Z.of_nat i)%Z
                       <$> seq 0 (length (valid_entries t data)))) as ->.
    { rewrite <- list_fmap_compose. apply list_fmap_ext.
      intros _ i _. simpl. do 2 f_equal. lia. }
    by apply placeholders_run. }
  split; [done|].
  destruct (valid_entries t data) as [|entry entries]; [done|].
  split; [done|]. intros _.
  destruct (acquire ds); [by eexists _, _|].
  destruct (query ds _ _) as [|[|[row|err] rows]]; by eexists _, _.
Qed.

Lemma Insert_sends_defined_columns_only_witness :
  Insert Examples.users (Examples.store 25)
    [("name", VStr "Alice"); ("nickname", VStr "Al"); ("age", VInt 25)]
  = Insert Examples.users (Examples.store 25)
      [("name", VStr "Alice"); ("age", VInt 25)] ∧
  ∃ out sql,
    Insert Examples.users (Examples.store 25)
      [("name", VStr "Alice"); ("nickname", VStr "Al"); ("age", VInt 25)]
    = Some out ∧
    events out = [EvAcquire; EvQuery sql [VStr "Alice"; VInt 25]] ∧
    placeholders sql = ["1"; "2"].
Proof.
  destruct (Insert_sends_defined_columns_only Examples.users
              (Examples.store 25)
              [("name", VStr "Alice"); ("nickname", VStr "Al");
               ("age", VInt 25)] I) as (Hsame & _ & Hsent).
  split; [exact Hsame|]. apply Hsent. discriminate.
Defined.

(** X19.  [InsertMany] takes its columns from the first row alone: the
    entries of the first row that name a column of the table.  When there
    is such an entry and a connection is acquired, it sends one statement:
    for every row one value for each of these columns, in their order, the
    nil value where the row has no such entry, and nothing for the other
    entries of the row; on a table whose names hold no dollar sign the
    statement numbers its placeholders [$1], [$2], ... across the rows, one
    for each value sent. *)
Theorem InsertMany_columns_of_first_row (t : Table) (ds : DataStore)
    (first : Row) (others : list Row) :
  names_dollar_free t →
  (1 + Z.of_nat (length (first :: others)
                 * length (valid_entries t first)) ≤ max_int64)%Z →
  valid_entries t first ≠ [] →
  acquire ds = None →
  ∃ sql params,
    events (InsertMany t ds (first :: others))
    = [EvAcquire; EvQuery sql params] ∧
    params
    = concat ((λ data, map_index data <$> (valid_entries t first).*1)
                <$> (first :: others)) ∧
    length params = length (first :: others) * length (valid_entries t first) ∧
    placeholders sql = numerals 1 (length params).
Proof.
  intros Ht Hmax Hvalid Hacq. unfold InsertMany. cbv beta iota zeta.
  assert (Hcols : length (valid_entries t first).*1
                  = length (valid_entries t first)) by apply length_fmap.
  pose proof (valid_entries_dollar_free t first Ht) as Hfree.
  pose proof (length_row_values (valid_entries t first).*1 (first :: others))
    as Hlen.
  rewrite Hcols in Hlen.
  destruct ((valid_entries t first).*1) as [|col cols].
  { destruct (valid_entries t first); [done|discriminate Hcols]. }
  cbv beta iota.
  destruct (value_placeholders_spec (col :: cols) (first :: others) 1)
    as (vps & Hvp & Hph); [lia|rewrite Hcols; lia|].
  rewrite Hvp, Hacq. rewrite Hcols in Hph.
  exists (insertManySQL t (col :: cols) vps). eexists.
  split_and!; [|done|done|].
  - destruct (query ds _ _) as [|rows]; [done|].
    by destruct (fetchRowsResult rows) as [[|row results]|].
  - rewrite Hlen. unfold insertManySQL.
    apply andb_True in Ht as Ht'. destruct Ht' as [Hname _].
    rewrite (placeholders_app_free "INSERT INTO ") by done.
    rewrite (placeholders_app_free (Name t)) by done.
    rewrite (placeholders_app_free " (") by done.
    rewrite (placeholders_app_free (Join _ ", "))
      by by apply dollar_free_Join.
    rewrite (placeholders_app_free ") VALUES ") by done.
    rewrite placeholders_app_stops by done.
    rewrite (placeholders_Join _ "," " ") by done.
    by rewrite (placeholders_free " RETURNING *"), app_nil_r, Hph by done.
Qed.

Lemma InsertMany_columns_of_first_row_witness :
  ∃ sql params,
    events (InsertMany Examples.users (Examples.store 25)
              [[("name", VStr "Alice"); ("age", VInt 25)];
               [("name", VStr "Bob"); ("id", VInt 7)]])
    = [EvAcquire; EvQuery sql params] ∧
    params = [VStr "Alice"; VInt 25; VStr "Bob"; VNil] ∧
    length params = 4 ∧
    placeholders sql = numerals 1 (length params).
Proof.
  apply (InsertMany_columns_of_first_row Examples.users (Examples.store 25)
           [("name", VStr "Alice"); ("age", VInt 25)]
           [[("name", VStr "Bob"); ("id", VInt 7)]]);
    [done|by vm_compute|by vm_compute|done].
Defined.

(** X20.  [GetPage] asks for the rows of one page: for a page and a limit
    that are positive, with a product the type [int] holds, the statement
    ends in [LIMIT limit OFFSET (page - 1) * limit]; the limit and the
    offset are written into the statement, so that, with where-arguments as
    in X14 and a table name, a column and a direction free of dollar signs,
    its placeholders are [$1], [$2], ... of the where-clause alone, one for
    each parameter sent.
    A page or a limit that is not positive stands for 1 and for 10, an
    empty column and an empty direction for [id] and [DESC]. *)
Theorem GetPage_pages (t : Table) (ds : DataStore) (page limit : Z)
    (orderBy order : string) (whereArgs : list GoValue) :
  (1 ≤ page)%Z → (1 ≤ limit)%Z → ((page - 1) * limit ≤ max_int64)%Z →
  dollar_free (Name t) → dollar_free orderBy → dollar_free order →
  orderBy ≠ EmptyString → order ≠ EmptyString →
  forallb where_arg_ok whereArgs →
  (1 + Z.of_nat (where_parameters whereArgs) ≤ max_int64)%Z →
  (∃ clause params n,
     buildWhereClause whereArgs 1 = Some (clause, params, n) ∧
     GetPage t ds page limit orderBy order whereArgs
     = Some (read_rows t ds
               (getPageSQL t clause orderBy order limit ((page - 1) * limit))
               params "GetPage") ∧
     placeholders
       (getPageSQL t clause orderBy order limit ((page - 1) * limit))
     = numerals 1 (length params)) ∧
  (∀ page', (page' ≤ 0)%Z →
     GetPage t ds page' limit orderBy order whereArgs
     = GetPage t ds 1 limit orderBy order whereArgs) ∧
  (∀ limit', (limit' ≤ 0)%Z →
     GetPage t ds page limit' orderBy order whereArgs
     = GetPage t ds page 10 orderBy order whereArgs) ∧
  GetPage t ds page limit EmptyString EmptyString whereArgs
  = GetPage t ds page limit "id" "DESC" whereArgs.
Proof.
  intros Hpage Hlimit Hprod Hname HorderBy Horder HorderBy' Horder' Hok Hmax.
  split_and!.
  - destruct (buildWhereClause_numbers_placeholders whereArgs 1 Hok)
      as (clause & args & Hb & Hargs & Hclause); [lia..|].
    exists clause, args, (1 + Z.of_nat (where_parameters whereArgs))%Z.
    split_and!; [done| |].
    + unfold GetPage. rewrite Hb.
      rewrite !bool_decide_eq_false_2 by lia.
      rewrite !decide_False by done.
      assert (wrap64 (page - 1) = (page - 1)%Z) as ->.
      { apply wrap64_id. unfold in_int64, min_int64, max_int64 in *. nia. }
      rewrite wrap64_id; [done|].
      unfold in_int64, min_int64, max_int64 in *. nia.
    + unfold getPageSQL.
      rewrite (placeholders_app_free "SELECT * FROM ") by done.
      rewrite (placeholders_app_free (Name t)) by done.
      rewrite placeholders_app_stops by done.
      rewrite Hclause.
      rewrite (placeholders_free (" ORDER BY " +:+ _)), app_nil_r; [done|].
      repeat apply dollar_free_app; try done; apply dollar_free_itoa; nia.
  - intros page' Hpage'. unfold GetPage.
    by rewrite (bool_decide_eq_true_2 (page' ≤ 0)%Z) by lia.
  - intros limit' Hlimit'. unfold GetPage.
    by rewrite (bool_decide_eq_true_2 (limit' ≤ 0)%Z) by lia.
  - done.
Qed.

Lemma GetPage_pages_witness :
  ∃ clause params n,
    buildWhereClause [VMap [("age", VCond ConditionGte [VInt 18])]] 1
    = Some (clause, params, n) ∧
    GetPage Examples.users (Examples.store 25) 3 20 "name" "ASC"
      [VMap [("age", VCond ConditionGte [VInt 18])]]
    = Some (read_rows Examples.users (Examples.store 25)
              (getPageSQL Examples.users clause "name" "ASC" 20 40)
              params "GetPage") ∧
    placeholders (getPageSQL Examples.users clause "name" "ASC" 20 40)
    = numerals 1 (length params).
Proof.
  apply (GetPage_pages Examples.users (Examples.store 25) 3 20 "name" "ASC"
           [VMap [("age", VCond ConditionGte [VInt 18])]]);
    (done || lia || by vm_compute).
Defined.

(** ** The schema of a table *)

Section schema.

Implicit Types (t : Table) (col : Column) (answers : nat → ExecOutcome).

Lemma with_Columns_same t : with_Columns t (Columns t) = t.
Proof. by destruct t. Qed.

Lemma missing_columns_cons col columns (db_columns : list string) :
  missing_columns (col :: columns) db_columns
  = if columnExists col db_columns then missing_columns columns db_columns
    else col :: missing_columns columns db_columns.
Proof.
  unfold missing_columns. rewrite filter_cons.
  by destruct (columnExists col db_columns).
Qed.

Lemma missing_columns_sub columns (db_columns : list string) col :
  col ∈ missing_columns columns db_columns →
  col ∈ columns ∧ ColumnName col ∉ db_columns.
Proof.
  unfold missing_columns. intros [Hmiss Hin]%list_elem_of_filter.
  split; [done|]. intros Hdb. apply negb_True in Hmiss. apply Hmiss.
  unfold columnExists. apply Is_true_true, existsb_exists.
  exists (ColumnName col). split; [by apply list_elem_of_In|].
  by apply bool_decide_eq_true.
Qed.


(** The loop of [createCurrentColumn]: the columns it appends to the table
    and the statements it sends. *)
Lemma add_missing_spec columns (db_columns : list string) answers (i : nat) t :
  ∃ added sent,
    add_missing columns db_columns answers i t
    = (with_Columns t (Columns t ++ added), sent) ∧
    added `sublist_of` missing_columns columns db_columns ∧
    sent `sublist_of` (addColumnSQL t <$> missing_columns columns db_columns) ∧
    ((∀ j, answers j = ExecOk) →
     added = missing_columns columns db_columns ∧
     sent = addColumnSQL t <$> missing_columns columns db_columns).
Proof.
  revert i t. induction columns as [|col columns IH]; intros i t.
  - exists [], []. simpl. by rewrite app_nil_r, with_Columns_same.
  - rewrite missing_columns_cons. cbn [add_missing].
    destruct (columnExists col db_columns); [by apply IH|]. cbn [negb].
    assert ({| ColumnName := ColumnName col; DataType := DataType col |} = col)
      as -> by by destruct col.
    destruct (answers i) as [|err|] eqn:Hanswer; cbn [addColumn].
    + destruct (IH (S i) t) as (added & sent & -> & Hadded & Hsent & Hall).
      exists added, sent. split_and!; [done|by constructor| |].
      * rewrite fmap_cons. by constructor.
      * intros Hok. by rewrite Hok in Hanswer.
    + destruct (IH (S i) t) as (added & sent & -> & Hadded & Hsent & Hall).
      exists added, (addColumnSQL t col :: sent).
      split_and!; [done|by constructor| |].
      * rewrite fmap_cons. by constructor.
      * intros Hok. by rewrite Hok in Hanswer.
    + destruct (IH (S i) (with_Columns t (Columns t ++ [col])))
        as (added & sent & -> & Hadded & Hsent & Hall).
      exists (col :: added), (addColumnSQL t col :: sent). split_and!.
      * cbn [Columns with_Columns]. by rewrite <- app_assoc.
      * by constructor.
      * rewrite fmap_cons. by constructor.
      * intros Hok. destruct (Hall Hok) as [-> ->]. by rewrite fmap_cons.
Qed.






End schema.

(** X21.  Whatever the data store answers to the statements,
    [createCurrentColumn] returns [(true, nil)] once the columns of the
    database are read.  It sends ADD COLUMN statements only for defined
    columns that the database does not have, in their order, and appends to
    the columns of the table those it could add: when every statement
    succeeds, each column the database lacked is in the columns of the table
    twice afterwards. *)
Theorem createCurrentColumn_adds_missing_columns (t : Table)
    (db_columns : list string) (answers : nat → ExecOutcome) :
  ∃ added sent,
    createCurrentColumn t (Ok db_columns) answers
    = (true, None, with_Columns t (Columns t ++ added), sent) ∧
    added `sublist_of` missing_columns (Columns t) db_columns ∧
    sent `sublist_of`
      (addColumnSQL t <$> missing_columns (Columns t) db_columns) ∧
    (∀ col, col ∈ added → col ∈ Columns t ∧ ColumnName col ∉ db_columns) ∧
    ((∀ i, answers i = ExecOk) →
     added = missing_columns (Columns t) db_columns ∧
     sent = addColumnSQL t <$> missing_columns (Columns t) db_columns).
Proof.
  unfold createCurrentColumn.
  destruct (add_missing_spec (Columns t) db_columns answers 0 t)
    as (added & sent & -> & Hadded & Hsent & Hall).
  exists added, sent. split_and!; [done..| |done].
  intros col Hcol. apply (missing_columns_sub (Columns t)).
  by apply (elem_of_sublist _ _ _ Hcol Hadded).
Qed.



(** ** Column definitions *)

Section column_definitions.

Implicit Types (s sub pre sep : string) (cd : ColumnDef).

Lemma prefix_append sub rest : String.prefix sub (sub +:+ rest) = true.
Proof.
  induction sub as [|a sub IH]; simpl; [by destruct rest|].
  by destruct (ascii_dec a a).
Qed.

Lemma Contains_prefix s sub : String.prefix sub s = true → Contains s sub = true.
Proof.
  intros H. destruct s; [by destruct sub|].
  cbn [Contains]. by rewrite H.
Qed.

Lemma Contains_append_r pre s sub :
  Contains s sub = true → Contains (pre +:+ s) sub = true.
Proof.
  intros H. induction pre as [|a pre IH]; simpl; [done|].
  rewrite IH. apply orb_true_r.
Qed.

(** An element of a list is a part of the joined text. *)
Lemma Join_elem (x : string) (l : list string) sep :
  x ∈ l → ∃ pre post, Join l sep = pre +:+ x +:+ post.
Proof.
  induction l as [|y l IH]; [by intros ?%elem_of_nil|].
  intros [->|Hin]%elem_of_cons.
  - destruct l as [|z l].
    + exists EmptyString, EmptyString. simpl. by rewrite append_nil_r.
    + by exists EmptyString, (sep +:+ Join (z :: l) sep).
  - destruct (IH Hin) as (pre & post & Heq).
    destruct l as [|z l]; [by apply elem_of_nil in Hin|].
    exists (y +:+ sep +:+ pre), post.
    change (Join (y :: z :: l) sep) with (y +:+ sep +:+ Join (z :: l) sep).
    by rewrite Heq, !append_assoc.
Qed.

Lemma ColumnDef_String_unique cd :
  isUnique cd = true → Contains (ColumnDef_String cd) "UNIQUE" = true.
Proof.
  intros Hu. unfold ColumnDef_String. cbv zeta. rewrite Hu.
  edestruct (Join_elem "UNIQUE") as (pre & post & ->);
    [|apply Contains_append_r, Contains_prefix, prefix_append].
  apply elem_of_app. right. apply elem_of_app. right.
  apply elem_of_app. left. by left.
Qed.

End column_definitions.

(** X23.  A column of the table defined with [Unique()] is reported by
    [isDefinedColumnUnique], whatever its type and whichever of [NotNull()],
    [PrimaryKey()] and [CheckConstraint(...)] were applied as well: these
    leave the flag that [Unique()] sets.  The test reads the text of the
    definition, so the converse does not hold. *)
Theorem isDefinedColumnUnique_of_Unique (t : Table) (column col : Column) :
  col ∈ Columns t →
  ColumnName col = ColumnName column →
  isUnique (DataType col) = true →
  isDefinedColumnUnique t column = true ∧
  ∀ cd constraint,
    isUnique (Unique cd) = true ∧
    isUnique (NotNull cd) = isUnique cd ∧
    isUnique (PrimaryKey cd) = isUnique cd ∧
    isUnique (CheckConstraint cd constraint) = isUnique cd.
Proof.
  intros Hcol Hname Hu. split; [|done].
  unfold isDefinedColumnUnique. apply existsb_exists. exists col.
  split; [by apply list_elem_of_In|].
  apply andb_true_iff. split; [by apply bool_decide_eq_true|].
  by apply ColumnDef_String_unique.
Qed.

Lemma isDefinedColumnUnique_of_Unique_witness :
  isDefinedColumnUnique
    (with_Columns Examples.users0
       [ {| ColumnName := "email";
            DataType := NotNull (Unique (sized_type "VARCHAR" 255)) |} ])
    {| ColumnName := "email"; DataType := plain_type "TEXT" |} = true.
Proof.
  apply (isDefinedColumnUnique_of_Unique
           (with_Columns Examples.users0
              [ {| ColumnName := "email";
                   DataType := NotNull (Unique (sized_type "VARCHAR" 255)) |} ])
           {| ColumnName := "email"; DataType := plain_type "TEXT" |}
           {| ColumnName := "email";
              DataType := NotNull (Unique (sized_type "VARCHAR" 255)) |});
    [by left|done|done].
Defined.

(** A column that is not unique, reported unique for the text of its CHECK
    constraint. *)
Example isDefinedColumnUnique_reads_the_text :
  let code :=
    {| ColumnName := "code";
       DataType := CheckConstraint (plain_type "TEXT") "code <> 'UNIQUE'" |} in
  isUnique (DataType code) = false ∧
  isDefinedColumnUnique (with_Columns Examples.users0 [code]) code = true.
Proof. by vm_compute. Qed.
